(** * A shallow embedding of [osmem.c]

    The allocator of [src/osmem.c] (its four entry points [os_malloc],
    [os_free], [os_calloc], [os_realloc] and their helpers) is embedded as
    monadic Rocq functions over an explicit machine state: a word-addressed
    memory, the two globals [global_base] and [last], and a small model of
    the operating system (program break and anonymous mappings).

    Integers are 64-bit: [size_t] and pointer arithmetic wrap modulo 2^64
    ([wrap]), [intptr_t] is read back with [to_signed], the cast [(int)]
    with [to_int]. *)

From Stdlib Require Import ZArith Lia.
From stdpp Require Import base option list gmap strings.

Local Open Scope Z_scope.

(** ** Machine integers *)

Definition wrap (x : Z) : Z := x mod 2 ^ 64.

Definition to_signed (x : Z) : Z :=
  let y := wrap x in if y <? 2 ^ 63 then y else y - 2 ^ 64.

Definition to_int (x : Z) : Z :=
  let y := x mod 2 ^ 32 in if y <? 2 ^ 31 then y else y - 2 ^ 32.

Definition to_uint (x : Z) : Z := x mod 2 ^ 32.

(** ** Constants of the source *)

(** Modelled from the spec: [struct block_meta] is declared in
    [block_meta.h], which is not part of [src/].  The spec's block record has
    the fields [size], [status], [prev], [next]; on LP64 they sit at offsets
    0, 8, 16 and 24 ([status] is an [int], kept here in one 8-byte cell with
    its padding) and [sizeof (struct block_meta)] is 32. *)
Definition META_SIZE : Z := 32.
Definition MMAP_THRESHOLD : Z := 128 * 1024.
Definition ALIGNMENT : Z := 8.

(** [(void * )-1], the failure value of [sbrk] and [mmap]. *)
Definition MAP_FAILED : Z := 2 ^ 64 - 1.
Definition NULL : Z := 0.

(** [(size + (ALIGNMENT - 1)) & ~(ALIGNMENT - 1)] on [size_t]. *)
Definition align (size : Z) : Z :=
  Z.land (wrap (size + (ALIGNMENT - 1))) (Z.lnot (ALIGNMENT - 1)).

(** ** Machine state *)

(** Modelled from the spec: the OS services ExtendHeap ([sbrk]),
    MapAnonymous ([mmap]), Unmap ([munmap]) and PageSize ([getpagesize]) are
    external to the repository.  The heap is the interval
    [[brk_start, brk)]; the break may move between [brk_start] and
    [brk_limit].  Mappings are page-granular intervals handed out at
    increasing addresses up to [mmap_limit]. *)
Record os_state : Type := mk_os {
  brk : Z;
  brk_start : Z;
  brk_limit : Z;
  page_size : Z;
  mmap_next : Z;
  mmap_limit : Z;
  maps : list (Z * Z)
}.

Record state : Type := mk_state {
  mem : gmap Z Z;      (* 8-byte cells, absent cells read as 0 *)
  global_base : Z;     (* void *global_base *)
  last : Z;            (* struct block_meta *last *)
  os : os_state
}.

Definition with_mem (m : gmap Z Z) (s : state) : state :=
  mk_state m (global_base s) (last s) (os s).
Definition with_global_base (b : Z) (s : state) : state :=
  mk_state (mem s) b (last s) (os s).
Definition with_last (b : Z) (s : state) : state :=
  mk_state (mem s) (global_base s) b (os s).
Definition with_os (o : os_state) (s : state) : state :=
  mk_state (mem s) (global_base s) (last s) o.

(** The result of running a piece of the program. *)
Inductive outcome (A : Type) : Type :=
| Ok (a : A) (s : state)      (* normal return *)
| Fatal (msg : string)        (* DIE fired: diagnostic, then exit *)
| Segv (addr : Z)             (* access to an address that is not mapped *)
| Diverge.                    (* a loop did not finish: cyclic directory *)
Arguments Ok {A} a s.
Arguments Fatal {A} msg.
Arguments Segv {A} addr.
Arguments Diverge {A}.

Definition M (A : Type) : Type := state → outcome A.

Global Instance M_ret : MRet M := λ A a s, Ok a s.
Global Instance M_bind : MBind M := λ A B f m s,
  match m s with
  | Ok a s' => f a s'
  | Fatal msg => Fatal msg
  | Segv a => Segv a
  | Diverge => Diverge
  end.

Definition get_state : M state := λ s, Ok s s.

(** ** Memory *)

(** The first page is never mapped, so a null pointer cannot be read. *)
Definition NULL_PAGE : Z := 4096.

Definition in_range (lo hi a : Z) : bool := (lo <=? a) && (a + 8 <=? hi).

Definition valid (o : os_state) (a : Z) : bool :=
  (NULL_PAGE <=? a) &&
  (in_range (brk_start o) (brk o) a
   || existsb (λ r, in_range r.1 r.2 a) (maps o)).

Definition peek (s : state) (a : Z) : Z := default 0 (mem s !! a).

Definition load (a : Z) : M Z := λ s,
  if valid (os s) a then Ok (peek s a) s else Segv a.

Definition store (a v : Z) : M unit := λ s,
  if valid (os s) a then Ok tt (with_mem (<[a := v]> (mem s)) s) else Segv a.

(** Field access [b->size], [b->status], [b->prev], [b->next]. *)
Definition f_size (b : Z) : Z := b.
Definition f_status (b : Z) : Z := wrap (b + 8).
Definition f_prev (b : Z) : Z := wrap (b + 16).
Definition f_next (b : Z) : Z := wrap (b + 24).

Definition get_size (b : Z) : M Z := load (f_size b).
Definition get_status (b : Z) : M Z := load (f_status b).
Definition get_prev (b : Z) : M Z := load (f_prev b).
Definition get_next (b : Z) : M Z := load (f_next b).
Definition set_size (b v : Z) : M unit := store (f_size b) v.
Definition set_status (b v : Z) : M unit := store (f_status b) v.
Definition set_prev (b v : Z) : M unit := store (f_prev b) v.
Definition set_next (b v : Z) : M unit := store (f_next b) v.

Definition get_last : M Z := λ s, Ok (last s) s.
Definition set_last (b : Z) : M unit := λ s, Ok tt (with_last b s).
Definition get_global_base : M Z := λ s, Ok (global_base s) s.
Definition set_global_base (b : Z) : M unit := λ s, Ok tt (with_global_base b s).

(** [(void * )(block + 1)] and [(struct block_meta * )ptr - 1]. *)
Definition payload (block : Z) : Z := wrap (block + META_SIZE).
Definition header (ptr : Z) : Z := wrap (ptr - META_SIZE).

(** ** Operating system primitives *)

Definition with_brk (b : Z) (o : os_state) : os_state :=
  mk_os b (brk_start o) (brk_limit o) (page_size o) (mmap_next o)
        (mmap_limit o) (maps o).

(** [sbrk (increment)]: the increment is an [intptr_t]; [sbrk (0)] only
    reports the break. *)
Definition sbrk (increment : Z) : M Z := λ s,
  let o := os s in
  let nb := brk o + to_signed increment in
  if to_signed increment =? 0 then Ok (brk o) s
  else if (brk_start o <=? nb) && (nb <=? brk_limit o)
  then Ok (brk o) (with_os (with_brk nb o) s)
  else Ok MAP_FAILED s.

Definition page_up (o : os_state) (n : Z) : Z :=
  (n + page_size o - 1) / page_size o * page_size o.

Definition outside (lo hi : Z) (kv : Z * Z) : Prop := ¬ (lo ≤ kv.1 < hi).

Global Instance outside_dec lo hi kv : Decision (outside lo hi kv) :=
  decide (¬ (lo ≤ kv.1 < hi)).

(** [mmap (NULL, len, PROT_READ | PROT_WRITE, MAP_PRIVATE | MAP_ANONYMOUS,
    -1, 0)]: a fresh zero-filled mapping, or [MAP_FAILED]. *)
Definition mmap (len : Z) : M Z := λ s,
  let o := os s in
  let a := mmap_next o in
  let e := a + page_up o len in
  if (0 <? len) && (e <=? mmap_limit o)
  then Ok a (mk_state (filter (outside a e) (mem s)) (global_base s) (last s)
               (mk_os (brk o) (brk_start o) (brk_limit o) (page_size o) e
                      (mmap_limit o) ((a, e) :: maps o)))
  else Ok MAP_FAILED s.

(** What is left of the mapping [r] once [[lo, hi)] is unmapped. *)
Definition cut (lo hi : Z) (r : Z * Z) : list (Z * Z) :=
  (if r.1 <? Z.min r.2 lo then [(r.1, Z.min r.2 lo)] else [])
  ++ (if Z.max r.1 hi <? r.2 then [(Z.max r.1 hi, r.2)] else []).

(** [munmap (addr, len)]: 0, or -1 when [addr] is not page-aligned or [len]
    is 0. *)
Definition munmap (addr len : Z) : M Z := λ s,
  let o := os s in
  if (addr mod page_size o =? 0) && (0 <? len)
  then Ok 0 (with_os (mk_os (brk o) (brk_start o) (brk_limit o) (page_size o)
                            (mmap_next o) (mmap_limit o)
                            (flat_map (cut addr (addr + page_up o len)) (maps o))) s)
  else Ok (-1) s.

Definition getpagesize : M Z := λ s, Ok (page_size (os s)) s.

(** Modelled from the spec: the fatal-error helper [DIE (assertion, msg)] is
    defined in a header that is not part of [src/]: when the assertion holds
    it reports the diagnostic and terminates the process. *)
Definition DIE (assertion : bool) (call_description : string) : M unit := λ s,
  if assertion then Fatal call_description else Ok tt s.

(** [memset] and [memcpy] work cell by cell; a length that is not a multiple
    of 8 ends in a partial cell, of which the low [n mod 8] bytes are written
    (little endian). *)
Definition low_bytes (r w : Z) : Z := w mod 2 ^ (8 * r).
Definition high_bytes (r w : Z) : Z := w / 2 ^ (8 * r) * 2 ^ (8 * r).

Definition store_low (r dest w : Z) : M unit :=
  if r =? 0 then mret tt
  else d ← load dest; store dest (low_bytes r w + high_bytes r d).

Fixpoint memset_cells (n : nat) (p w : Z) : M unit :=
  match n with
  | O => mret tt
  | S k => store p w;; memset_cells k (wrap (p + 8)) w
  end.

Definition memset (p c n : Z) : M unit :=
  let w := c mod 256 * 72340172838076673 in   (* the byte c, eight times *)
  memset_cells (Z.to_nat (n / 8)) p w;;
  store_low (n mod 8) (wrap (p + n / 8 * 8)) w.

Fixpoint memcpy_cells (n : nat) (dest src : Z) : M unit :=
  match n with
  | O => mret tt
  | S k => w ← load src; store dest w;;
           memcpy_cells k (wrap (dest + 8)) (wrap (src + 8))
  end.

Definition memcpy (dest src n : Z) : M unit :=
  memcpy_cells (Z.to_nat (n / 8)) dest src;;
  if n mod 8 =? 0 then mret tt
  else w ← load (wrap (src + n / 8 * 8));
       store_low (n mod 8) (wrap (dest + n / 8 * 8)) w.

(** * The allocator, function by function *)

(** [preallocate]: reserve the 128 KiB slab and carve the first block. *)
Definition preallocate (size : Z) : M Z :=
  request ← sbrk MMAP_THRESHOLD;
  DIE (request =? MAP_FAILED) "Preallocation failed";;
  let block := request in
  set_size block size;;
  set_status block 1;;
  set_next block NULL;;
  set_prev block NULL;;
  set_global_base block;;
  set_last block;;
  mret (payload block).

(** [request_mmap]: a block of its own mapping; [prev] and [next] are not
    written. *)
Definition request_mmap (size : Z) : M Z :=
  request ← mmap (wrap (size + META_SIZE));
  DIE (request =? MAP_FAILED) "mmap failed";;
  let block := request in
  set_size block size;;
  set_status block 2;;
  mret (payload block).

(** The [while (block)] loop of [find_best_block]. *)
Fixpoint find_best_loop (fuel : nat) (size best_fit_size best_fit_block block : Z)
  : M Z :=
  match fuel with
  | O => λ _, Diverge
  | S fuel' =>
    if block =? NULL then mret best_fit_block
    else
      st ← get_status block;
      '(best_fit_size', best_fit_block') ←
        (if st =? 0 then
           sz ← get_size block;
           if size <=? sz then
             sz' ← get_size block;
             if sz' <? best_fit_size then
               sz'' ← get_size block;
               mret (sz'', block)
             else mret (best_fit_size, best_fit_block)
           else mret (best_fit_size, best_fit_block)
         else mret (best_fit_size, best_fit_block));
      next ← get_next block;
      find_best_loop fuel' size best_fit_size' best_fit_block' next
  end.

(** A directory without a cycle has at most one block more than memory has
    cells (every block but the first is the [next] of another), so this
    many iterations complete the loop on it. *)
Definition loop_fuel (s : state) : nat := S (S (size (mem s))).

Definition find_best_block (size : Z) : M Z :=
  s ← get_state;
  find_best_loop (loop_fuel s) size MMAP_THRESHOLD NULL (global_base s).

Definition try_split (best_fit_block size : Z) : M Z :=
  bsz ← get_size best_fit_block;
  let remaining_size := wrap (bsz - size) in
  if META_SIZE + 1 <=? remaining_size then
    let block := wrap (best_fit_block + size + META_SIZE) in
    set_size block (wrap (remaining_size - META_SIZE));;
    set_status block 0;;
    bnext ← get_next best_fit_block;
    set_next block bnext;;
    set_prev block best_fit_block;;
    set_size best_fit_block size;;
    set_status best_fit_block 1;;
    bnext ← get_next best_fit_block;
    (if bnext =? NULL then mret tt
     else bnext ← get_next best_fit_block; set_prev bnext block);;
    set_next best_fit_block block;;
    next ← get_next block;
    (if next =? NULL then set_last block else mret tt);;
    mret (payload best_fit_block)
  else
    set_status best_fit_block 1;;
    mret (payload best_fit_block).

Definition expand_last (size : Z) : M Z :=
  top ← sbrk 0;
  last0 ← get_last;
  let real_size := wrap (top - last0) in
  let new_size := wrap (wrap (size - real_size) + META_SIZE) in
  let new_size := align new_size in
  request ← sbrk new_size;
  DIE (request =? MAP_FAILED) "sbrk failed";;
  l ← get_last; set_size l size;;
  l ← get_last; set_status l 1;;
  l ← get_last; mret (payload l).

Definition create_new_block (size : Z) : M Z :=
  request ← sbrk (wrap (size + META_SIZE));
  DIE (request =? MAP_FAILED) "sbrk failed";;
  let block := request in
  set_size block size;;
  set_status block 1;;
  l ← get_last; set_next l block;;
  l ← get_last; set_prev block l;;
  set_next block NULL;;
  set_last block;;
  mret (payload block).

Definition os_malloc (size : Z) : M Z :=
  if size <=? 0 then mret NULL
  else
    let size := align size in
    if size <? MMAP_THRESHOLD then
      base ← get_global_base;
      if base =? NULL then preallocate size
      else
        best_fit_block ← find_best_block size;
        if negb (best_fit_block =? NULL) then try_split best_fit_block size
        else
          l ← get_last; lst ← get_status l;
          if lst =? 0 then
            l ← get_last; lsz ← get_size l;
            if lsz <? size then expand_last size
            else create_new_block size
          else create_new_block size
    else request_mmap size.

Definition os_free (ptr : Z) : M unit :=
  if ptr =? NULL then mret tt
  else
    let block := header ptr in
    st ← get_status block;
    if st =? 0 then mret tt
    else
      st ← get_status block;
      if st =? 1 then
        prev_block ← get_prev block;
        next_block ← get_next block;
        let merge_prev : M Z :=
          psz ← get_size prev_block;
          bsz ← get_size block;
          set_size prev_block (wrap (psz + wrap (bsz + META_SIZE)));;
          set_next prev_block next_block;;
          (if negb (next_block =? NULL) then set_prev next_block prev_block
           else mret tt);;
          l ← get_last;
          (if l =? block then set_last prev_block else mret tt);;
          mret prev_block in
        block ←
          (if negb (prev_block =? NULL) then
             pst ← get_status prev_block;
             if pst =? 0 then merge_prev else mret block
           else mret block);
        let merge_next : M unit :=
          bsz ← get_size block;
          nsz ← get_size next_block;
          set_size block (wrap (bsz + wrap (nsz + META_SIZE)));;
          nn ← get_next next_block;
          set_next block nn;;
          nn ← get_next next_block;
          (if negb (nn =? NULL) then
             nn ← get_next next_block; set_prev nn block
           else mret tt);;
          l ← get_last;
          (if l =? next_block then set_last block else mret tt) in
        (if negb (next_block =? NULL) then
           nst ← get_status next_block;
           if nst =? 0 then merge_next else mret tt
         else mret tt);;
        set_status block 0
      else
        st ← get_status block;
        if st =? 2 then
          bsz ← get_size block;
          error ← munmap block (wrap (bsz + META_SIZE));
          DIE (error =? -1) "munmap failed!"
        else mret tt.

Definition os_calloc (nmemb size : Z) : M Z :=
  if (size =? 0) || (nmemb =? 0) then mret NULL
  else
    page_size ← getpagesize;
    DIE (page_size =? -1) "Page size error!";;
    let total_size := wrap (nmemb * size) in
    let total_size := align total_size in
    if to_uint page_size <? wrap (total_size + META_SIZE) then
      ptr ← mmap (wrap (total_size + META_SIZE));
      let block := ptr in
      set_size block total_size;;
      set_status block 2;;
      memset (wrap (ptr + META_SIZE)) 0 total_size;;
      mret (payload block)
    else
      ptr ← os_malloc total_size;
      (if negb (ptr =? NULL) then memset ptr 0 total_size else mret tt);;
      mret ptr.

(** [coalesce]: [block->next->status] is read before [block->next] is
    compared with [NULL]. *)
Definition coalesce (block : Z) : M unit :=
  next ← get_next block;
  nst ← get_status next;
  if nst =? 0 then
    next ← get_next block;
    if negb (next =? NULL) then
      next_block ← get_next block;
      nn ← get_next next_block;
      (if nn =? NULL then
         bsz ← get_size block;
         nsz ← get_size next_block;
         set_size block (wrap (bsz + wrap (nsz + META_SIZE)))
       else
         bsz ← get_size block;
         nn ← get_next next_block;
         set_size block (wrap (bsz + wrap (nn - next_block))));;
      nn ← get_next next_block;
      (if negb (nn =? 0) then
         nn ← get_next next_block; set_prev nn block
       else mret tt);;
      nn ← get_next next_block;
      set_next block nn
    else mret tt
  else mret tt.

Definition split_realloc (block ptr size : Z) : M Z :=
  let size := align size in
  bsz ← get_size block;
  let remaining_size := wrap (wrap (bsz - size) - META_SIZE) in
  if to_int remaining_size <=? 0 then
    set_size block size;;
    mret (payload block)
  else
    st ← get_status block;
    if st =? 2 then
      dest ← os_malloc size;
      memcpy dest ptr size;;
      os_free ptr;;
      mret dest
    else
      st ← get_status block;
      if st =? 1 then
        let remaining_block := wrap (block + size + META_SIZE) in
        set_size remaining_block remaining_size;;
        set_status remaining_block 0;;
        bn ← get_next block;
        set_next remaining_block bn;;
        bn ← get_next block;
        (if negb (bn =? NULL) then
           bn ← get_next block; set_prev bn remaining_block
         else mret tt);;
        set_prev remaining_block block;;
        set_next block remaining_block;;
        set_size block size;;
        set_status block 1;;
        mret (payload block)
      else mret NULL.

(** [os_realloc], with its one call of [coalesce] taken as a parameter so
    that statements about that call site can range over the callee. *)
Definition os_realloc_with (coalesce : Z → M unit) (ptr size : Z) : M Z :=
  if ptr =? NULL then os_malloc size
  else if size =? 0 then os_free ptr;; mret NULL
  else
    let block := header ptr in
    (* the code after the if / else if: allocate, copy, release *)
    let relocate (size : Z) : M Z :=
      dest ← os_malloc size;
      bsz ← get_size block;
      memcpy dest ptr bsz;;
      os_free ptr;;
      mret dest in
    st ← get_status block;
    if st =? 0 then mret NULL
    else
      bsz ← get_size block;
      if size =? bsz then mret ptr
      else
        bsz ← get_size block;
        if size <? bsz then split_realloc block ptr size
        else
          bsz ← get_size block;
          if bsz <? size then
            let size := align size in
            next ← get_next block;
            if next =? NULL then
              set_last block;;
              expand_last size
            else
              next ← get_next block;
              let real_size := wrap (wrap (next - block) - META_SIZE) in
              coalesce block;;
              bsz ← get_size block;
              if bsz =? size then
                set_size block size;;
                mret (payload block)
              else if size <=? real_size then split_realloc block ptr size
              else
                bsz ← get_size block;
                if size <? bsz then split_realloc block ptr size
                else relocate size
          else relocate size.

Definition os_realloc (ptr size : Z) : M Z := os_realloc_with coalesce ptr size.

(** * Observing a state *)

(** The Block Directory: the blocks reached from [global_base] through
    [next], each with its size and status. *)
Fixpoint walk (fuel : nat) (s : state) (b : Z) : list Z :=
  match fuel with
  | O => []
  | S fuel' => if b =? NULL then [] else b :: walk fuel' s (peek s (f_next b))
  end.

Definition entry (s : state) (b : Z) : Z * Z * Z :=
  (b, peek s (f_size b), peek s (f_status b)).

Definition directory (s : state) : list (Z * Z * Z) :=
  entry s <$> walk (loop_fuel s) s (global_base s).

Fixpoint adjacent_free (d : list (Z * Z * Z)) : bool :=
  match d with
  | e1 :: (e2 :: _) as d' => ((e1.2 =? 0) && (e2.2 =? 0)) || adjacent_free d'
  | _ => false
  end.

Definition result {A} (o : outcome A) : option A :=
  match o with Ok a _ => Some a | _ => None end.

Definition final {A} (o : outcome A) : option state :=
  match o with Ok _ s => Some s | _ => None end.

(** The state a run ends in ([s] itself when the run does not return). *)
Definition after {A} (m : M A) (s : state) : state := default s (final (m s)).

(** ** Specification vocabulary *)

Definition hdr_valid (o : os_state) (b : Z) : Prop :=
  valid o (f_size b) = true ∧ valid o (f_status b) = true
  ∧ valid o (f_prev b) = true ∧ valid o (f_next b) = true.

(** [chain s b l]: following [next] from [b] visits exactly the blocks [l],
    all with mapped headers, and then reaches [NULL]. *)
Inductive chain (s : state) : Z → list Z → Prop :=
| chain_nil : chain s NULL []
| chain_cons b l :
    b ≠ NULL → hdr_valid (os s) b →
    chain s (peek s (f_next b)) l → chain s b (b :: l).

(** The loop of [find_best_block] as a fold over the blocks it visits. *)
Fixpoint scan (s : state) (size : Z) (l : list Z)
    (best_fit_size best_fit_block : Z) : Z :=
  match l with
  | [] => best_fit_block
  | b :: l' =>
    if (peek s (f_status b) =? 0) && (size <=? peek s (f_size b))
       && (peek s (f_size b) <? best_fit_size)
    then scan s size l' (peek s (f_size b)) b
    else scan s size l' best_fit_size best_fit_block
  end.

(** A Free block that a request of [size] bytes could take. *)
Definition fits (s : state) (size b : Z) : Prop :=
  peek s (f_status b) = 0 ∧ size ≤ peek s (f_size b).

(** [returns m s Q]: from [s], [m] returns normally, with a value and a
    state that satisfy [Q]. *)
Definition returns {A} (m : M A) (s : state) (Q : A → state → Prop) : Prop :=
  ∃ a s', m s = Ok a s' ∧ Q a s'.

(** The bytes of a block, header and payload, are mapped and do not wrap
    around the address space. *)
Definition extent_ok (s : state) (b : Z) : Prop :=
  0 ≤ b ∧ b + META_SIZE + peek s (f_size b) < 2 ^ 64
  ∧ ∀ a, b ≤ a → a + 8 ≤ b + META_SIZE + peek s (f_size b) →
         valid (os s) a = true.

(** A variant of [coalesce] that tests the successor for [NULL] first. *)
Definition coalesce_guarded (block : Z) : M unit :=
  next ← get_next block;
  if next =? NULL then mret tt else coalesce block.

(** Relocation as [split_realloc] does it for a mapped block. *)
Definition relocate_mapped (ptr size : Z) : M Z :=
  dest ← os_malloc size;
  memcpy dest ptr size;;
  os_free ptr;;
  mret dest.

(** What [os_calloc] does below its threshold: [os_malloc], then [memset]. *)
Definition calloc_via_malloc (total_size : Z) : M Z :=
  ptr ← os_malloc total_size;
  (if negb (ptr =? NULL) then memset ptr 0 total_size else mret tt);;
  mret ptr.

(** ** Concrete processes *)

(** A fresh process: empty heap at 16 MiB that may grow by 1 GiB, pages of
    4 KiB, mappings handed out from 2^40 up to 2^41. *)
Definition os_init : os_state :=
  mk_os 16777216 16777216 (16777216 + 2 ^ 30) 4096 (2 ^ 40) (2 ^ 41) [].

Definition init : state := mk_state ∅ NULL NULL os_init.

(** The same process when the OS lets the break rise up to 2^41. *)
Definition init_roomy : state :=
  mk_state ∅ NULL NULL
    (mk_os 16777216 16777216 (2 ^ 41) 4096 (2 ^ 40) (2 ^ 41) []).

(** The same process when the OS has no room left for mappings. *)
Definition init_nomap : state :=
  mk_state ∅ NULL NULL
    (mk_os 16777216 16777216 (16777216 + 2 ^ 30) 4096 (2 ^ 40) (2 ^ 40) []).

(** What a scenario reports: its own value, then the directory, [last], the
    break and the live mappings of the state it ends in. *)
Definition observe {A} (m : M A) : M (A * list (Z * Z * Z) * Z * Z * list (Z * Z)) :=
  a ← m; s ← get_state;
  mret (a, directory s, last s, brk (os s), maps (os s)).

(** One slab block, then an allocated block of 4000 bytes followed by a
    Free block and an allocated one, each starting where the previous ends. *)
Definition heap_with_free_successor : M (Z * Z) :=
  a ← os_malloc 8; b ← os_malloc 4000; c ← os_malloc 100; d ← os_malloc 100;
  os_free c;; mret (b, c).

(** Three allocated blocks [b], [c], [d] in a row, fenced by allocated
    blocks on both sides. *)
Definition three_in_a_row : M (Z * Z * Z) :=
  a ← os_malloc 8; b ← os_malloc 100; c ← os_malloc 200; d ← os_malloc 300;
  e ← os_malloc 8; mret (b, c, d).

Definition release3 (x y z : Z) : M unit := os_free x;; os_free y;; os_free z.

(** A Free block of 40 bytes ([b]) and, further up, an allocated block of
    104 bytes ([d]). *)
Definition small_free_and_large_allocated : M (Z * Z) :=
  a ← os_malloc 8; b ← os_malloc 40; c ← os_malloc 8; d ← os_malloc 100;
  e ← os_malloc 8; os_free b;; mret (b, d).

(** Two blocks of 100000 bytes released one after the other: they merge
    into one Free block of 200032 bytes. *)
Definition one_large_free_block : M unit :=
  a ← os_malloc 100000; b ← os_malloc 100000; os_free a;; os_free b.

(** An allocated block [c] whose predecessor [b] is Free. *)
Definition free_predecessor : M (Z * Z) :=
  a ← os_malloc 8; b ← os_malloc 100; c ← os_malloc 100; d ← os_malloc 8;
  os_free b;; mret (b, c).

(** The spec's scenario [a = allocate (100); b = allocate (200);
    release (a)]. *)
Definition released_first_block : M (Z * Z) :=
  a ← os_malloc 100; b ← os_malloc 200; os_free a;; mret (a, b).

(** Two allocated blocks: the first has the second as its successor, the
    second is the directory tail and ends at the break. *)
Definition two_blocks : M (Z * Z) :=
  a ← os_malloc 16; b ← os_malloc 16; mret (a, b).

(** ** Further vocabulary *)

(** The code after the [if] / [else if] chain of [os_realloc]: allocate,
    copy as many bytes as the old block records, release the old block. *)
Definition relocate (ptr size : Z) : M Z :=
  dest ← os_malloc size;
  bsz ← get_size (header ptr);
  memcpy dest ptr bsz;;
  os_free ptr;;
  mret dest.

(** [preserves R m]: every run of [m] that returns relates the state it
    started in to the state it ends in. *)
Definition preserves {A} (R : state → state → Prop) (m : M A) : Prop :=
  ∀ s a s', m s = Ok a s' → R s s'.

(** Once set, [global_base] stays. *)
Definition base_stable (s s' : state) : Prop :=
  global_base s ≠ NULL → global_base s' = global_base s.

(** Nothing is asked of the operating system but to unmap. *)
Definition os_quiet (s s' : state) : Prop :=
  brk (os s') = brk (os s) ∧ mmap_next (os s') = mmap_next (os s)
  ∧ global_base s' = global_base s.

(** ** Further concrete processes *)

(** Three blocks in a row of which the outer two have been released. *)
Definition free_neighbours : M (Z * Z * Z) :=
  '(b, c, d) ← three_in_a_row; os_free b;; os_free d;; mret (b, c, d).

(** A directory whose tail is a Free block of 104 bytes that ends at the
    break. *)
Definition released_tail : M (Z * Z) :=
  a ← os_malloc 8; b ← os_malloc 100; os_free b;; mret (a, b).

(** A directory of one Free block of 1000 bytes at the start of the slab. *)
Definition released_only_block : M Z :=
  a ← os_malloc 1000; os_free a;; mret a.

(** * Reasoning about the embedding *)

(** ** Machine arithmetic *)

Lemma wrap_range x : 0 ≤ wrap x < 2 ^ 64.
Proof. unfold wrap. apply Z.mod_pos_bound. lia. Qed.

Lemma wrap_small x : 0 ≤ x < 2 ^ 64 → wrap x = x.
Proof. intros. unfold wrap. apply Z.mod_small. lia. Qed.

Lemma wrap_add_sub p n : 0 ≤ p < 2 ^ 64 → wrap (wrap (p - n) + n) = p.
Proof.
  intros Hp. unfold wrap.
  rewrite Zplus_mod_idemp_l. replace (p - n + n) with p by lia.
  apply Z.mod_small. lia.
Qed.

Lemma payload_header ptr : 0 ≤ ptr < 2 ^ 64 → payload (header ptr) = ptr.
Proof. apply wrap_add_sub. Qed.

Lemma align_div size : align size = wrap (size + 7) / 8 * 8.
Proof.
  unfold align, ALIGNMENT. change (8 - 1) with (Z.ones 3).
  rewrite <- Z.ldiff_land, Z.ldiff_ones_r by lia.
  rewrite Z.shiftl_mul_pow2, Z.shiftr_div_pow2 by lia. reflexivity.
Qed.

Lemma align_mod8 size : align size mod 8 = 0.
Proof. rewrite align_div. apply Z.mod_mul. lia. Qed.

Lemma align_range size : 0 ≤ align size < 2 ^ 64.
Proof.
  rewrite align_div. pose proof (wrap_range (size + 7)).
  pose proof (Z.mul_div_le (wrap (size + 7)) 8 ltac:(lia)).
  pose proof (Z.div_pos (wrap (size + 7)) 8 ltac:(lia) ltac:(lia)). lia.
Qed.

Lemma align_bounds size :
  0 ≤ size → size + 7 < 2 ^ 64 → size ≤ align size < size + 8.
Proof.
  intros H0 H1. rewrite align_div, wrap_small by lia.
  pose proof (Z.div_mod (size + 7) 8 ltac:(lia)).
  pose proof (Z.mod_pos_bound (size + 7) 8 ltac:(lia)). lia.
Qed.

Lemma page_up_ge o n : 0 < page_size o → n ≤ page_up o n.
Proof.
  intros Hps. unfold page_up.
  pose proof (Z.div_mod (n + page_size o - 1) (page_size o) ltac:(lia)).
  pose proof (Z.mod_pos_bound (n + page_size o - 1) (page_size o) ltac:(lia)).
  lia.
Qed.

(** ** Running the monad *)

Lemma bind_run {A B} (m : M A) (f : A → M B) s :
  (m ≫= f) s =
  match m s with
  | Ok a s' => f a s'
  | Fatal msg => Fatal msg
  | Segv a => Segv a
  | Diverge => Diverge
  end.
Proof. reflexivity. Qed.

Lemma bind_ok {A B} (m : M A) (f : A → M B) s a s' :
  m s = Ok a s' → (m ≫= f) s = f a s'.
Proof. intros H. rewrite bind_run, H. reflexivity. Qed.

Lemma bind_inv {A B} (m : M A) (f : A → M B) s b s2 :
  (m ≫= f) s = Ok b s2 → ∃ a s1, m s = Ok a s1 ∧ f a s1 = Ok b s2.
Proof.
  rewrite bind_run. destruct (m s) as [a s1| | |]; try discriminate. eauto.
Qed.

Lemma ret_run {A} (a : A) s : (mret a : M A) s = Ok a s.
Proof. reflexivity. Qed.

Lemma bind_ret {A B} (a : A) (f : A → M B) s : (mret a ≫= f) s = f a s.
Proof. reflexivity. Qed.

Lemma bind_get_last {B} (f : Z → M B) s : (get_last ≫= f) s = f (last s) s.
Proof. reflexivity. Qed.

Lemma bind_set_last b {B} (f : unit → M B) s :
  (set_last b ≫= f) s = f tt (with_last b s).
Proof. reflexivity. Qed.

(** ** Memory *)

Lemma null_unmapped o a : a < NULL_PAGE → valid o a = false.
Proof.
  intros H. unfold valid. destruct (Z.leb_spec NULL_PAGE a); [lia|reflexivity].
Qed.

Lemma valid_in_heap o a :
  NULL_PAGE ≤ a → brk_start o ≤ a → a + 8 ≤ brk o → valid o a = true.
Proof.
  intros Hn Hlo Hhi. unfold valid, in_range.
  apply andb_true_intro. split; [lia|].
  apply orb_true_intro. left. lia.
Qed.

Lemma valid_in_map o r a :
  r ∈ maps o → NULL_PAGE ≤ a → r.1 ≤ a → a + 8 ≤ r.2 → valid o a = true.
Proof.
  intros Hr Hn Hlo Hhi. unfold valid.
  apply andb_true_intro. split; [lia|].
  apply orb_true_intro. right. apply existsb_exists. exists r. split.
  - by apply list_elem_of_In.
  - unfold in_range. lia.
Qed.

Lemma load_ok a s : valid (os s) a = true → load a s = Ok (peek s a) s.
Proof. intros H. unfold load. rewrite H. reflexivity. Qed.

Lemma store_ok a v s :
  valid (os s) a = true → store a v s = Ok tt (with_mem (<[a := v]> (mem s)) s).
Proof. intros H. unfold store. rewrite H. reflexivity. Qed.

Lemma store_inv a v s u s' :
  store a v s = Ok u s' →
  valid (os s) a = true ∧ s' = with_mem (<[a := v]> (mem s)) s.
Proof.
  unfold store. destruct (valid (os s) a); [|discriminate].
  intros [= _ <-]. done.
Qed.

Lemma with_mem_same s : with_mem (mem s) s = s.
Proof. destruct s; reflexivity. Qed.

(** Writing back the value a cell holds changes nothing. *)
Lemma store_same a s :
  valid (os s) a = true → peek s a ≠ 0 → store a (peek s a) s = Ok tt s.
Proof.
  intros Hv Hp. rewrite store_ok by done. f_equal.
  unfold peek in *. destruct (mem s !! a) as [v|] eqn:E; simpl in *; [|done].
  rewrite insert_id by done. apply with_mem_same.
Qed.

Lemma peek_store_eq a v s : peek (with_mem (<[a := v]> (mem s)) s) a = v.
Proof. unfold peek; simpl. rewrite lookup_insert_eq. reflexivity. Qed.

Lemma peek_store_ne a b v s :
  a ≠ b → peek (with_mem (<[a := v]> (mem s)) s) b = peek s b.
Proof.
  intros. unfold peek; simpl. rewrite lookup_insert_ne by done. reflexivity.
Qed.

Lemma peek_insert_eq a v m s : peek (with_mem (<[a := v]> m) s) a = v.
Proof. unfold peek; simpl. rewrite lookup_insert_eq. reflexivity. Qed.

Lemma peek_insert_ne a b v m s :
  a ≠ b → peek (with_mem (<[a := v]> m) s) b = peek (with_mem m s) b.
Proof.
  intros. unfold peek; simpl. rewrite lookup_insert_ne by done. reflexivity.
Qed.

Lemma peek_filter_inside lo hi m g l o x :
  lo ≤ x < hi → peek (mk_state (filter (outside lo hi) m) g l o) x = 0.
Proof.
  intros Hx. unfold peek; simpl. rewrite map_lookup_filter.
  destruct (m !! x) as [v|]; simpl; [|done].
  rewrite option_guard_False; [done|]. unfold outside; simpl. tauto.
Qed.

Lemma peek_filter_outside lo hi m g l o x :
  ¬ (lo ≤ x < hi) →
  peek (mk_state (filter (outside lo hi) m) g l o) x = default 0 (m !! x).
Proof.
  intros Hx. unfold peek; simpl. rewrite map_lookup_filter.
  destruct (m !! x) as [v|]; simpl; [|done].
  rewrite option_guard_True by done. done.
Qed.

Lemma bind_load a {B} (f : Z → M B) s :
  (load a ≫= f) s = if valid (os s) a then f (peek s a) s else Segv a.
Proof. rewrite bind_run. unfold load. destruct (valid (os s) a); reflexivity. Qed.

Lemma bind_load_ok a {B} (f : Z → M B) s :
  valid (os s) a = true → (load a ≫= f) s = f (peek s a) s.
Proof. intros H. rewrite bind_load, H. reflexivity. Qed.

Lemma bind_load_inv a {B} (f : Z → M B) s b s' :
  (load a ≫= f) s = Ok b s' →
  valid (os s) a = true ∧ f (peek s a) s = Ok b s'.
Proof.
  rewrite bind_load. destruct (valid (os s) a); [done|discriminate].
Qed.

Lemma bind_store_ok a v {B} (f : unit → M B) s :
  valid (os s) a = true →
  (store a v ≫= f) s = f tt (with_mem (<[a := v]> (mem s)) s).
Proof. intros H. apply bind_ok, store_ok, H. Qed.

(** [memset] over mapped cells returns; it writes those cells and no other. *)
Lemma memset_cells_ok n : ∀ p w s,
  0 ≤ p → p + 8 * Z.of_nat n < 2 ^ 64 →
  (∀ k, 0 ≤ k < Z.of_nat n → valid (os s) (p + 8 * k) = true) →
  ∃ s', memset_cells n p w s = Ok tt s'
        ∧ os s' = os s ∧ global_base s' = global_base s ∧ last s' = last s
        ∧ (∀ k, 0 ≤ k < Z.of_nat n → peek s' (p + 8 * k) = w)
        ∧ (∀ x, x < p ∨ p + 8 * Z.of_nat n ≤ x → peek s' x = peek s x).
Proof.
  induction n as [|n IH]; intros p w s Hp Hend Hvalid.
  - exists s. simpl. repeat split; try done. intros; lia.
  - cbn [memset_cells].
    assert (valid (os s) p = true) as Hv.
    { replace p with (p + 8 * 0) by lia. apply Hvalid. lia. }
    rewrite bind_store_ok by done.
    rewrite wrap_small by lia.
    destruct (IH (p + 8) w (with_mem (<[p := w]> (mem s)) s))
      as (s' & Hrun & Hos & Hgb & Hl & Hin & Hout).
    + lia.
    + lia.
    + intros k Hk. simpl. replace (p + 8 + 8 * k) with (p + 8 * (k + 1)) by lia.
      apply Hvalid. lia.
    + exists s'. split; [done|]. simpl in *. repeat split; try done.
      * intros k Hk. destruct (decide (k = 0)) as [->|].
        -- rewrite Z.mul_0_r, Z.add_0_r, Hout by lia. apply peek_store_eq.
        -- replace (p + 8 * k) with (p + 8 + 8 * (k - 1)) by lia.
           apply Hin. lia.
      * intros x Hx. rewrite Hout by lia. apply peek_store_ne. lia.
Qed.

(** [memset] with a length that is a multiple of 8. *)
Lemma memset_zero_ok p n s :
  0 ≤ p → 0 ≤ n → n mod 8 = 0 → p + n < 2 ^ 64 →
  (∀ k, 0 ≤ k < n / 8 → valid (os s) (p + 8 * k) = true) →
  ∃ s', memset p 0 n s = Ok tt s'
        ∧ os s' = os s ∧ global_base s' = global_base s ∧ last s' = last s
        ∧ (∀ k, 0 ≤ k < n / 8 → peek s' (p + 8 * k) = 0)
        ∧ (∀ x, x < p ∨ p + n ≤ x → peek s' x = peek s x).
Proof.
  intros Hp Hn Hmod Hend Hvalid.
  pose proof (Z.div_mod n 8 ltac:(lia)) as Hdiv.
  pose proof (Z.div_pos n 8 Hn ltac:(lia)) as Hq.
  destruct (memset_cells_ok (Z.to_nat (n / 8)) p
              (0 mod 256 * 72340172838076673) s)
    as (s' & Hrun & Hos & Hgb & Hl & Hin & Hout).
  { lia. }
  { rewrite Z2Nat.id by done. lia. }
  { intros k Hk. rewrite Z2Nat.id in Hk by done. by apply Hvalid. }
  rewrite Z2Nat.id in Hin, Hout by done.
  exists s'. unfold memset. rewrite (bind_ok _ _ _ _ _ Hrun), Hmod.
  repeat split; try done. intros x Hx. apply Hout. lia.
Qed.

(** ** The operating system *)

Lemma with_brk_same o : with_brk (brk o) o = o.
Proof. destruct o; reflexivity. Qed.

Lemma sbrk_zero s : sbrk 0 s = Ok (brk (os s)) s.
Proof. reflexivity. Qed.

(** [sbrk] moves the break by the signed increment whenever the new break
    stays within the limits. *)
Lemma sbrk_ok inc s :
  brk_start (os s) ≤ brk (os s) + to_signed inc ≤ brk_limit (os s) →
  ∃ s', sbrk inc s = Ok (brk (os s)) s' ∧
        mem s' = mem s ∧ global_base s' = global_base s ∧ last s' = last s ∧
        os s' = with_brk (brk (os s) + to_signed inc) (os s).
Proof.
  intros H. unfold sbrk. destruct (Z.eqb_spec (to_signed inc) 0) as [E|E].
  - exists s. rewrite E, Z.add_0_r, with_brk_same. done.
  - destruct (Z.leb_spec (brk_start (os s)) (brk (os s) + to_signed inc)); [|lia].
    destruct (Z.leb_spec (brk (os s) + to_signed inc) (brk_limit (os s))); [|lia].
    eexists. split; [reflexivity|]. done.
Qed.

(** Where the break ends up when [expand_last] is run on a block at [b] with
    the break at [top]: right behind the resized block, whether that is
    above or below [top]. *)
Lemma wrap_mod8 x : wrap x mod 8 = x mod 8.
Proof.
  unfold wrap. apply Z.mod_mod_divide. exists (2 ^ 61). reflexivity.
Qed.

Lemma align_fixed y : 0 ≤ y < 2 ^ 64 → y mod 8 = 0 → align y = y.
Proof.
  intros Hy H8. rewrite align_div.
  pose proof (Z.div_mod y 8 ltac:(lia)) as Hd.
  assert (y + 7 < 2 ^ 64) as Hlt.
  { assert (y / 8 < 2 ^ 61); [|lia].
    apply Z.div_lt_upper_bound; lia. }
  rewrite wrap_small by lia.
  pose proof (Z.div_mod (y + 7) 8 ltac:(lia)).
  pose proof (Z.mod_pos_bound (y + 7) 8 ltac:(lia)). lia.
Qed.

Lemma to_signed_wrap x : - 2 ^ 63 ≤ x < 2 ^ 63 → to_signed (wrap x) = x.
Proof.
  intros Hx. unfold to_signed.
  rewrite (wrap_small (wrap x)) by apply wrap_range.
  destruct (Z.lt_ge_cases x 0) as [Hneg|Hpos].
  - assert (wrap x = x + 2 ^ 64) as ->.
    { unfold wrap. symmetry. apply Z.mod_unique with (-1); lia. }
    destruct (Z.ltb_spec (x + 2 ^ 64) (2 ^ 63)); lia.
  - rewrite wrap_small by lia.
    destruct (Z.ltb_spec x (2 ^ 63)); lia.
Qed.

Lemma tail_break_position b top newsz :
  0 ≤ b < 2 ^ 61 → 0 ≤ top < 2 ^ 61 → 0 ≤ newsz < 2 ^ 61 →
  b mod 8 = 0 → top mod 8 = 0 → newsz mod 8 = 0 →
  top + to_signed (align (wrap (wrap (newsz - wrap (top - b)) + META_SIZE)))
  = b + META_SIZE + newsz.
Proof.
  intros Hb Ht Hn Hb8 Ht8 Hn8. unfold META_SIZE.
  assert (wrap (wrap (newsz - wrap (top - b)) + 32)
          = wrap (newsz - top + b + 32)) as ->.
  { unfold wrap. rewrite Zplus_mod_idemp_l.
    replace (newsz - (top - b) mod 2 ^ 64 + 32)
      with (newsz + 32 - (top - b) mod 2 ^ 64) by lia.
    rewrite Zminus_mod_idemp_r. f_equal. lia. }
  assert ((newsz - top + b + 32) mod 8 = 0) as H8.
  { clear Hb Ht Hn. Z.div_mod_to_equations. lia. }
  rewrite align_fixed.
  - rewrite to_signed_wrap by lia. lia.
  - apply wrap_range.
  - rewrite wrap_mod8. exact H8.
Qed.

(** ** Runs that return *)

Lemma returns_bind {A B} (m : M A) (f : A → M B) s Q :
  returns m s (λ a s1, returns (f a) s1 Q) → returns (m ≫= f) s Q.
Proof.
  intros (a & s1 & Hm & b & s2 & Hf & HQ). exists b, s2.
  rewrite (bind_ok _ _ _ _ _ Hm). done.
Qed.

Lemma returns_ret {A} (a : A) s (Q : A → state → Prop) :
  Q a s → returns (mret a) s Q.
Proof. intros. exists a, s. done. Qed.

Lemma returns_load a s (Q : Z → state → Prop) :
  valid (os s) a = true → Q (peek s a) s → returns (load a) s Q.
Proof. intros Hv HQ. exists (peek s a), s. by rewrite load_ok. Qed.

Lemma returns_store a v s (Q : unit → state → Prop) :
  valid (os s) a = true → Q tt (with_mem (<[a := v]> (mem s)) s) →
  returns (store a v) s Q.
Proof. intros Hv HQ. eexists tt, _. by rewrite store_ok. Qed.

Lemma returns_set_last b s (Q : unit → state → Prop) :
  Q tt (with_last b s) → returns (set_last b) s Q.
Proof. intros HQ. eexists tt, _. done. Qed.

Ltac returns_load_step :=
  apply returns_bind, returns_load; [|cbv beta].
Ltac returns_store_step :=
  apply returns_bind, returns_store; [|cbv beta].

(** ** The directory as a null-terminated chain *)

Lemma chain_null s l : chain s NULL l → l = [].
Proof. inversion 1; done. Qed.

Lemma chain_det s b l1 : chain s b l1 → ∀ l2, chain s b l2 → l1 = l2.
Proof.
  induction 1 as [|b l1 Hb Hv Hc IH]; intros l2 H2.
  - by apply chain_null in H2.
  - inversion H2; subst; [done|]. f_equal. by apply IH.
Qed.

Lemma chain_suffix s l1 : ∀ b l x l2,
  chain s b l → l = l1 ++ x :: l2 → chain s x (x :: l2).
Proof.
  induction l1 as [|y l1 IH]; intros b l x l2 Hc ->; simpl in *.
  - inversion Hc; subst. done.
  - inversion Hc; subst. eapply IH; [eassumption|reflexivity].
Qed.

(** A chain that reaches [NULL] visits no block twice. *)
Lemma chain_NoDup s b l : chain s b l → NoDup l.
Proof.
  induction 1 as [|b l Hb Hv Hc IH]; constructor; [|done].
  intros (l1 & l2 & ->)%list_elem_of_split.
  pose proof (chain_suffix _ _ _ _ _ _ Hc eq_refl) as Hc2.
  pose proof (chain_det _ _ _ Hc2 _ (chain_cons _ _ _ Hb Hv Hc)) as Heq.
  apply (f_equal length) in Heq. simpl in Heq.
  rewrite length_app in Heq. simpl in Heq. lia.
Qed.

Lemma chain_stored s b l :
  chain s b l → (∃ k, mem s !! k = Some b) →
  ∀ x, x ∈ l → ∃ k, mem s !! k = Some x.
Proof.
  induction 1 as [|b l Hb Hv Hc IH]; intros Hk x Hx.
  - by apply elem_of_nil in Hx.
  - apply elem_of_cons in Hx as [->|Hx]; [done|].
    apply IH; [|done].
    inversion Hc as [Hnull|b' l' Hb' _ _ Hb'']; subst.
    + by apply elem_of_nil in Hx.
    + exists (f_next b). unfold peek in *.
      destruct (mem s !! f_next b); simpl in *; done.
Qed.

(** Distinct stored values need distinct cells. *)
Lemma stored_values_bound (l : list Z) : ∀ m : gmap Z Z,
  NoDup l → (∀ x, x ∈ l → ∃ k, m !! k = Some x) → (length l ≤ size m)%nat.
Proof.
  induction l as [|x l IH]; intros m Hnd Hst; simpl; [lia|].
  apply NoDup_cons in Hnd as [Hx Hnd].
  destruct (Hst x) as [k Hk]; [apply list_elem_of_here|].
  assert (length l ≤ size (delete k m))%nat as Hle.
  { apply IH; [done|]. intros y Hy.
    destruct (Hst y) as [k' Hk']; [by apply list_elem_of_further|].
    exists k'. rewrite lookup_delete_ne; [done|]. intros ->. congruence. }
  rewrite map_size_delete, Hk in Hle.
  assert (size m ≠ 0)%nat; [|simpl in Hle; lia].
  apply map_size_ne_0_lookup. eauto.
Qed.

(** The iterations [find_best_block] is given suffice for every directory
    that ends. *)
Lemma chain_fuel s l : chain s (global_base s) l → (length l < loop_fuel s)%nat.
Proof.
  intros Hc. unfold loop_fuel.
  inversion Hc as [|b l' Hb Hv Hc' Hb']; subst; simpl; [lia|].
  assert (length l' ≤ size (mem s))%nat; [|lia].
  apply stored_values_bound.
  - apply chain_NoDup in Hc. by apply NoDup_cons in Hc as [_ ?].
  - intros x Hx. inversion Hc' as [Hnull|b' l'' Hb'' _ _ Hb3]; subst.
    + by apply elem_of_nil in Hx.
    + eapply chain_stored; [exact Hc'| |done].
      exists (f_next (global_base s)). unfold peek in *.
      destruct (mem s !! f_next (global_base s)); simpl in *; done.
Qed.

Lemma chain_next_valid s b l :
  chain s b l → ∀ x, x ∈ l →
  x ≠ NULL ∧ hdr_valid (os s) x
  ∧ (peek s (f_next x) ≠ NULL → hdr_valid (os s) (peek s (f_next x))).
Proof.
  induction 1 as [|b l Hb Hv Hc IH]; intros x Hx.
  - by apply elem_of_nil in Hx.
  - apply elem_of_cons in Hx as [->|Hx]; [|by apply IH].
    split; [done|]. split; [done|].
    intros Hn. inversion Hc; subst; done.
Qed.

Lemma chain_head_nonnull s b l x : chain s b l → x ∈ l → b ≠ NULL.
Proof. destruct 1; intros Hx; [by apply elem_of_nil in Hx|done]. Qed.

(** A chain, built from the values memory holds. *)
Lemma chain_step s b n l :
  b ≠ NULL → hdr_valid (os s) b → peek s (f_next b) = n →
  chain s n l → chain s b (b :: l).
Proof. intros Hb Hv <- Hc. by constructor. Qed.

(** ** The best-fit scan *)

Lemma find_best_loop_scan s size b l :
  chain s b l → ∀ fuel bfs bfb,
  (length l < fuel)%nat →
  find_best_loop fuel size bfs bfb b s = Ok (scan s size l bfs bfb) s.
Proof.
  induction 1 as [|b l Hb (Hvsz & Hvst & Hvp & Hvn) Hc IH];
    intros fuel bfs bfb Hfuel; (destruct fuel as [|fuel]; [simpl in Hfuel; lia|]).
  - reflexivity.
  - cbn [find_best_loop scan].
    destruct (Z.eqb_spec b NULL) as [|_]; [done|].
    unfold get_status, get_size, get_next.
    rewrite bind_load_ok by done.
    assert (∀ p : Z * Z, (mret p : M (Z * Z)) ≫= (λ '(bfs', bfb'),
              load (f_next b) ≫= λ next, find_best_loop fuel size bfs' bfb' next)
            = λ s0, (load (f_next b) ≫= λ next,
                     find_best_loop fuel size p.1 p.2 next) s0) as Hret.
    { intros [??]. reflexivity. }
    simpl in Hfuel.
    destruct (peek s (f_status b) =? 0); cbn [andb].
    + rewrite (bind_run (load (f_size b) ≫= _)).
      rewrite bind_load_ok by done.
      destruct (size <=? peek s (f_size b)); cbn [andb].
      * rewrite bind_load_ok by done.
        destruct (peek s (f_size b) <? bfs).
        -- rewrite bind_load_ok, ret_run by done.
           rewrite bind_load_ok by done. apply IH. lia.
        -- rewrite ret_run. rewrite bind_load_ok by done. apply IH. lia.
      * rewrite ret_run. rewrite bind_load_ok by done. apply IH. lia.
    + rewrite Hret. rewrite bind_load_ok by done. apply IH. lia.
Qed.

(** [find_best_block] returns, and returns what the fold computes. *)
Lemma find_best_block_scan s size l :
  chain s (global_base s) l →
  find_best_block size s = Ok (scan s size l MMAP_THRESHOLD NULL) s.
Proof.
  intros Hc. unfold find_best_block, get_state. rewrite bind_run.
  apply find_best_loop_scan; [done|]. by apply chain_fuel.
Qed.

Section scan_spec.
Variables (s : state) (size : Z).

(** Either nothing below the bound fits and the candidate is kept, or the
    result is the first of the smallest fitting blocks. *)
Lemma scan_spec l : ∀ bfs bfb,
  let r := scan s size l bfs bfb in
  (r = bfb ∧ ∀ b, b ∈ l → fits s size b → bfs ≤ peek s (f_size b))
  ∨ (∃ l1 l2, l = l1 ++ r :: l2 ∧ fits s size r ∧ peek s (f_size r) < bfs
       ∧ (∀ b, b ∈ l1 → fits s size b → peek s (f_size r) < peek s (f_size b))
       ∧ (∀ b, b ∈ l2 → fits s size b → peek s (f_size r) ≤ peek s (f_size b))).
Proof.
  induction l as [|b l IH]; intros bfs bfb; cbn [scan].
  - left. split; [done|]. intros b Hb. by apply elem_of_nil in Hb.
  - destruct (Z.eqb_spec (peek s (f_status b)) 0) as [Hst|Hst]; cbn [andb].
    + destruct (Z.leb_spec size (peek s (f_size b))) as [Hsz|Hsz]; cbn [andb].
      * destruct (Z.ltb_spec (peek s (f_size b)) bfs) as [Hlt|Hge].
        -- right.
           destruct (IH (peek s (f_size b)) b)
             as [[-> Hno]|(l1 & l2 & Hl & Hf & Hlt' & H1 & H2)].
           ++ exists [], l. repeat split; try done.
              intros b' Hb'. by apply elem_of_nil in Hb'.
           ++ exists (b :: l1), l2. rewrite Hl at 1.
              repeat split; try done; try (apply Hf); [lia|].
              intros b' [->|Hb']%elem_of_cons Hfb'; [lia|by apply H1].
        -- destruct (IH bfs bfb)
             as [[-> Hno]|(l1 & l2 & Hl & Hf & Hlt' & H1 & H2)].
           ++ left. split; [done|].
              intros b' [->|Hb']%elem_of_cons Hfb'; [lia|by apply Hno].
           ++ right. exists (b :: l1), l2. rewrite Hl at 1.
              repeat split; try done; try (apply Hf).
              intros b' [->|Hb']%elem_of_cons Hfb'; [lia|by apply H1].
      * destruct (IH bfs bfb)
          as [[-> Hno]|(l1 & l2 & Hl & Hf & Hlt' & H1 & H2)].
        -- left. split; [done|].
           intros b' [->|Hb']%elem_of_cons [? ?]; [lia|by apply Hno].
        -- right. exists (b :: l1), l2. rewrite Hl at 1.
           repeat split; try done; try (apply Hf).
           intros b' [->|Hb']%elem_of_cons [? ?]; [lia|by apply H1].
    + destruct (IH bfs bfb)
        as [[-> Hno]|(l1 & l2 & Hl & Hf & Hlt' & H1 & H2)].
      * left. split; [done|].
        intros b' [->|Hb']%elem_of_cons [? ?]; [done|by apply Hno].
      * right. exists (b :: l1), l2. rewrite Hl at 1.
        repeat split; try done; try (apply Hf).
        intros b' [->|Hb']%elem_of_cons [? ?]; [done|by apply H1].
Qed.

End scan_spec.

(** ** Splitting a Free block *)

(** [try_split] returns the payload of the block it is given and leaves the
    operating system alone. *)
Lemma try_split_returns s b size :
  extent_ok s b →
  0 ≤ size ≤ peek s (f_size b) →
  (peek s (f_next b) ≠ NULL → valid (os s) (f_prev (peek s (f_next b))) = true) →
  returns (try_split b size) s (λ p s', p = payload b ∧ os s' = os s).
Proof.
  intros (Hb0 & Hend & Hext) Hsize Hnext. unfold META_SIZE in *.
  set (bsz := peek s (f_size b)) in *.
  assert (∀ (s' : state) a, os s' = os s → b ≤ a → a + 8 ≤ b + 32 + bsz →
            valid (os s') a = true) as Hv.
  { intros s' a -> ??. by apply Hext. }
  unfold f_next in Hnext. rewrite (wrap_small (b + 24)) in Hnext by lia.
  unfold try_split, get_size, get_next, set_size, set_status, set_next,
    set_prev, f_size, f_status, f_prev, f_next, META_SIZE.
  returns_load_step; [apply Hv; [done|lia|lia]|].
  change (peek s b) with bsz. rewrite (wrap_small (bsz - size)) by lia.
  destruct (Z.leb_spec (32 + 1) (bsz - size)) as [Hsplit|Hnosplit].
  - rewrite (wrap_small (b + size + 32)) by lia.
    rewrite !(wrap_small (b + 24)), !(wrap_small (b + 8)) by lia.
    rewrite !(wrap_small (b + size + 32 + _)) by lia.
    returns_store_step; [apply Hv; [done|lia|lia]|].
    returns_store_step; [apply Hv; [done|lia|lia]|].
    returns_load_step; [apply Hv; [done|lia|lia]|].
    rewrite !peek_store_ne by lia.
    returns_store_step; [apply Hv; [done|lia|lia]|].
    returns_store_step; [apply Hv; [done|lia|lia]|].
    returns_store_step; [apply Hv; [done|lia|lia]|].
    returns_store_step; [apply Hv; [done|lia|lia]|].
    returns_load_step; [apply Hv; [done|lia|lia]|].
    rewrite !peek_store_ne by lia.
    apply returns_bind.
    assert (∀ s1 Q, os s1 = os s →
              peek s1 (b + 24) = peek s (b + 24) →
              (∀ s2, os s2 = os s → Q tt s2) →
              returns (if peek s (b + 24) =? NULL then mret tt
                       else load (b + 24) ≫= λ bnext,
                            store (wrap (bnext + 16)) (b + size + 32))
                s1 Q) as Hfix.
    { intros s1 Q Hos Hpk HQ.
      destruct (Z.eqb_spec (peek s (b + 24)) NULL) as [|Hne].
      - apply returns_ret, HQ, Hos.
      - returns_load_step; [apply Hv; [done|lia|lia]|].
        rewrite Hpk. apply returns_store; [rewrite Hos; by apply Hnext|].
        apply HQ. done. }
    apply Hfix; [done| |].
    { rewrite !peek_store_ne by lia. done. }
    intros s2 Hos2.
    returns_store_step; [apply Hv; [done|lia|lia]|].
    returns_load_step; [apply Hv; [done|lia|lia]|].
    apply returns_bind.
    match goal with |- context [if ?c then _ else _] => destruct c end.
    + apply returns_set_last, returns_ret. done.
    + apply returns_ret, returns_ret. done.
  - rewrite (wrap_small (b + 8)) by lia.
    returns_store_step; [apply Hv; [done|lia|lia]|].
    apply returns_ret. done.
Qed.

(** ** Paths through [os_realloc] *)

Lemma coalesce_guarded_agrees block st :
  valid (os st) (f_next block) = true →
  peek st (f_next block) ≠ NULL →
  coalesce_guarded block st = coalesce block st.
Proof.
  intros Hv Hn. unfold coalesce_guarded, get_next. rewrite bind_load, Hv.
  destruct (Z.eqb_spec (peek st (f_next block)) NULL); [done|reflexivity].
Qed.


(** A block that is asked to shrink goes to [split_realloc]. *)
Lemma resize_smaller st ptr size :
  let block := header ptr in
  0 < ptr < 2 ^ 64 → 0 < size →
  valid (os st) (f_status block) = true →
  valid (os st) (f_size block) = true →
  peek st (f_status block) ≠ 0 →
  size < peek st (f_size block) →
  os_realloc ptr size st = split_realloc block ptr size st.
Proof.
  intros block Hptr Hsz Hvst Hvsz Hst Hlt.
  unfold os_realloc, os_realloc_with.
  destruct (Z.eqb_spec ptr NULL) as [E|_]; [unfold NULL in E; lia|].
  destruct (Z.eqb_spec size 0) as [|_]; [lia|].
  fold block. unfold get_status, get_size.
  rewrite bind_load_ok by done.
  destruct (Z.eqb_spec (peek st (f_status block)) 0) as [|_]; [done|].
  rewrite bind_load_ok by done.
  destruct (Z.eqb_spec size (peek st (f_size block))) as [|_]; [lia|].
  rewrite bind_load_ok by done.
  destruct (Z.ltb_spec size (peek st (f_size block))) as [_|]; [|lia].
  reflexivity.
Qed.

(** * The specification against the code *)

(** ** C1: no two adjacent Free entries *)

(** Releasing three allocated neighbours in any of the six orders leaves one
    Free block that spans them: 104 + 200 + 304 bytes and two headers. *)
Lemma release_three_any_order :
  result (three_in_a_row init) = Some (16908320, 16908456, 16908688)
  ∧ Forall
      (λ p : Z * Z * Z,
         result (observe (release3 p.1.1 p.1.2 p.2) (after three_in_a_row init))
         = Some (tt, [(16777216, 8, 1); (16908288, 672, 0); (16908992, 8, 1)],
                 16908992, 16909032, []))
      [(16908320, 16908456, 16908688); (16908320, 16908688, 16908456);
       (16908456, 16908320, 16908688); (16908456, 16908688, 16908320);
       (16908688, 16908320, 16908456); (16908688, 16908456, 16908320)].
Proof. split; [|repeat constructor]; vm_compute; reflexivity. Qed.

(** C1 (code defect).  Claimed: after every public operation no two
    adjacent directory entries are both Free, and in particular the
    shrink-with-split path of resize never leaves its new Free suffix next to
    a Free successor.  On the code: with the blocks [b] (4000 bytes,
    allocated) and [c] (104 bytes, Free) next to each other,
    [os_realloc (b, 16)] splits [b] in [split_realloc], and the new Free
    suffix of 3952 bytes at 16908336 ends exactly where the Free block [c]
    at 16912320 begins: two adjacent Free entries, where the directory had
    none before the call. *)
Theorem shrink_split_leaves_adjacent_free :
  result (heap_with_free_successor init) = Some (16908320, 16912352)
  ∧ directory (after heap_with_free_successor init)
    = [(16777216, 8, 1); (16908288, 4000, 1); (16912320, 104, 0);
       (16912456, 104, 1)]
  ∧ adjacent_free (directory (after heap_with_free_successor init)) = false
  ∧ result (observe (os_realloc 16908320 16) (after heap_with_free_successor init))
    = Some (16908320,
            [(16777216, 8, 1); (16908288, 16, 1); (16908336, 3952, 0);
             (16912320, 104, 0); (16912456, 104, 1)],
            16912456, 16912592, [])
  ∧ adjacent_free
      (directory (after (os_realloc 16908320 16)
                        (after heap_with_free_successor init))) = true.
Proof. repeat split; vm_compute; reflexivity. Qed.

(** ** C2: best fit *)

(** The search starts from the bound [MMAP_THRESHOLD]: a Free block of
    200032 bytes is not found for a request of 8 bytes, and the heap grows
    (the break moves from 17008320 to 17008360). *)
Lemma large_free_block_is_skipped :
  directory (after one_large_free_block init) = [(16777216, 200032, 0)]
  ∧ brk (os (after one_large_free_block init)) = 17008320
  ∧ result (find_best_block 8 (after one_large_free_block init)) = Some NULL
  ∧ result (observe (os_malloc 8) (after one_large_free_block init))
    = Some (17008352, [(16777216, 200032, 0); (17008320, 8, 1)],
            17008320, 17008360, []).
Proof. repeat split; vm_compute; reflexivity. Qed.

(** C2 (counterexample).  Claimed: releasing a block and then allocating a
    size not exceeding its freed size reuses that block.  Here [d] (payload
    16908432, 104 bytes) is released while a Free block of 40 bytes lies
    before it; the request for 40 bytes is then served from that smaller
    block (payload 16908320), and the block of [d] stays Free. *)
Lemma release_then_allocate_takes_other_block :
  result (small_free_and_large_allocated init) = Some (16908320, 16908432)
  ∧ entry (after small_free_and_large_allocated init) (header 16908432)
    = (16908400, 104, 1)
  ∧ result (observe (os_free 16908432;; os_malloc 40)
                    (after small_free_and_large_allocated init))
    = Some (16908320,
            [(16777216, 8, 1); (16908288, 40, 1); (16908360, 8, 1);
             (16908400, 104, 0); (16908536, 8, 1)],
            16908536, 16908576, [])
  ∧ 16908320 ≠ 16908432.
Proof. repeat split; try (vm_compute; reflexivity). lia. Qed.

(** The bytes of a block are not always mapped.  [preallocate] raises the
    break by 128 KiB whatever the request, so a first block of 131064 bytes
    ends 24 bytes beyond the break.  Released, it is the one eligible block
    for a request of 131016 bytes, and [try_split] faults at the break,
    16908288, on the header it writes for the 16 bytes left over. *)
Lemma oversize_first_block_faults :
  result (observe (p ← os_malloc 131064; os_free p) init)
  = Some (tt, [(16777216, 131064, 0)], 16777216, 16908288, [])
  ∧ result (find_best_block 131016 (after (p ← os_malloc 131064; os_free p) init))
    = Some 16777216
  ∧ valid (os (after (p ← os_malloc 131064; os_free p) init)) 16908288 = false
  ∧ os_malloc 131016 (after (p ← os_malloc 131064; os_free p) init)
    = Segv 16908288.
Proof. repeat split; vm_compute; reflexivity. Qed.

(** C2 (amended).  On a directory that ends, [find_best_block] returns.
    With [size] the rounded request, call a block eligible when it is Free
    and its size is at least [size] and less than 128 KiB.  The result [r]
    is [NULL] when no block of the directory is eligible; otherwise [r] is
    an eligible block, strictly smaller than every eligible block before it
    in the directory and no larger than any eligible block after it (the
    smallest, and the first in address order among equals).  A non-null [r]
    whose header and payload bytes all lie in mapped memory ([extent_ok]) is
    what [os_malloc] hands out, through [try_split], with no call to the
    operating system: the break does not move. *)
Theorem best_fit_below_threshold st l n :
  let size := align n in
  let eligible b := fits st size b ∧ peek st (f_size b) < MMAP_THRESHOLD in
  chain st (global_base st) l →
  ∃ r, find_best_block size st = Ok r st
       ∧ (r = NULL → ∀ b, b ∈ l → ¬ eligible b)
       ∧ (r ≠ NULL →
          (∃ l1 l2, l = l1 ++ r :: l2 ∧ eligible r
             ∧ (∀ b, b ∈ l1 → eligible b →
                     peek st (f_size r) < peek st (f_size b))
             ∧ (∀ b, b ∈ l2 → eligible b →
                     peek st (f_size r) ≤ peek st (f_size b)))
          ∧ (0 < n → extent_ok st r →
             ∃ st', os_malloc n st = Ok (payload r) st' ∧ os st' = os st)).
Proof.
  intros size eligible Hc.
  pose proof (find_best_block_scan st size l Hc) as Hfind.
  exists (scan st size l MMAP_THRESHOLD NULL). split; [done|].
  destruct (scan_spec st size l MMAP_THRESHOLD NULL)
    as [[Hr Hno]|(l1 & l2 & Hl & Hf & Hlt & H1 & H2)].
  - split; [|done].
    intros _ b Hb [Hfb Hth]. specialize (Hno b Hb Hfb). lia.
  - set (r := scan st size l MMAP_THRESHOLD NULL) in *.
    assert (r ∈ l) as Hrl.
    { rewrite Hl. apply elem_of_app. right. apply list_elem_of_here. }
    destruct (chain_next_valid _ _ _ Hc r Hrl) as (Hrn & Hrv & Hnv).
    split; [done|]. intros _. split.
    + exists l1, l2. split; [done|]. split; [done|]. split.
      * intros b Hb [Hfb _]. by apply H1.
      * intros b Hb [Hfb _]. by apply H2.
    + intros Hn Hext. destruct Hf as [Hf1 Hf2].
      pose proof (align_range n) as Har. fold size in Har.
      destruct (try_split_returns st r size Hext ltac:(lia))
        as (p & st' & Hrun & Hp & Hos).
      { intros Hnn. apply Hnv in Hnn. apply Hnn. }
      exists st'. split; [|done].
      unfold os_malloc. destruct (Z.leb_spec n 0) as [|_]; [lia|].
      fold size. destruct (Z.ltb_spec size MMAP_THRESHOLD) as [_|]; [|lia].
      unfold get_global_base. rewrite bind_run. cbv beta iota.
      assert (global_base st ≠ NULL) as Hgb.
      { exact (chain_head_nonnull _ _ _ _ Hc Hrl). }
      destruct (Z.eqb_spec (global_base st) NULL) as [|_]; [done|].
      rewrite (bind_ok _ _ _ _ _ Hfind). fold r.
      destruct (Z.eqb_spec r NULL) as [|_]; [done|]. rewrite <- Hp. exact Hrun.
Qed.

(** ** C3: growing a mapped block *)

(** [request_mmap] leaves the [next] field of its block at the zero of the
    fresh mapping, so every mapped block is without successor for
    [resize_without_successor]. *)
Lemma request_mmap_next_null size s p s' :
  0 ≤ size → size + META_SIZE < 2 ^ 64 → 0 < page_size (os s) →
  0 ≤ mmap_next (os s) → mmap_limit (os s) < 2 ^ 64 →
  request_mmap size s = Ok p s' →
  p = payload (mmap_next (os s))
  ∧ peek s' (f_size (mmap_next (os s))) = size
  ∧ peek s' (f_status (mmap_next (os s))) = 2
  ∧ peek s' (f_next (mmap_next (os s))) = NULL.
Proof.
  intros Hsize Hov Hps Ha Hlim. unfold request_mmap, META_SIZE in *.
  rewrite (wrap_small (size + 32)) by lia.
  intros (a & s1 & Hm & H)%bind_inv. revert Hm H. unfold mmap.
  set (a0 := mmap_next (os s)) in *.
  set (e := a0 + page_up (os s) (size + 32)).
  pose proof (page_up_ge (os s) (size + 32) Hps) as Hup.
  assert (a0 + (size + 32) ≤ e) as He' by (unfold e; lia).
  destruct ((0 <? size + 32) && (e <=? mmap_limit (os s))) eqn:Hok.
  2:{ intros [= <- <-]. discriminate. }
  apply andb_prop in Hok as [_ He%Z.leb_le].
  intros [= <- <-].
  destruct (Z.eqb_spec a0 MAP_FAILED) as [E|_].
  { unfold MAP_FAILED in E. lia. }
  rewrite bind_run. unfold DIE. cbv beta iota.
  unfold set_size, set_status, f_size, f_status, f_next.
  rewrite (wrap_small (a0 + 8)), (wrap_small (a0 + 24)) by lia.
  intros (u1 & s2 & (Hv1 & ->)%store_inv & H)%bind_inv.
  apply bind_inv in H as (u2 & s3 & (Hv2 & ->)%store_inv & [= <- <-]).
  split; [reflexivity|]. split; [|split].
  - rewrite peek_insert_ne by lia. apply peek_insert_eq.
  - apply peek_insert_eq.
  - rewrite !peek_insert_ne by lia. apply peek_filter_inside. lia.
Qed.

(** C3 (code defect).  Claimed: resize of a mapped block to a larger size
    relocates and never extends the heap for it.  On the code: [request_mmap]
    leaves [next] at the zero the fresh mapping holds, so [os_realloc] takes
    the block for the directory tail, makes it [last] and runs
    [expand_last]: [sbrk] is asked to move the break to the end of the
    mapped block.  When the OS refuses, the process dies with "sbrk failed";
    when it grants the move, the same pointer comes back, the size field
    says 300000 although the mapping still has 200704 bytes, the block is
    re-marked 1 (heap allocated) and the old mapping is never released. *)
Theorem mapped_grow_takes_tail_path :
  result (os_malloc 200000 init) = Some 1099511627808
  ∧ entry (after (os_malloc 200000) init) 1099511627776
    = (1099511627776, 200000, 2)
  ∧ os_realloc 1099511627808 300000 (after (os_malloc 200000) init)
    = Fatal "sbrk failed"
  ∧ result (observe (os_realloc 1099511627808 300000)
                    (after (os_malloc 200000) init_roomy))
    = Some (1099511627808, [], 1099511627776, 1099511927808,
            [(1099511627776, 1099511828480)])
  ∧ entry (after (os_realloc 1099511627808 300000)
                 (after (os_malloc 200000) init_roomy)) 1099511627776
    = (1099511627776, 300000, 1).
Proof. repeat split; vm_compute; reflexivity. Qed.

(** ** C4: failures of the OS primitives *)

(** Every other call of an OS primitive is followed by [DIE]. *)
Lemma preallocate_fatal size s :
  sbrk MMAP_THRESHOLD s = Ok MAP_FAILED s →
  preallocate size s = Fatal "Preallocation failed".
Proof.
  intros H. unfold preallocate. rewrite (bind_ok _ _ _ _ _ H). reflexivity.
Qed.

Lemma create_new_block_fatal size s :
  sbrk (wrap (size + META_SIZE)) s = Ok MAP_FAILED s →
  create_new_block size s = Fatal "sbrk failed".
Proof.
  intros H. unfold create_new_block. rewrite (bind_ok _ _ _ _ _ H). reflexivity.
Qed.

Lemma expand_last_fatal size s :
  let inc := align (wrap (wrap (size - wrap (brk (os s) - last s)) + META_SIZE)) in
  sbrk inc s = Ok MAP_FAILED s →
  expand_last size s = Fatal "sbrk failed".
Proof.
  intros inc H. unfold expand_last.
  rewrite (bind_ok _ _ _ _ _ (sbrk_zero _)), bind_get_last.
  fold inc. rewrite (bind_ok _ _ _ _ _ H). reflexivity.
Qed.

Lemma request_mmap_fatal size s :
  mmap (wrap (size + META_SIZE)) s = Ok MAP_FAILED s →
  request_mmap size s = Fatal "mmap failed".
Proof.
  intros H. unfold request_mmap. rewrite (bind_ok _ _ _ _ _ H). reflexivity.
Qed.

Lemma os_free_munmap_fatal ptr s :
  let block := header ptr in
  ptr ≠ NULL →
  valid (os s) (f_status block) = true →
  valid (os s) (f_size block) = true →
  peek s (f_status block) = 2 →
  munmap block (wrap (peek s (f_size block) + META_SIZE)) s = Ok (-1) s →
  os_free ptr s = Fatal "munmap failed!".
Proof.
  intros block Hp Hvst Hvsz Hst Hm. unfold os_free.
  destruct (Z.eqb_spec ptr NULL) as [|_]; [done|]. fold block.
  unfold get_status, get_size.
  rewrite bind_load_ok, Hst by done. change (2 =? 0) with false. cbv iota.
  rewrite bind_load_ok, Hst by done. change (2 =? 1) with false. cbv iota.
  rewrite bind_load_ok, Hst by done. change (2 =? 2) with true. cbv iota.
  rewrite bind_load_ok by done.
  rewrite (bind_ok _ _ _ _ _ Hm). reflexivity.
Qed.

(** The one call that is not: [os_calloc] goes on after a failed [mmap] and
    writes through [MAP_FAILED]. *)
Lemma os_calloc_after_failed_mmap nmemb size s :
  let total := align (wrap (nmemb * size)) in
  nmemb ≠ 0 → size ≠ 0 → page_size (os s) ≠ -1 →
  to_uint (page_size (os s)) < wrap (total + META_SIZE) →
  mmap (wrap (total + META_SIZE)) s = Ok MAP_FAILED s →
  valid (os s) MAP_FAILED = false →
  os_calloc nmemb size s = Segv MAP_FAILED.
Proof.
  intros total Hn Hs Hps Hbig Hm Hv. unfold os_calloc.
  destruct (Z.eqb_spec size 0) as [|_]; [done|].
  destruct (Z.eqb_spec nmemb 0) as [|_]; [done|].
  cbv [orb]. unfold getpagesize at 1. rewrite bind_run. cbv beta iota.
  destruct (Z.eqb_spec (page_size (os s)) (-1)) as [|_]; [done|].
  unfold DIE. rewrite bind_run. cbv beta iota. fold total.
  destruct (Z.ltb_spec (to_uint (page_size (os s))) (wrap (total + META_SIZE)))
    as [_|]; [|lia].
  rewrite (bind_ok _ _ _ _ _ Hm). unfold set_size, f_size.
  rewrite bind_run. unfold store. rewrite Hv. reflexivity.
Qed.

(** C4 (code defect).  Claimed: every failure of an OS primitive is fatal,
    on every call site, the mapping path of zeroedAllocate included.  On the
    code: when the OS has no room for a mapping, [os_malloc] dies in
    [request_mmap] with "mmap failed", but [os_calloc] does not test what its
    own [mmap] returned: it goes on and writes [block->size] through
    [MAP_FAILED], which is an access to unmapped memory and not the
    diagnostic-and-exit of [DIE]. *)
Theorem calloc_mmap_failure_not_fatal :
  os_malloc 200000 init_nomap = Fatal "mmap failed"
  ∧ os_calloc 1 8192 init_nomap = Segv MAP_FAILED
  ∧ result (os_calloc 1 8192 init) = Some 1099511627808.
Proof. repeat split; vm_compute; reflexivity. Qed.

(** ** C5: releasing twice *)

(** The first release of a heap block whose neighbours are absent or
    allocated returns, and writes the status Free and nothing else. *)
Lemma os_free_between_allocated st ptr :
  let block := header ptr in
  let prev := peek st (f_prev block) in
  let next := peek st (f_next block) in
  ptr ≠ NULL →
  hdr_valid (os st) block →
  peek st (f_status block) = 1 →
  (prev = NULL ∨ valid (os st) (f_status prev) = true ∧ peek st (f_status prev) ≠ 0) →
  (next = NULL ∨ valid (os st) (f_status next) = true ∧ peek st (f_status next) ≠ 0) →
  os_free ptr st = Ok tt (with_mem (<[f_status block := 0]> (mem st)) st).
Proof.
  intros block prev next Hptr (Hvsz & Hvst & Hvp & Hvn) Hst Hprev Hnext.
  unfold os_free. destruct (Z.eqb_spec ptr NULL) as [|_]; [done|]. fold block.
  unfold get_status, get_prev, get_next.
  rewrite bind_load_ok, Hst by done. change (1 =? 0) with false. cbv iota.
  rewrite bind_load_ok, Hst by done. change (1 =? 1) with true. cbv iota.
  rewrite bind_load_ok by done. rewrite bind_load_ok by done.
  fold prev next.
  assert ((if negb (prev =? NULL)
           then load (f_status prev) ≫= λ pst,
                if pst =? 0
                then (psz ← get_size prev; bsz ← get_size block;
                      set_size prev (wrap (psz + wrap (bsz + META_SIZE)));;
                      set_next prev next;;
                      (if negb (next =? NULL) then set_prev next prev
                       else mret tt);;
                      l ← get_last;
                      (if l =? block then set_last prev else mret tt);;
                      mret prev)
                else mret block
           else mret block) st = Ok block st) as Hp.
  { destruct (Z.eqb_spec prev NULL) as [|Hne]; [reflexivity|]. cbn [negb].
    destruct Hprev as [|[Hv Hs]]; [done|].
    rewrite bind_load_ok by done.
    destruct (Z.eqb_spec (peek st (f_status prev)) 0); [done|reflexivity]. }
  rewrite (bind_ok _ _ _ _ _ Hp).
  rewrite (bind_ok _ _ _ tt st).
  - unfold set_status. apply store_ok. done.
  - destruct (Z.eqb_spec next NULL) as [|Hne]; [reflexivity|]. cbn [negb].
    destruct Hnext as [|[Hv Hs]]; [done|].
    rewrite bind_load_ok by done.
    destruct (Z.eqb_spec (peek st (f_status next)) 0); [done|reflexivity].
Qed.

(** A block merged into its Free predecessor keeps the status 1 in its old
    header, so a second release of it merges it once more: the predecessor
    grows from 240 to 376 bytes. *)
Lemma second_release_after_merge_changes_directory :
  result (free_predecessor init) = Some (16908320, 16908456)
  ∧ directory (after free_predecessor init)
    = [(16777216, 8, 1); (16908288, 104, 0); (16908424, 104, 1);
       (16908560, 8, 1)]
  ∧ directory (after (os_free 16908456) (after free_predecessor init))
    = [(16777216, 8, 1); (16908288, 240, 0); (16908560, 8, 1)]
  ∧ directory (after (os_free 16908456;; os_free 16908456)
                     (after free_predecessor init))
    = [(16777216, 8, 1); (16908288, 376, 0); (16908560, 8, 1)].
Proof. repeat split; vm_compute; reflexivity. Qed.

(** C5 (counterexample).  Claimed: release (p); release (p) is safe for
    every previously allocated [p], mapped ones included.  For a mapped block
    the first release unmaps the header together with the payload, and the
    second release starts by reading [block->status] from that unmapped
    address. *)
Lemma second_release_of_mapped_faults :
  result (os_malloc 200000 init) = Some 1099511627808
  ∧ maps (os (after (os_malloc 200000) init))
    = [(1099511627776, 1099511828480)]
  ∧ maps (os (after (os_free 1099511627808) (after (os_malloc 200000) init)))
    = []
  ∧ (os_free 1099511627808;; os_free 1099511627808)
      (after (os_malloc 200000) init)
    = Segv 1099511627784.
Proof. repeat split; vm_compute; reflexivity. Qed.

(** C5 (amended).  For a heap-backed allocated block whose predecessor is
    absent or not Free, once the first release has returned, the second
    release returns as well and leaves the whole state as it is: the block's
    own header carries the status Free. *)
Theorem release_twice_heap_block st ptr st1 :
  let block := header ptr in
  let prev := peek st (f_prev block) in
  0 < ptr < 2 ^ 64 →
  peek st (f_status block) = 1 →
  (prev = NULL ∨ peek st (f_status prev) ≠ 0) →
  os_free ptr st = Ok tt st1 →
  os_free ptr st1 = Ok tt st1 ∧ peek st1 (f_status block) = 0.
Proof.
  intros block prev Hptr Hst Hprev Hfree.
  assert ((ptr =? NULL) = false) as Hnull.
  { apply Z.eqb_neq. unfold NULL. lia. }
  assert (valid (os st1) (f_status block) = true
          ∧ peek st1 (f_status block) = 0) as [Hv H0].
  { revert Hfree. unfold os_free. rewrite Hnull. fold block.
    unfold get_status, get_prev, get_next.
    intros (Hv & H)%bind_load_inv. revert H. rewrite Hst.
    change (1 =? 0) with false. cbv iota.
    rewrite bind_load_ok, Hst by done. change (1 =? 1) with true. cbv iota.
    intros (_ & H)%bind_load_inv. fold prev in H.
    apply bind_load_inv in H as (_ & H).
    assert (∃ m : M unit, (m;; store (f_status block) 0) st = Ok tt st1)
      as (m & (u & s' & _ & Hs)%bind_inv).
    { destruct (Z.eqb_spec prev NULL) as [E|E]; simpl negb in H; cbv iota in H.
      - rewrite bind_ret in H. eauto.
      - apply bind_inv in H as (b & s1 & H1 & H2).
        apply bind_load_inv in H1 as (_ & H1).
        destruct Hprev as [|Hp]; [done|].
        apply Z.eqb_neq in Hp. rewrite Hp in H1.
        injection H1 as <- <-. eauto. }
    apply store_inv in Hs as (Hv' & ->). simpl. split; [done|].
    apply peek_store_eq. }
  split; [|done].
  unfold os_free. rewrite Hnull. fold block. unfold get_status.
  rewrite bind_load_ok, H0 by done. reflexivity.
Qed.

(** ** C6: shrinking a mapped block *)

(** C6.  The claim: resize of a mapped block to a smaller size always
    relocates, and never merely adjusts the size field.  The code:
    [split_realloc] tests [(int) remaining_size <= 0], its early return for
    a heap block without room for another header, before it looks at the
    status.  A mapped block of 131072 bytes resized to 131064 keeps its
    pointer and its mapping; only the size field changes. *)
Lemma mapped_shrink_in_place :
  result (os_malloc 131072 init) = Some 1099511627808
  ∧ entry (after (os_malloc 131072) init) 1099511627776
    = (1099511627776, 131072, 2)
  ∧ result (observe (os_realloc 1099511627808 131064)
                    (after (os_malloc 131072) init))
    = Some (1099511627808, [], NULL, 16777216,
            [(1099511627776, 1099511762944)])
  ∧ entry (after (os_realloc 1099511627808 131064)
                 (after (os_malloc 131072) init)) 1099511627776
    = (1099511627776, 131064, 2).
Proof. repeat split; vm_compute; reflexivity. Qed.

(** What the in-place shrink of a mapped block costs.  [os_free] takes the
    length to unmap from the size field.  A block of 135144 bytes is a
    mapping of 34 pages; resized to 135136 it stays in place, and releasing
    it then unmaps 33 pages: the last page stays mapped.  The [int] reading
    of the leftover is not positive either when the leftover is 2 GiB: a
    block of [2 ^ 31 + 64] bytes resized to 8 stays in place, and releasing
    it unmaps one page of its mapping. *)
Lemma mapped_shrink_leaks_mapping :
  result (observe (os_malloc 135144) init)
  = Some (1099511627808, [], NULL, 16777216,
          [(1099511627776, 1099511767040)])
  ∧ result (observe (p ← os_realloc 1099511627808 135136; os_free p;; mret p)
                    (after (os_malloc 135144) init))
    = Some (1099511627808, [], NULL, 16777216,
            [(1099511762944, 1099511767040)])
  ∧ result (observe (os_malloc (2 ^ 31 + 64)) init)
    = Some (1099511627808, [], NULL, 16777216,
            [(1099511627776, 1101659115520)])
  ∧ result (observe (p ← os_realloc 1099511627808 8; os_free p;; mret p)
                    (after (os_malloc (2 ^ 31 + 64)) init))
    = Some (1099511627808, [], NULL, 16777216,
            [(1099511631872, 1101659115520)]).
Proof. repeat split; vm_compute; reflexivity. Qed.

(** The shrink path on a mapped block in general.  [split_realloc] reads
    the leftover, the current size minus the rounded new size minus the
    header, as an [int].  Only when that reading is positive does it reach
    the test for status 2 and relocate: [os_malloc] of the rounded size,
    [memcpy] of that many bytes, [os_free] of the old pointer, and the new
    pointer is returned.  When it is not, the early return is taken: the
    same pointer is returned and only the size field is set to the rounded
    size. *)
Theorem resize_mapped_smaller st ptr size :
  let block := header ptr in
  let leftover :=
    to_int (wrap (wrap (peek st (f_size block) - align size) - META_SIZE)) in
  0 < ptr < 2 ^ 64 → 0 < size →
  valid (os st) (f_status block) = true →
  valid (os st) (f_size block) = true →
  peek st (f_status block) = 2 →
  size < peek st (f_size block) →
  (0 < leftover →
     os_realloc ptr size st = relocate_mapped ptr (align size) st)
  ∧ (leftover ≤ 0 →
     os_realloc ptr size st =
     Ok ptr (with_mem (<[f_size block := align size]> (mem st)) st)).
Proof.
  intros block leftover Hptr Hsz Hvst Hvsz Hst Hlt.
  rewrite resize_smaller by (fold block; first [done|lia]).
  fold block. unfold split_realloc, get_size, get_status, set_size.
  rewrite bind_load_ok by done. fold leftover.
  split; intros Hl.
  - destruct (Z.leb_spec leftover 0) as [|_]; [lia|].
    rewrite bind_load_ok, Hst by done. reflexivity.
  - destruct (Z.leb_spec leftover 0) as [_|]; [|lia].
    rewrite bind_store_ok by done. rewrite ret_run.
    unfold block. rewrite payload_header by lia. reflexivity.
Qed.

(** ** C7: a new size that rounds to the current size *)

(** C7.  For a block that is not Free and a new size (not 0, and small
    enough for the rounding not to wrap) whose rounding up to a multiple of 8
    is the block's current size, [os_realloc] returns the same pointer, and
    the state is unchanged. *)
Theorem resize_to_rounded_size st ptr size :
  0 < ptr < 2 ^ 64 → 0 < size → size + 7 < 2 ^ 64 →
  valid (os st) (f_status (header ptr)) = true →
  valid (os st) (f_size (header ptr)) = true →
  peek st (f_status (header ptr)) ≠ 0 →
  align size = peek st (f_size (header ptr)) →
  os_realloc ptr size st = Ok ptr st.
Proof.
  intros Hptr Hsz Hov Hvst Hvsz Hst Hal.
  pose proof (align_bounds size ltac:(lia) Hov) as Hb.
  unfold os_realloc, os_realloc_with, NULL.
  destruct (Z.eqb_spec ptr 0) as [|_]; [lia|].
  destruct (Z.eqb_spec size 0) as [|_]; [lia|].
  unfold get_status, get_size.
  rewrite bind_load_ok by done.
  destruct (Z.eqb_spec (peek st (f_status (header ptr))) 0) as [|_]; [done|].
  rewrite bind_load_ok by done.
  destruct (Z.eqb_spec size (peek st (f_size (header ptr)))) as [|Hne]; [done|].
  rewrite bind_load_ok by done.
  destruct (Z.ltb_spec size (peek st (f_size (header ptr)))) as [_|]; [|lia].
  unfold split_realloc, get_size, set_size.
  rewrite bind_load_ok by done.
  rewrite Hal, Z.sub_diag.
  change (to_int (wrap (wrap 0 - META_SIZE)) <=? 0) with true. cbv iota.
  rewrite (bind_ok _ _ _ tt st).
  - rewrite ret_run, payload_header by lia. reflexivity.
  - apply store_same; [done|lia].
Qed.

(** ** C8: growing the directory tail *)




(** ** C9: the threshold of zeroedAllocate *)

(** C9.  With both factors nonzero and [total] the rounded product,
    [os_calloc] compares [total] plus the header with the page size.  Above
    it, the request is served by a fresh mapping of its own whenever the OS
    grants one: the pointer is the payload of that mapping, the header says
    [total] and status 2, the payload reads as zero, and neither
    [global_base], [last], the break nor any cell outside the new mapping has
    changed.  Otherwise [os_calloc] is [os_malloc] followed by [memset]:
    whatever non-null payload [os_malloc] returns is zero-filled, and nothing
    else is touched. *)
Theorem calloc_page_threshold st nmemb size :
  let total := align (wrap (nmemb * size)) in
  let a := mmap_next (os st) in
  let e := a + page_up (os st) (total + META_SIZE) in
  nmemb ≠ 0 → size ≠ 0 →
  32 ≤ page_size (os st) < 2 ^ 32 →
  (page_size (os st) < wrap (total + META_SIZE) →
   NULL_PAGE ≤ a → e ≤ mmap_limit (os st) → mmap_limit (os st) < 2 ^ 64 →
   ∃ st', os_calloc nmemb size st = Ok (a + META_SIZE) st'
          ∧ peek st' (f_size a) = total
          ∧ peek st' (f_status a) = 2
          ∧ (∀ k, 0 ≤ k < total / 8 → peek st' (a + META_SIZE + 8 * k) = 0)
          ∧ (∀ x, ¬ (a ≤ x < e) → peek st' x = peek st x)
          ∧ global_base st' = global_base st
          ∧ last st' = last st
          ∧ brk (os st') = brk (os st)
          ∧ maps (os st') = (a, e) :: maps (os st))
  ∧ (wrap (total + META_SIZE) ≤ page_size (os st) →
     os_calloc nmemb size st = calloc_via_malloc total st
     ∧ ∀ ptr st1,
         os_malloc total st = Ok ptr st1 →
         ptr ≠ NULL → 0 ≤ ptr → ptr + total < 2 ^ 64 →
         (∀ k, 0 ≤ k < total / 8 → valid (os st1) (ptr + 8 * k) = true) →
         ∃ st', os_calloc nmemb size st = Ok ptr st'
                ∧ (∀ k, 0 ≤ k < total / 8 → peek st' (ptr + 8 * k) = 0)
                ∧ (∀ x, x < ptr ∨ ptr + total ≤ x → peek st' x = peek st1 x)
                ∧ os st' = os st1
                ∧ global_base st' = global_base st1
                ∧ last st' = last st1).
Proof.
  intros total a e Hn Hs Hps.
  assert (to_uint (page_size (os st)) = page_size (os st)) as Huint.
  { unfold to_uint. apply Z.mod_small. lia. }
  pose proof (align_range (wrap (nmemb * size))) as Htot. fold total in Htot.
  assert (total mod 8 = 0) as Hmod by apply align_mod8.
  assert (
    os_calloc nmemb size st =
    (if page_size (os st) <? wrap (total + META_SIZE)
     then ptr ← mmap (wrap (total + META_SIZE));
          set_size ptr total;; set_status ptr 2;;
          memset (wrap (ptr + META_SIZE)) 0 total;; mret (payload ptr)
     else calloc_via_malloc total) st) as Hcalloc.
  { unfold os_calloc.
    destruct (Z.eqb_spec size 0) as [|_]; [done|].
    destruct (Z.eqb_spec nmemb 0) as [|_]; [done|].
    cbv [orb]. unfold getpagesize at 1. rewrite bind_run. cbv beta iota.
    destruct (Z.eqb_spec (page_size (os st)) (-1)) as [|_]; [lia|].
    unfold DIE. rewrite bind_run. cbv beta iota.
    fold total. rewrite Huint. reflexivity. }
  rewrite Hcalloc. clear Hcalloc.
  split.
  - intros Hbig Hnull Hlim Hlim64.
    destruct (Z.ltb_spec (page_size (os st)) (wrap (total + META_SIZE)))
      as [_|]; [|lia].
    assert (wrap (total + META_SIZE) = total + META_SIZE) as Hlen.
    { unfold wrap, META_SIZE in *.
      destruct (Z.lt_ge_cases (total + 32) (2 ^ 64)) as [Hlt|Hge].
      - apply Z.mod_small. lia.
      - replace ((total + 32) mod 2 ^ 64) with (total + 32 - 2 ^ 64) in Hbig; [lia|].
        apply Z.mod_unique with 1; lia. }
    pose proof (page_up_ge (os st) (total + META_SIZE) ltac:(lia)) as Hup.
    unfold META_SIZE, NULL_PAGE in *.
    assert (a + (total + 32) ≤ e) as He by (unfold e; lia).
    cbv iota. rewrite Hlen. unfold mmap at 1. rewrite bind_run. fold a e.
    destruct (Z.ltb_spec 0 (total + 32)) as [_|]; [|lia].
    destruct (Z.leb_spec e (mmap_limit (os st))) as [_|]; [|lia].
    cbv [andb]. cbv beta iota.
    set (o1 := mk_os _ _ _ _ _ _ _).
    set (s1 := mk_state _ _ _ o1).
    assert (∀ x, a ≤ x → x + 8 ≤ e → valid o1 x = true) as Hvalid.
    { intros x Hlo Hhi.
      apply (valid_in_map o1 (a, e)); unfold NULL_PAGE; simpl; try lia.
      apply list_elem_of_here. }
    unfold set_size, set_status, f_size, f_status.
    rewrite (wrap_small (a + 8)), (wrap_small (a + 32)) by lia.
    rewrite bind_store_ok by (apply Hvalid; lia).
    rewrite bind_store_ok by (apply Hvalid; lia).
    set (s2 := with_mem _ (with_mem _ s1)).
    destruct (memset_zero_ok (a + 32) total s2)
      as (s' & Hrun & Hos & Hgb & Hl & Hin & Hout); try lia.
    { intros k Hk. apply Hvalid; [lia|].
      pose proof (Z.div_mod total 8 ltac:(lia)). lia. }
    rewrite (bind_ok _ _ _ _ _ Hrun).
    rewrite ret_run. unfold payload, META_SIZE. rewrite wrap_small by lia.
    exists s'. split; [done|].
    repeat split.
    + rewrite Hout by lia. unfold s2.
      rewrite peek_store_ne by lia. apply peek_store_eq.
    + rewrite Hout by lia. unfold s2. apply peek_store_eq.
    + intros k Hk. apply Hin. done.
    + intros x Hx. rewrite Hout by lia. unfold s2.
      rewrite !peek_store_ne by lia. unfold s1.
      rewrite peek_filter_outside by done. done.
    + rewrite Hgb. reflexivity.
    + rewrite Hl. reflexivity.
    + rewrite Hos. reflexivity.
    + rewrite Hos. reflexivity.
  - intros Hsmall.
    destruct (Z.ltb_spec (page_size (os st)) (wrap (total + META_SIZE)))
      as [|_]; [lia|].
    split; [reflexivity|].
    intros ptr st1 Hmalloc Hptr Hptr0 Hend Hvalid.
    unfold calloc_via_malloc. rewrite (bind_ok _ _ _ _ _ Hmalloc).
    destruct (Z.eqb_spec ptr NULL) as [|_]; [done|]. cbn [negb].
    destruct (memset_zero_ok ptr total st1)
      as (s' & Hrun & Hos & Hgb & Hl & Hin & Hout); try done; try lia.
    rewrite (bind_ok _ _ _ _ _ Hrun), ret_run.
    exists s'. done.
Qed.

(** ** C10: the call site of [coalesce] *)

(** C10.  [coalesce] reads the status of the successor before it tests the
    successor for [NULL]: on a block without successor it faults at the
    status field of the null pointer.  [os_realloc] never calls it on such a
    block: whatever a callee does on blocks without successor, [os_realloc]
    with that callee behaves as [os_realloc] with [coalesce], for every
    pointer, size and state. *)
Theorem coalesce_never_called_on_null_successor :
  (∀ block st,
      valid (os st) (f_next block) = true →
      peek st (f_next block) = NULL →
      coalesce block st = Segv (f_status NULL))
  ∧ (∀ coal' : Z → M unit,
      (∀ block st,
          valid (os st) (f_next block) = true →
          peek st (f_next block) ≠ NULL →
          coal' block st = coalesce block st) →
      ∀ ptr size st, os_realloc_with coal' ptr size st = os_realloc ptr size st).
Proof.
  split.
  - intros block st Hv Hn. unfold coalesce, get_next, get_status.
    rewrite bind_load, Hv, Hn, bind_load, null_unmapped; [reflexivity|].
    vm_compute. reflexivity.
  - intros coal' Hagree ptr size st. unfold os_realloc, os_realloc_with.
    destruct (ptr =? NULL); [reflexivity|].
    destruct (size =? 0); [reflexivity|].
    unfold get_status, get_size, get_next.
    rewrite !(bind_load (f_status (header ptr))).
    destruct (valid (os st) (f_status (header ptr))); [|reflexivity].
    destruct (peek st (f_status (header ptr)) =? 0); [reflexivity|].
    cbv beta iota. rewrite !(bind_load (f_size (header ptr)) _ st).
    destruct (valid (os st) (f_size (header ptr))); [|reflexivity].
    destruct (size =? peek st (f_size (header ptr))); [reflexivity|].
    cbv beta iota. rewrite !(bind_load (f_size (header ptr)) _ st).
    destruct (size <? peek st (f_size (header ptr))); [reflexivity|].
    cbv beta iota. rewrite !(bind_load (f_size (header ptr)) _ st).
    destruct (peek st (f_size (header ptr)) <? size); [|reflexivity].
    cbv beta iota. rewrite !(bind_load (f_next (header ptr)) _ st).
    destruct (valid (os st) (f_next (header ptr))) eqn:Hv; [|reflexivity].
    destruct (Z.eqb_spec (peek st (f_next (header ptr))) NULL) as [|Hn];
      [reflexivity|].
    cbv beta iota. rewrite !(bind_load (f_next (header ptr)) _ st), Hv.
    rewrite !(bind_run (coal' _)), !(bind_run (coalesce _)).
    rewrite (Hagree _ _ Hv Hn). reflexivity.
Qed.

(** * The theorems at concrete inputs *)

Ltac evaluate := vm_compute; repeat split; first [reflexivity | discriminate].

(** C2 (amended), on the spec's scenario: after [a = allocate (100);
    b = allocate (200); release (a)], the directory is the chain of the two
    blocks, the best fit for 50 bytes is the block of [a], and
    [allocate (50)] returns the pointer [a] without moving the break. *)
Lemma best_fit_below_threshold_witness :
  result (released_first_block init) = Some (16777248, 16908320)
  ∧ chain (after released_first_block init)
          (global_base (after released_first_block init))
          [16777216; 16908288]
  ∧ extent_ok (after released_first_block init) 16777216
  ∧ ∃ st', os_malloc 50 (after released_first_block init) = Ok 16777248 st'
           ∧ os st' = os (after released_first_block init).
Proof.
  set (st := after released_first_block init).
  assert (chain st (global_base st) [16777216; 16908288]) as Hc.
  { apply (chain_step st _ 16908288); [discriminate| |evaluate|].
    { repeat split; evaluate. }
    apply (chain_step st _ NULL); [discriminate| |evaluate|].
    { repeat split; evaluate. }
    constructor. }
  assert (extent_ok st 16777216) as Hext.
  { assert (peek st (f_size 16777216) = 104) as Hsz by evaluate.
    assert (brk_start (os st) = 16777216) as Hlo by evaluate.
    assert (brk (os st) = 16908520) as Hhi by evaluate.
    unfold extent_ok. rewrite Hsz. unfold META_SIZE.
    split; [lia|]. split; [lia|]. intros a Ha1 Ha2.
    apply valid_in_heap; unfold NULL_PAGE; lia. }
  split; [evaluate|]. split; [exact Hc|]. split; [exact Hext|].
  destruct (best_fit_below_threshold st _ 50 Hc) as (r & Hfind & _ & Hr).
  assert (r = 16777216) as ->.
  { vm_compute in Hfind. injection Hfind as <-. reflexivity. }
  destruct (Hr ltac:(discriminate)) as [_ Hm].
  exact (Hm ltac:(lia) Hext).
Defined.

(** C5 (amended), on a block of 4000 bytes whose predecessor is allocated
    and whose successor is Free: the first release merges the successor in,
    the second release returns at once and changes nothing. *)
Lemma release_twice_heap_block_witness :
  peek (after heap_with_free_successor init) (f_status (header 16908320)) = 1
  ∧ peek (after heap_with_free_successor init)
         (f_status (peek (after heap_with_free_successor init)
                         (f_prev (header 16908320)))) ≠ 0
  ∧ directory (after (os_free 16908320) (after heap_with_free_successor init))
    = [(16777216, 8, 1); (16908288, 4136, 0); (16912456, 104, 1)]
  ∧ os_free 16908320
      (after (os_free 16908320) (after heap_with_free_successor init))
    = Ok tt (after (os_free 16908320) (after heap_with_free_successor init))
  ∧ peek (after (os_free 16908320) (after heap_with_free_successor init))
         (f_status (header 16908320)) = 0.
Proof.
  set (st := after heap_with_free_successor init).
  set (st1 := after (os_free 16908320) st).
  assert (peek st (f_status (header 16908320)) = 1) as Hst by evaluate.
  assert (peek st (f_status (peek st (f_prev (header 16908320)))) ≠ 0) as Hp.
  { vm_compute. discriminate. }
  assert (os_free 16908320 st = Ok tt st1) as Hfree by evaluate.
  split; [exact Hst|]. split; [exact Hp|]. split; [evaluate|].
  exact (release_twice_heap_block st 16908320 st1 ltac:(lia) Hst
           (or_intror Hp) Hfree).
Defined.

(** The shrink path on a mapped block of 200000 bytes resized to 100: the
    leftover is positive, resize relocates; the new pointer is a heap block
    and the mapping is gone. *)
Lemma resize_mapped_smaller_witness :
  entry (after (os_malloc 200000) init) (header 1099511627808)
  = (1099511627776, 200000, 2)
  ∧ 0 < to_int (wrap (wrap (200000 - align 100) - META_SIZE))
  ∧ os_realloc 1099511627808 100 (after (os_malloc 200000) init)
    = relocate_mapped 1099511627808 (align 100) (after (os_malloc 200000) init)
  ∧ result (observe (os_realloc 1099511627808 100)
                    (after (os_malloc 200000) init))
    = Some (16777248, [(16777216, 104, 1)], 16777216, 16908288, []).
Proof.
  set (st := after (os_malloc 200000) init).
  split; [evaluate|]. split; [evaluate|]. split; [|evaluate].
  refine (proj1 (resize_mapped_smaller st 1099511627808 100
                   ltac:(lia) ltac:(lia) _ _ _ _) _); evaluate.
Defined.

(** C7, on a block of 16 bytes and the new size 13, which rounds to 16. *)
Lemma resize_to_rounded_size_witness :
  entry (after (os_malloc 16) init) (header 16777248) = (16777216, 16, 1)
  ∧ align 13 = 16
  ∧ os_realloc 16777248 13 (after (os_malloc 16) init)
    = Ok 16777248 (after (os_malloc 16) init).
Proof.
  split; [evaluate|]. split; [evaluate|].
  apply resize_to_rounded_size; try lia; evaluate.
Defined.


(** C9, on a fresh process with pages of 4096 bytes.  1000 elements of 8
    bytes (8000 bytes, far below 128 KiB) exceed a page with their header
    and are served by a mapping of two pages; 10 elements of 8 bytes go
    through [os_malloc] and come back zero-filled. *)
Lemma calloc_page_threshold_witness :
  (∃ st', os_calloc 1000 8 init = Ok 1099511627808 st'
          ∧ peek st' 1099511627776 = 8000
          ∧ peek st' 1099511627784 = 2
          ∧ (∀ k, 0 ≤ k < 1000 → peek st' (1099511627808 + 8 * k) = 0)
          ∧ global_base st' = NULL
          ∧ last st' = NULL
          ∧ brk (os st') = 16777216
          ∧ maps (os st') = [(1099511627776, 1099511635968)])
  ∧ os_calloc 10 8 init = calloc_via_malloc 80 init
  ∧ (∃ st', os_calloc 10 8 init = Ok 16777248 st'
            ∧ (∀ k, 0 ≤ k < 10 → peek st' (16777248 + 8 * k) = 0)
            ∧ directory st' = [(16777216, 80, 1)]).
Proof.
  assert (32 ≤ page_size (os init) < 2 ^ 32) as Hps by (vm_compute; done).
  split; [|split].
  - destruct (calloc_page_threshold init 1000 8 ltac:(lia) ltac:(lia) Hps)
      as [Hmap _].
    destruct Hmap as (st' & Hrun & Hsz & Hst & Hzero & _ & Hgb & Hl & Hb & Hm).
    + evaluate.
    + vm_compute. discriminate.
    + vm_compute. discriminate.
    + evaluate.
    + exists st'. split; [exact Hrun|]. split; [exact Hsz|]. split; [exact Hst|].
      split; [exact Hzero|]. split; [exact Hgb|]. split; [exact Hl|].
      split; [exact Hb|exact Hm].
  - destruct (calloc_page_threshold init 10 8 ltac:(lia) ltac:(lia) Hps)
      as [_ Hsmall].
    destruct Hsmall as [Heq _]; [vm_compute; discriminate|exact Heq].
  - destruct (calloc_page_threshold init 10 8 ltac:(lia) ltac:(lia) Hps)
      as [_ Hsmall].
    destruct Hsmall as [_ Hzero]; [vm_compute; discriminate|].
    set (st1 := after (os_malloc 80) init).
    destruct (Hzero 16777248 st1) as (st' & Hrun & Hz & Hout & Hos & Hgb & Hl).
    + evaluate.
    + discriminate.
    + lia.
    + evaluate.
    + intros k Hk.
      assert (brk_start (os st1) = 16777216) as Hlo by evaluate.
      assert (brk (os st1) = 16908288) as Hhi by evaluate.
      change (align (wrap (10 * 8)) / 8) with 10 in Hk.
      apply valid_in_heap; unfold NULL_PAGE; lia.
    + exists st'. split; [exact Hrun|]. split; [exact Hz|].
      assert (∀ x, x < 16777248 → peek st' x = peek st1 x) as Hout'.
      { intros x Hx. apply Hout. left. exact Hx. }
      unfold directory, loop_fuel, entry. rewrite Hgb.
      change (global_base st1) with 16777216.
      cbn [walk]. change (16777216 =? NULL) with false. cbv iota.
      change (f_next 16777216) with 16777240.
      rewrite (Hout' 16777240) by lia.
      change (peek st1 16777240) with NULL. cbn [walk].
      change (NULL =? NULL) with true. cbv iota. cbn [fmap list_fmap].
      change (f_size 16777216) with 16777216.
      change (f_status 16777216) with 16777224.
      rewrite (Hout' 16777216), (Hout' 16777224) by lia.
      evaluate.
Defined.

(** C10, on a block without successor, where [coalesce] faults at address
    8, and on a block with a successor, where [os_realloc] calls [coalesce]
    and a guarded callee makes no difference. *)
Lemma coalesce_never_called_on_null_successor_witness :
  peek (after (os_malloc 16) init) (f_next 16777216) = NULL
  ∧ coalesce 16777216 (after (os_malloc 16) init) = Segv 8
  ∧ peek (after two_blocks init) (f_next (header 16777248)) = 16908288
  ∧ os_realloc_with coalesce_guarded 16777248 4000 (after two_blocks init)
    = os_realloc 16777248 4000 (after two_blocks init).
Proof.
  destruct coalesce_never_called_on_null_successor as [Hnull Hsite].
  split; [evaluate|]. split; [|split; [evaluate|]].
  - apply (Hnull 16777216 (after (os_malloc 16) init)); evaluate.
  - apply Hsite. exact coalesce_guarded_agrees.
Defined.

(** * Further properties of the code *)
(** ** Symbolic runs *)

Lemma peek_mk_eq a v m g l o : peek (mk_state (<[a := v]> m) g l o) a = v.
Proof. unfold peek; simpl. rewrite lookup_insert_eq. reflexivity. Qed.

Lemma peek_mk_ne a b v m g l o :
  a ≠ b → peek (mk_state (<[a := v]> m) g l o) b = peek (mk_state m g l o) b.
Proof.
  intros. unfold peek; simpl. rewrite lookup_insert_ne by done. reflexivity.
Qed.

Lemma peek_mk_mem s g l o b : peek (mk_state (mem s) g l o) b = peek s b.
Proof. reflexivity. Qed.

Lemma bind_get_global_base {B} (f : Z → M B) s :
  (get_global_base ≫= f) s = f (global_base s) s.
Proof. reflexivity. Qed.

Lemma bind_set_global_base b {B} (f : unit → M B) s :
  (set_global_base b ≫= f) s = f tt (with_global_base b s).
Proof. reflexivity. Qed.

Lemma bind_get_state {B} (f : state → M B) s : (get_state ≫= f) s = f s s.
Proof. reflexivity. Qed.

Lemma bind_DIE_false msg {B} (f : unit → M B) s : (DIE false msg ≫= f) s = f tt s.
Proof. reflexivity. Qed.

Lemma bind_assoc_run {A B C} (m : M A) (f : A → M B) (g : B → M C) s :
  ((m ≫= f) ≫= g) s = (m ≫= λ a, f a ≫= g) s.
Proof. rewrite !bind_run. destruct (m s); reflexivity. Qed.

(** States in constructor form, so that nested updates stay flat. *)
Ltac flat :=
  cbv beta delta [with_mem with_last with_global_base with_os];
  cbn [mem global_base last os].

Ltac peeks :=
  repeat first
    [ rewrite peek_mk_eq
    | rewrite peek_mk_ne by lia
    | rewrite peek_mk_mem ].

(** One statement of the program: a load or a store whose address is mapped
    (shown by [tac]), or an access to a global. *)
Ltac unwrap :=
  repeat match goal with
         | |- context [load (wrap ?x)] => rewrite (wrap_small x) by lia
         | |- context [store (wrap ?x) _] => rewrite (wrap_small x) by lia
         end.

Ltac run_with tac :=
  rewrite ?bind_assoc_run; unwrap;
  first [ rewrite bind_load_ok by (flat; tac) | rewrite bind_store_ok by (flat; tac)
        | rewrite bind_get_last | rewrite bind_set_last | rewrite bind_get_global_base
        | rewrite bind_set_global_base | rewrite bind_DIE_false | rewrite bind_ret ];
  flat; peeks.

Lemma to_signed_small x : 0 ≤ x < 2 ^ 63 → to_signed x = x.
Proof.
  intros Hx. unfold to_signed. rewrite wrap_small by lia.
  destruct (Z.ltb_spec x (2 ^ 63)); lia.
Qed.

(** [sbrk] with a positive increment that the OS grants. *)
Lemma sbrk_grow inc s :
  0 < inc < 2 ^ 63 →
  brk_start (os s) ≤ brk (os s) + inc ≤ brk_limit (os s) →
  sbrk inc s = Ok (brk (os s)) (with_os (with_brk (brk (os s) + inc) (os s)) s).
Proof.
  intros Hinc Hlim. unfold sbrk. rewrite to_signed_small by lia.
  destruct (Z.eqb_spec inc 0) as [|_]; [lia|].
  destruct (Z.leb_spec (brk_start (os s)) (brk (os s) + inc)); [|lia].
  destruct (Z.leb_spec (brk (os s) + inc) (brk_limit (os s))); [|lia].
  reflexivity.
Qed.

Lemma walk_cons fuel s b :
  b ≠ NULL → walk (S fuel) s b = b :: walk fuel s (peek s (f_next b)).
Proof. intros Hb. cbn [walk]. destruct (Z.eqb_spec b NULL); done. Qed.

Lemma walk_null fuel s : walk (S fuel) s NULL = [].
Proof. reflexivity. Qed.

(** X1.  The first allocation below the threshold.  While [global_base] is
    [NULL], [os_malloc] of [n] bytes, rounded to [size] < 128 KiB, raises the
    break by exactly 128 KiB whatever [size] is, and carves one block at the
    old break: the pointer is the old break plus the header, [global_base]
    and [last] name the block, the directory is that one entry, its [prev]
    and [next] are [NULL], and no cell outside its header is written.  The
    slab is not measured against the request: for a [size] above 128 KiB
    minus the header, the payload ends beyond the new break. *)
Theorem first_allocation st n :
  let size := align n in
  let block := brk (os st) in
  0 < n → size < MMAP_THRESHOLD →
  global_base st = NULL →
  NULL_PAGE ≤ block → brk_start (os st) ≤ block →
  block + MMAP_THRESHOLD ≤ brk_limit (os st) → brk_limit (os st) < 2 ^ 63 →
  ∃ st', os_malloc n st = Ok (block + META_SIZE) st'
         ∧ global_base st' = block ∧ last st' = block
         ∧ os st' = with_brk (block + MMAP_THRESHOLD) (os st)
         ∧ directory st' = [(block, size, 1)]
         ∧ peek st' (f_prev block) = NULL ∧ peek st' (f_next block) = NULL
         ∧ (∀ x, x < block ∨ block + META_SIZE ≤ x → peek st' x = peek st x)
         ∧ (MMAP_THRESHOLD - META_SIZE < size →
            brk (os st') < block + META_SIZE + size).
Proof.
  intros size block Hn Hsize Hbase Hnull Hlo Hlim Hlim63.
  pose proof (eq_refl : MMAP_THRESHOLD = 131072) as HT.
  pose proof (eq_refl : META_SIZE = 32) as HM.
  pose proof (eq_refl : NULL_PAGE = 4096) as HN.
  assert (∀ a, block ≤ a → a + 8 ≤ block + 131072 →
               valid (with_brk (block + MMAP_THRESHOLD) (os st)) a = true) as Hv.
  { intros a ??. apply valid_in_heap; simpl; lia. }
  unfold os_malloc. destruct (Z.leb_spec n 0) as [|_]; [lia|].
  cbv beta iota zeta. fold size.
  destruct (Z.ltb_spec size MMAP_THRESHOLD) as [_|]; [|lia]. cbv beta iota.
  rewrite bind_get_global_base, Hbase. change (NULL =? NULL) with true. cbv iota.
  unfold preallocate.
  rewrite (bind_ok _ _ _ _ _ (sbrk_grow MMAP_THRESHOLD st ltac:(lia) ltac:(fold block; lia))).
  fold block. destruct (Z.eqb_spec block MAP_FAILED) as [E|_].
  { unfold MAP_FAILED in E. lia. }
  rewrite bind_DIE_false.
  unfold set_size, set_status, set_next, set_prev, f_size, f_status, f_next, f_prev.
  rewrite (wrap_small (block + 8)), (wrap_small (block + 16)),
    (wrap_small (block + 24)) by lia.
  flat.
  do 4 run_with ltac:(apply Hv; lia).
  do 2 run_with idtac.
  rewrite ret_run. unfold payload. rewrite wrap_small by lia.
  eexists. split; [reflexivity|]. flat.
  assert (block ≠ NULL) as Hb by (unfold NULL; lia).
  repeat split.
  - unfold directory, loop_fuel. flat.
    rewrite walk_cons by done. unfold f_next.
    rewrite (wrap_small (block + 24)) by lia. peeks.
    rewrite walk_null. cbn [fmap list_fmap]. unfold entry, f_size, f_status.
    rewrite (wrap_small (block + 8)) by lia. peeks. reflexivity.
  - peeks. reflexivity.
  - peeks. reflexivity.
  - intros x Hx. peeks. reflexivity.
  - simpl. lia.
Qed.

(** ** Mappings *)

Lemma mmap_ok len s :
  0 < len → mmap_next (os s) + page_up (os s) len ≤ mmap_limit (os s) →
  mmap len s =
  Ok (mmap_next (os s))
     (mk_state (filter (outside (mmap_next (os s))
                                (mmap_next (os s) + page_up (os s) len)) (mem s))
        (global_base s) (last s)
        (mk_os (brk (os s)) (brk_start (os s)) (brk_limit (os s))
           (page_size (os s)) (mmap_next (os s) + page_up (os s) len)
           (mmap_limit (os s))
           ((mmap_next (os s), mmap_next (os s) + page_up (os s) len)
              :: maps (os s)))).
Proof.
  intros Hlen Hlim. unfold mmap.
  destruct (Z.ltb_spec 0 len); [|lia].
  destruct (Z.leb_spec (mmap_next (os s) + page_up (os s) len) (mmap_limit (os s)));
    [|lia].
  reflexivity.
Qed.

Lemma cut_self lo hi : cut lo hi (lo, hi) = [].
Proof.
  unfold cut; simpl.
  destruct (Z.ltb_spec lo (Z.min hi lo)); [lia|].
  destruct (Z.ltb_spec (Z.max lo hi) hi); [lia|]. reflexivity.
Qed.

Lemma cut_below lo hi r : r.1 < r.2 → r.2 ≤ lo → lo ≤ hi → cut lo hi r = [r].
Proof.
  intros H1 H2 H3. unfold cut. destruct r as [a b]; simpl in *.
  destruct (Z.ltb_spec a (Z.min b lo)); [|lia].
  destruct (Z.ltb_spec (Z.max a hi) b); [lia|].
  rewrite Z.min_l by lia. reflexivity.
Qed.

Lemma flat_map_cut_below lo hi (l : list (Z * Z)) :
  lo ≤ hi → Forall (λ r, r.1 < r.2 ≤ lo) l → flat_map (cut lo hi) l = l.
Proof.
  intros Hle. induction 1 as [|r l [H1 H2] _ IH]; simpl; [done|].
  rewrite cut_below, IH by done. reflexivity.
Qed.

(** X2.  An allocation at or above the threshold.  For a rounded size of
    128 KiB or more, [os_malloc] asks [mmap] for the size plus the header;
    when the OS grants it, the pointer is the start of the mapping plus the
    header, the header holds the rounded size and status 2, and neither
    [global_base], [last], the break nor any cell outside the new mapping
    changes: the block does not enter the directory. *)
Theorem large_allocation st n :
  let size := align n in
  let a := mmap_next (os st) in
  let e := a + page_up (os st) (size + META_SIZE) in
  0 < n → MMAP_THRESHOLD ≤ size → size + META_SIZE < 2 ^ 64 →
  0 < page_size (os st) → NULL_PAGE ≤ a →
  e ≤ mmap_limit (os st) → mmap_limit (os st) < 2 ^ 64 →
  ∃ st', os_malloc n st = Ok (a + META_SIZE) st'
         ∧ peek st' (f_size a) = size
         ∧ peek st' (f_status a) = 2
         ∧ (∀ x, ¬ (a ≤ x < e) → peek st' x = peek st x)
         ∧ global_base st' = global_base st
         ∧ last st' = last st
         ∧ os st' = mk_os (brk (os st)) (brk_start (os st)) (brk_limit (os st))
                          (page_size (os st)) e (mmap_limit (os st))
                          ((a, e) :: maps (os st)).
Proof.
  intros size a e Hn Hsize Hov Hps Hnull Hlim Hlim64.
  pose proof (eq_refl : MMAP_THRESHOLD = 131072) as HT.
  pose proof (eq_refl : META_SIZE = 32) as HM.
  pose proof (eq_refl : NULL_PAGE = 4096) as HN.
  pose proof (page_up_ge (os st) (size + META_SIZE) Hps) as Hup.
  assert (a + (size + 32) ≤ e) as He by (unfold e; lia).
  unfold os_malloc. destruct (Z.leb_spec n 0) as [|_]; [lia|].
  cbv beta iota zeta. fold size.
  destruct (Z.ltb_spec size MMAP_THRESHOLD) as [|_]; [lia|]. cbv beta iota.
  unfold request_mmap. rewrite (wrap_small (size + META_SIZE)) by lia.
  rewrite (bind_ok _ _ _ _ _ (mmap_ok (size + META_SIZE) st ltac:(lia) Hlim)).
  fold a e. destruct (Z.eqb_spec a MAP_FAILED) as [E|_].
  { unfold MAP_FAILED in E. lia. }
  rewrite bind_DIE_false.
  set (o1 := mk_os _ _ _ _ _ _ _).
  assert (∀ x, a ≤ x → x + 8 ≤ e → valid o1 x = true) as Hv.
  { intros x ??. apply (valid_in_map o1 (a, e)); simpl; try lia.
    apply list_elem_of_here. }
  unfold set_size, set_status, f_size, f_status.
  rewrite (wrap_small (a + 8)) by lia.
  do 2 run_with ltac:(apply Hv; lia).
  rewrite ret_run. unfold payload. rewrite wrap_small by lia.
  eexists. split; [reflexivity|]. flat. repeat split.
  - peeks. reflexivity.
  - peeks. reflexivity.
  - intros x Hx. peeks. apply peek_filter_outside. done.
Qed.

(** X3.  Releasing a mapped block.  For a block of status 2 whose header
    starts on a page boundary, [os_free] unmaps the block's size plus the
    header, rounded up to whole pages, from the header on, and returns;
    memory contents, [global_base], [last] and the break are as before. *)
Theorem release_mapped_block st ptr :
  let block := header ptr in
  let size := peek st (f_size block) in
  ptr ≠ NULL →
  valid (os st) (f_status block) = true →
  valid (os st) (f_size block) = true →
  peek st (f_status block) = 2 →
  block mod page_size (os st) = 0 → 0 < wrap (size + META_SIZE) →
  ∃ st', os_free ptr st = Ok tt st'
         ∧ mem st' = mem st ∧ global_base st' = global_base st
         ∧ last st' = last st
         ∧ os st' =
           mk_os (brk (os st)) (brk_start (os st)) (brk_limit (os st))
                 (page_size (os st)) (mmap_next (os st)) (mmap_limit (os st))
                 (flat_map
                    (cut block (block + page_up (os st) (wrap (size + META_SIZE))))
                    (maps (os st))).
Proof.
  intros block size Hp Hvst Hvsz Hst Hal Hlen. unfold os_free.
  destruct (Z.eqb_spec ptr NULL) as [|_]; [done|]. fold block.
  unfold get_status, get_size.
  rewrite bind_load_ok, Hst by done. change (2 =? 0) with false. cbv iota.
  rewrite bind_load_ok, Hst by done. change (2 =? 1) with false. cbv iota.
  rewrite bind_load_ok, Hst by done. change (2 =? 2) with true. cbv iota.
  rewrite bind_load_ok by done. fold size.
  unfold munmap. rewrite bind_run.
  destruct (Z.eqb_spec (block mod page_size (os st)) 0) as [_|]; [|done].
  destruct (Z.ltb_spec 0 (wrap (size + META_SIZE))) as [_|]; [|lia].
  cbn [andb]. cbv beta iota. change (0 =? -1) with false.
  eexists. split; [reflexivity|]. done.
Qed.

(** X4.  A large allocation followed by its release gives back to the OS
    exactly what it took: the mappings and the break are those from before
    the allocation (only the address of the next mapping has advanced),
    [global_base] and [last] are unchanged, and so is every cell outside the
    range that was mapped. *)
Theorem large_allocation_released st n :
  let size := align n in
  let a := mmap_next (os st) in
  let e := a + page_up (os st) (size + META_SIZE) in
  0 < n → MMAP_THRESHOLD ≤ size → size + META_SIZE < 2 ^ 64 →
  0 < page_size (os st) → NULL_PAGE ≤ a → a mod page_size (os st) = 0 →
  e ≤ mmap_limit (os st) → mmap_limit (os st) < 2 ^ 64 →
  Forall (λ r, r.1 < r.2 ≤ a) (maps (os st)) →
  ∃ st', (p ← os_malloc n; os_free p;; mret p) st = Ok (a + META_SIZE) st'
         ∧ os st' = mk_os (brk (os st)) (brk_start (os st)) (brk_limit (os st))
                          (page_size (os st)) e (mmap_limit (os st))
                          (maps (os st))
         ∧ global_base st' = global_base st
         ∧ last st' = last st
         ∧ (∀ x, ¬ (a ≤ x < e) → peek st' x = peek st x).
Proof.
  intros size a e Hn Hsize Hov Hps Hnull Hal Hlim Hlim64 Hmaps.
  pose proof (eq_refl : META_SIZE = 32) as HM.
  pose proof (eq_refl : NULL_PAGE = 4096) as HN.
  pose proof (eq_refl : MMAP_THRESHOLD = 131072) as HT.
  pose proof (page_up_ge (os st) (size + META_SIZE) Hps) as Hup.
  assert (a + (size + 32) ≤ e) as He by (unfold e; lia).
  destruct (large_allocation st n) as
    (st1 & Hrun & Hsz & Hst & Hframe & Hgb & Hl & Hos); try done.
  fold size a e in Hrun, Hsz, Hst, Hframe, Hos.
  rewrite (bind_ok _ _ _ _ _ Hrun).
  assert (header (a + META_SIZE) = a) as Hhdr.
  { unfold header. replace (a + META_SIZE - META_SIZE) with a by lia.
    apply wrap_small. lia. }
  assert (∀ x, a ≤ x → x + 8 ≤ e → valid (os st1) x = true) as Hv.
  { intros x ??. apply (valid_in_map (os st1) (a, e)); simpl; try lia.
    rewrite Hos. apply list_elem_of_here. }
  destruct (release_mapped_block st1 (a + META_SIZE)) as
    (st2 & Hrun2 & Hmem2 & Hgb2 & Hl2 & Hos2);
    rewrite ?Hhdr; try done.
  - unfold NULL. lia.
  - unfold f_status. rewrite wrap_small by lia. apply Hv; lia.
  - apply Hv; unfold f_size; lia.
  - rewrite Hos. done.
  - rewrite Hsz, wrap_small by lia. lia.
  - rewrite Hhdr, Hsz, (wrap_small (size + META_SIZE)) in Hos2 by lia.
    rewrite Hos in Hos2. unfold page_up in Hos2. cbn [page_size brk brk_start brk_limit mmap_next mmap_limit maps] in Hos2.
    fold (page_up (os st) (size + META_SIZE)) in Hos2. fold e in Hos2.
    cbn [flat_map] in Hos2.
    rewrite cut_self, flat_map_cut_below in Hos2; [|lia|done]. cbn [app] in Hos2.
    rewrite (bind_ok _ _ _ _ _ Hrun2), ret_run.
    exists st2. split; [reflexivity|]. repeat split; try congruence.
    intros x Hx. unfold peek. rewrite Hmem2. apply Hframe. done.
Qed.

(** ** Splitting and merging *)

Ltac fields :=
  unfold get_size, get_status, get_prev, get_next,
         set_size, set_status, set_prev, set_next,
         f_size, f_status, f_prev, f_next in *.

(** X5.  [try_split] on a block of [bsz] bytes and a request of
    [size] ≤ [bsz] bytes.  When at most a header's worth (32 bytes) would be
    left over, only the status is written: the block keeps all its [bsz]
    bytes.  Otherwise the block shrinks to [size] and a Free block of
    [bsz - size - 32] bytes is carved right behind its payload and linked in
    between the block and its old successor (whose [prev] is redirected);
    the sizes and the new header add up to [bsz]; [last] becomes the new
    block exactly when there was no successor; the OS is not called. *)
Theorem try_split_carves st b size :
  let bsz := peek st (f_size b) in
  let r := b + size + META_SIZE in
  let next := peek st (f_next b) in
  0 ≤ b → b + META_SIZE + bsz < 2 ^ 64 →
  (∀ a, b ≤ a → a + 8 ≤ b + META_SIZE + bsz → valid (os st) a = true) →
  0 ≤ size ≤ bsz →
  (next ≠ NULL → b + META_SIZE + bsz ≤ next ∧ next + META_SIZE ≤ 2 ^ 64
                 ∧ valid (os st) (f_prev next) = true) →
  (bsz - size ≤ META_SIZE →
     try_split b size st
     = Ok (b + META_SIZE) (with_mem (<[f_status b := 1]> (mem st)) st))
  ∧ (META_SIZE < bsz - size →
     ∃ st', try_split b size st = Ok (b + META_SIZE) st'
       ∧ entry st' b = (b, size, 1)
       ∧ entry st' r = (r, bsz - size - META_SIZE, 0)
       ∧ peek st' (f_next b) = r ∧ peek st' (f_prev b) = peek st (f_prev b)
       ∧ peek st' (f_prev r) = b ∧ peek st' (f_next r) = next
       ∧ (next ≠ NULL → peek st' (f_prev next) = r)
       ∧ last st' = (if next =? NULL then r else last st)
       ∧ global_base st' = global_base st ∧ os st' = os st
       ∧ (∀ x, ¬ (b ≤ x < b + META_SIZE) → ¬ (r ≤ x < r + META_SIZE) →
               x ≠ f_prev next → peek st' x = peek st x)).
Proof.
  intros bsz r next Hb Hend Hv Hsize Hnext.
  pose proof (eq_refl : META_SIZE = 32) as HM.
  assert (bsz = peek st b) as Ebsz by reflexivity.
  assert (next = peek st (b + 24)) as Enext.
  { unfold next, f_next. rewrite wrap_small by lia. reflexivity. }
  assert (r = b + size + META_SIZE) as Er by reflexivity.
  clearbody bsz next r.
  unfold try_split, payload, entry. fields.
  rewrite !(wrap_small (b + _)) in * by lia.
  rewrite bind_load_ok by (apply Hv; lia). rewrite <- Ebsz.
  rewrite (wrap_small (bsz - size)) by lia.
  split; intros Hrem.
  - destruct (Z.leb_spec (META_SIZE + 1) (bsz - size)) as [|_]; [lia|].
    rewrite bind_store_ok by (apply Hv; lia). reflexivity.
  - destruct (Z.leb_spec (META_SIZE + 1) (bsz - size)) as [_|]; [|lia].
    cbv zeta. rewrite !(wrap_small (b + size + META_SIZE)) by lia.
    rewrite <- Er.
    rewrite !(wrap_small (r + _)), (wrap_small (bsz - size - META_SIZE))
      by lia.
    do 8 run_with ltac:(apply Hv; lia). rewrite <- ?Enext.
    destruct (Z.eqb_spec next NULL) as [Hn|Hn].
    + rewrite bind_ret. do 2 run_with ltac:(apply Hv; lia).
      rewrite <- ?Enext, Hn. change (NULL =? NULL) with true. cbv iota.
      rewrite bind_set_last, ret_run. flat.
      eexists. split; [reflexivity|]. flat. peeks.
      repeat split; try done.
      intros x H1 H2 H3. peeks. reflexivity.
    + destruct (Hnext Hn) as (Hn1 & Hn2 & Hn3).
      rewrite (wrap_small (next + 16)) in * by (unfold NULL in *; lia).
      rewrite bind_assoc_run.
      run_with ltac:(apply Hv; lia). rewrite <- ?Enext.
      rewrite (wrap_small (next + 16)) by (unfold NULL in *; lia).
      run_with ltac:(done).
      do 2 run_with ltac:(apply Hv; lia). rewrite <- ?Enext.
      destruct (Z.eqb_spec next NULL) as [|_]; [done|].
      rewrite bind_ret, ret_run.
      eexists. split; [reflexivity|]. flat. peeks.
      repeat split; try done.
      intros x H1 H2 H3. peeks. reflexivity.
Qed.

Lemma header_payload b : 0 ≤ b < 2 ^ 64 → header (b + META_SIZE) = b.
Proof.
  intros H. unfold header. replace (b + META_SIZE - META_SIZE) with b by lia.
  by apply wrap_small.
Qed.

(** X6.  Releasing a heap block whose predecessor is absent or allocated
    and whose successor is Free: the block absorbs the successor.  Its size
    grows by the successor's size plus one header, its [next] becomes the
    successor's [next], whose [prev] (if there is one) is redirected to the
    block, [last] moves to the block when it named the successor, and the
    status becomes Free.  These are the only cells written. *)
Theorem release_merges_successor st b :
  let prev := peek st (f_prev b) in
  let next := peek st (f_next b) in
  let nn := peek st (f_next next) in
  let total := wrap (peek st (f_size b) + wrap (peek st (f_size next) + META_SIZE)) in
  0 ≤ b → hdr_valid (os st) b → peek st (f_status b) = 1 →
  (prev = NULL ∨ valid (os st) (f_status prev) = true ∧ peek st (f_status prev) ≠ 0) →
  b + META_SIZE ≤ next → next + META_SIZE ≤ 2 ^ 64 →
  hdr_valid (os st) next → peek st (f_status next) = 0 →
  (nn ≠ NULL → valid (os st) (f_prev nn) = true) →
  os_free (b + META_SIZE) st =
  Ok tt (mk_state
           (<[f_status b := 0]>
              ((if nn =? NULL then id else <[f_prev nn := b]>)
                 (<[f_next b := nn]> (<[f_size b := total]> (mem st)))))
           (global_base st)
           (if last st =? next then b else last st)
           (os st)).
Proof.
  intros prev next nn total Hb (Hv1 & Hv2 & Hv3 & Hv4) Hst Hprev Hlo Hhi
    (Hn1 & Hn2 & Hn3 & Hn4) Hnst Hnn.
  pose proof (eq_refl : META_SIZE = 32) as HM.
  assert (prev = peek st (b + 16)) as Eprev
    by (unfold prev, f_prev; rewrite wrap_small by lia; reflexivity).
  assert (next = peek st (b + 24)) as Enext
    by (unfold next, f_next; rewrite wrap_small by lia; reflexivity).
  assert (nn = peek st (next + 24)) as Enn
    by (unfold nn, f_next; rewrite !wrap_small by lia; reflexivity).
  assert (total = wrap (peek st b + wrap (peek st next + META_SIZE))) as Etot
    by reflexivity.
  clearbody prev next nn total.
  unfold os_free. rewrite header_payload by lia.
  destruct (Z.eqb_spec (b + META_SIZE) NULL) as [E|_]; [unfold NULL in E; lia|].
  fields. rewrite !(wrap_small (b + _)), !(wrap_small (next + _)) in * by lia.
  rewrite bind_load_ok, Hst by done. change (1 =? 0) with false. cbv iota.
  rewrite bind_load_ok, Hst by done. change (1 =? 1) with true. cbv iota.
  do 2 run_with ltac:(done). rewrite <- Eprev, <- Enext.
  assert (negb (next =? NULL) = true) as ->.
  { destruct (Z.eqb_spec next NULL) as [E|]; [unfold NULL in E; lia|done]. }
  rewrite (bind_ok _ _ _ b st).
  2:{ destruct (Z.eqb_spec prev NULL) as [|Hne]; [reflexivity|]. cbn [negb].
      destruct Hprev as [|[Hv Hs]]; [done|].
      rewrite bind_load_ok by done.
      destruct (Z.eqb_spec (peek st (wrap (prev + 8))) 0); [done|reflexivity]. }
  cbv iota. rewrite bind_assoc_run.
  run_with ltac:(done). rewrite Hnst. change (0 =? 0) with true. cbv iota.
  rewrite !bind_assoc_run.
  do 5 (run_with ltac:(done); rewrite <- ?Etot, <- ?Enn; rewrite ?bind_assoc_run).
  run_with ltac:(done). rewrite <- ?Enn.
  rewrite !bind_assoc_run.
  destruct (Z.eqb_spec nn NULL) as [Hz|Hz]; cbn [negb]; cbv iota.
  - do 2 run_with idtac.
    destruct (Z.eqb_spec (last st) next).
    + run_with idtac. rewrite store_ok by done. reflexivity.
    + run_with idtac. rewrite store_ok by done. reflexivity.
  - rewrite !bind_assoc_run. run_with ltac:(done). rewrite <- ?Enn.
    run_with ltac:(auto). run_with idtac.
    destruct (Z.eqb_spec (last st) next).
    + run_with idtac. rewrite store_ok by done. reflexivity.
    + run_with idtac. rewrite store_ok by done. reflexivity.
Qed.

(** X7.  Releasing a heap block whose predecessor is Free and whose
    successor is absent or allocated: the predecessor absorbs the block.
    Its size grows by the block's size plus one header, its [next] becomes
    the block's successor, whose [prev] is redirected, and [last] moves to
    the predecessor when it named the block.  The header of the released
    block itself is not written: it still reads status 1. *)
Theorem release_merges_predecessor st b :
  let prev := peek st (f_prev b) in
  let next := peek st (f_next b) in
  let total := wrap (peek st (f_size prev) + wrap (peek st (f_size b) + META_SIZE)) in
  0 ≤ b → b + META_SIZE ≤ 2 ^ 64 →
  hdr_valid (os st) b → peek st (f_status b) = 1 →
  NULL < prev → prev + META_SIZE ≤ b →
  hdr_valid (os st) prev → peek st (f_status prev) = 0 →
  (next = NULL ∨ b + META_SIZE ≤ next ∧ next + META_SIZE ≤ 2 ^ 64
                 ∧ valid (os st) (f_status next) = true
                 ∧ valid (os st) (f_prev next) = true
                 ∧ peek st (f_status next) ≠ 0) →
  os_free (b + META_SIZE) st =
  Ok tt (mk_state
           (<[f_status prev := 0]>
              ((if next =? NULL then id else <[f_prev next := prev]>)
                 (<[f_next prev := next]> (<[f_size prev := total]> (mem st)))))
           (global_base st)
           (if last st =? b then prev else last st)
           (os st)).
Proof.
  intros prev next total Hb Hb' (Hv1 & Hv2 & Hv3 & Hv4) Hst Hp0 Hplo
    (Hp1 & Hp2 & Hp3 & Hp4) Hpst Hnext.
  pose proof (eq_refl : META_SIZE = 32) as HM.
  pose proof (eq_refl : NULL = 0) as HN.
  assert (prev = peek st (b + 16)) as Eprev
    by (unfold prev, f_prev; rewrite wrap_small by lia; reflexivity).
  assert (next = peek st (b + 24)) as Enext
    by (unfold next, f_next; rewrite wrap_small by lia; reflexivity).
  assert (total = wrap (peek st prev + wrap (peek st b + META_SIZE))) as Etot
    by reflexivity.
  clearbody prev next total.
  unfold os_free. rewrite header_payload by lia.
  destruct (Z.eqb_spec (b + META_SIZE) NULL) as [E|_]; [lia|].
  fields. rewrite !(wrap_small (b + _)), !(wrap_small (prev + _)) in * by lia.
  rewrite bind_load_ok, Hst by done. change (1 =? 0) with false. cbv iota.
  rewrite bind_load_ok, Hst by done. change (1 =? 1) with true. cbv iota.
  do 2 run_with ltac:(done). rewrite <- Eprev, <- Enext.
  destruct (Z.eqb_spec prev NULL) as [|_]; [lia|]. cbn [negb]. cbv iota.
  run_with ltac:(done). rewrite Hpst. change (0 =? 0) with true. cbv iota.
  do 4 (run_with ltac:(done); rewrite <- ?Etot).
  destruct (Z.eqb_spec next NULL) as [Hz|Hz]; cbn [negb]; cbv iota.
  - do 2 run_with idtac.
    destruct (Z.eqb_spec (last st) b).
    + do 3 run_with idtac. rewrite store_ok by done. reflexivity.
    + do 3 run_with idtac. rewrite store_ok by done. reflexivity.
  - destruct Hnext as [|(Hn1 & Hn2 & Hn3 & Hn4 & Hn5)]; [done|].
    rewrite !(wrap_small (next + _)) in * by lia.
    run_with ltac:(done). run_with idtac.
    destruct (Z.eqb_spec (last st) b).
    + do 3 run_with ltac:(done).
      destruct (Z.eqb_spec (peek st (next + 8)) 0) as [|_]; [done|].
      run_with idtac. rewrite store_ok by done. reflexivity.
    + do 3 run_with ltac:(done).
      destruct (Z.eqb_spec (peek st (next + 8)) 0) as [|_]; [done|].
      run_with idtac. rewrite store_ok by done. reflexivity.
Qed.

(** X8.  Releasing a heap block between two Free neighbours: the
    predecessor absorbs the block and the successor.  One Free entry of the
    three sizes plus two headers remains, linked to what followed the
    successor; [last] moves to the predecessor when it named the block or
    the successor; nothing else is written and the OS is not called. *)
Theorem release_merges_both st b :
  let prev := peek st (f_prev b) in
  let next := peek st (f_next b) in
  let nn := peek st (f_next next) in
  let total := wrap (wrap (peek st (f_size prev) + wrap (peek st (f_size b) + META_SIZE))
                     + wrap (peek st (f_size next) + META_SIZE)) in
  0 ≤ b → hdr_valid (os st) b → peek st (f_status b) = 1 →
  NULL < prev → prev + META_SIZE ≤ b →
  hdr_valid (os st) prev → peek st (f_status prev) = 0 →
  b + META_SIZE ≤ next → next + META_SIZE ≤ 2 ^ 64 →
  hdr_valid (os st) next → peek st (f_status next) = 0 →
  (nn ≠ NULL → next + META_SIZE ≤ nn ∧ nn + META_SIZE ≤ 2 ^ 64
               ∧ valid (os st) (f_prev nn) = true) →
  ∃ st', os_free (b + META_SIZE) st = Ok tt st'
    ∧ entry st' prev = (prev, total, 0)
    ∧ peek st' (f_next prev) = nn
    ∧ peek st' (f_prev prev) = peek st (f_prev prev)
    ∧ (nn ≠ NULL → peek st' (f_prev nn) = prev)
    ∧ last st' = (if (last st =? b) || (last st =? next) then prev else last st)
    ∧ global_base st' = global_base st ∧ os st' = os st
    ∧ (∀ x, x ≠ f_size prev → x ≠ f_status prev → x ≠ f_next prev →
            x ≠ f_prev next → x ≠ f_prev nn → peek st' x = peek st x).
Proof.
  intros prev next nn total Hb (Hv1 & Hv2 & Hv3 & Hv4) Hst Hp0 Hplo
    (Hp1 & Hp2 & Hp3 & Hp4) Hpst Hlo Hhi (Hn1 & Hn2 & Hn3 & Hn4) Hnst Hnn.
  pose proof (eq_refl : META_SIZE = 32) as HM.
  pose proof (eq_refl : NULL = 0) as HN.
  assert (prev = peek st (b + 16)) as Eprev
    by (unfold prev, f_prev; rewrite wrap_small by lia; reflexivity).
  assert (next = peek st (b + 24)) as Enext
    by (unfold next, f_next; rewrite wrap_small by lia; reflexivity).
  assert (nn = peek st (next + 24)) as Enn
    by (unfold nn, f_next; rewrite !wrap_small by lia; reflexivity).
  assert (total = wrap (wrap (peek st prev + wrap (peek st b + META_SIZE))
                        + wrap (peek st next + META_SIZE))) as Etot
    by reflexivity.
  clearbody prev next nn total.
  unfold os_free, entry. rewrite header_payload by lia.
  destruct (Z.eqb_spec (b + META_SIZE) NULL) as [E|_]; [lia|].
  fields. rewrite !(wrap_small (b + _)), !(wrap_small (prev + _)),
    !(wrap_small (next + _)) in * by lia.
  rewrite bind_load_ok, Hst by done. change (1 =? 0) with false. cbv iota.
  rewrite bind_load_ok, Hst by done. change (1 =? 1) with true. cbv iota.
  do 2 run_with ltac:(done). rewrite <- Eprev, <- Enext.
  destruct (Z.eqb_spec prev NULL) as [|_]; [lia|]. cbn [negb]. cbv iota.
  destruct (Z.eqb_spec next NULL) as [|_]; [lia|]. cbn [negb]. cbv iota.
  run_with ltac:(done). rewrite Hpst. change (0 =? 0) with true. cbv iota.
  do 6 run_with ltac:(done).
  assert (nn ≠ NULL → wrap (nn + 16) = nn + 16) as Enn16.
  { intros H. apply wrap_small. specialize (Hnn H). lia. }
  destruct (Z.eqb_spec (last st) b) as [El|El]; cbn [orb].
  - do 3 run_with ltac:(done). rewrite Hnst. change (0 =? 0) with true. cbv iota.
    do 6 run_with ltac:(done). rewrite <- ?Etot, <- ?Enn.
    destruct (Z.eqb_spec nn NULL) as [Hz|Hz]; cbn [negb]; cbv iota.
    + do 2 run_with ltac:(done).
      destruct (Z.eqb_spec prev next) as [|_]; [lia|].
      run_with idtac. rewrite store_ok by done.
      eexists. split; [reflexivity|]. flat. peeks.
      repeat split; try done. intros x ?????. peeks. reflexivity.
    + destruct (Hnn Hz) as (Hz1 & Hz2 & Hz3). rewrite Enn16 in * by done.
      run_with ltac:(done). rewrite <- ?Enn, Enn16 by done.
      do 2 run_with ltac:(done).
      destruct (Z.eqb_spec prev next) as [|_]; [lia|].
      run_with idtac. rewrite store_ok by done.
      eexists. split; [reflexivity|]. flat. peeks.
      repeat split; try done. intros x ?????. peeks. reflexivity.
  - do 3 run_with ltac:(done). rewrite Hnst. change (0 =? 0) with true. cbv iota.
    do 6 run_with ltac:(done). rewrite <- ?Etot, <- ?Enn.
    destruct (Z.eqb_spec nn NULL) as [Hz|Hz]; cbn [negb]; cbv iota.
    + do 2 run_with ltac:(done).
      destruct (Z.eqb_spec (last st) next) as [|_];
        (run_with idtac; rewrite store_ok by done;
         eexists; (split; [reflexivity|]); flat; peeks;
         repeat split; try done; intros x ?????; peeks; reflexivity).
    + destruct (Hnn Hz) as (Hz1 & Hz2 & Hz3). rewrite Enn16 in * by done.
      run_with ltac:(done). rewrite <- ?Enn, Enn16 by done.
      do 2 run_with ltac:(done).
      destruct (Z.eqb_spec (last st) next) as [|_];
        (run_with idtac; rewrite store_ok by done;
         eexists; (split; [reflexivity|]); flat; peeks;
         repeat split; try done; intros x ?????; peeks; reflexivity).
Qed.

(** ** Directories of states that differ *)

Lemma walk_chain s b l : chain s b l → ∀ fuel, (length l < fuel)%nat → walk fuel s b = l.
Proof.
  induction 1 as [|b l Hb Hv Hc IH]; intros [|fuel] Hf; simpl in Hf; try lia.
  - reflexivity.
  - rewrite walk_cons by done. f_equal. apply IH. lia.
Qed.

Lemma directory_chain s l :
  chain s (global_base s) l → directory s = entry s <$> l.
Proof.
  intros Hc. unfold directory. f_equal. apply walk_chain; [done|].
  by apply chain_fuel.
Qed.

(** A chain keeps its first blocks in any state that keeps their [next]
    fields mapped and unchanged; what follows them may differ. *)
Lemma chain_splice s s' l1 : ∀ b x l2 l',
  chain s b (l1 ++ x :: l2) →
  (∀ y, y ∈ l1 → hdr_valid (os s') y ∧ peek s' (f_next y) = peek s (f_next y)) →
  chain s' x l' → chain s' b (l1 ++ l').
Proof.
  induction l1 as [|y l1 IH]; intros b x l2 l' Hc Hfr Hx; simpl in *.
  - inversion Hc; subst. done.
  - inversion Hc as [|? ? Hb Hv Hc' E]; subst.
    destruct (Hfr y) as [Hv' Hn]; [apply list_elem_of_here|].
    constructor; [done|done|]. rewrite Hn.
    eapply IH; [exact Hc'| |exact Hx].
    intros z Hz. apply Hfr. by apply list_elem_of_further.
Qed.

Lemma entries_frame s s' (l : list Z) :
  (∀ y, y ∈ l → peek s' (f_size y) = peek s (f_size y)
               ∧ peek s' (f_status y) = peek s (f_status y)) →
  entry s' <$> l = entry s <$> l.
Proof.
  intros H. apply list_fmap_ext. intros i y Hy.
  destruct (H y) as [H1 H2]; [by eapply list_elem_of_lookup_2|].
  unfold entry. by rewrite H1, H2.
Qed.

Lemma scan_none s size l :
  (∀ b, b ∈ l → ¬ (fits s size b ∧ peek s (f_size b) < MMAP_THRESHOLD)) →
  scan s size l MMAP_THRESHOLD NULL = NULL.
Proof.
  intros Hno.
  destruct (scan_spec s size l MMAP_THRESHOLD NULL)
    as [[Hr _]|(l1 & l2 & Hl & Hf & Hlt & _)]; [done|].
  exfalso. apply (Hno (scan s size l MMAP_THRESHOLD NULL)); [|done].
  rewrite Hl at 2. apply elem_of_app. right. apply list_elem_of_here.
Qed.

Lemma valid_brk_up o nb x :
  valid o x = true → brk o ≤ nb → valid (with_brk nb o) x = true.
Proof.
  intros Hx Hle. unfold valid in *. simpl.
  apply andb_prop in Hx as [H1 H2]. rewrite H1. cbn [andb].
  apply orb_prop in H2 as [H2| ->]; [|apply orb_true_r].
  apply orb_true_intro. left. unfold in_range in *. lia.
Qed.

Lemma create_new_block_appends st size :
  let block := brk (os st) in
  let tail := last st in
  0 ≤ size → size + META_SIZE < 2 ^ 63 →
  NULL_PAGE ≤ block → brk_start (os st) ≤ block →
  block + size + META_SIZE ≤ brk_limit (os st) → brk_limit (os st) < 2 ^ 63 →
  0 ≤ tail → tail + META_SIZE ≤ block → valid (os st) (f_next tail) = true →
  create_new_block size st =
  Ok (block + META_SIZE)
     (mk_state (<[f_next block := NULL]>
                  (<[f_prev block := tail]>
                     (<[f_next tail := block]>
                        (<[f_status block := 1]>
                           (<[f_size block := size]> (mem st))))))
               (global_base st) block
               (with_brk (block + size + META_SIZE) (os st))).
Proof.
  intros block tail Hsz Hsz' Hnull Hlo Hlim Hlim' Ht Htb Hvn.
  pose proof (eq_refl : META_SIZE = 32) as HM.
  pose proof (eq_refl : NULL_PAGE = 4096) as HN.
  assert (block = brk (os st)) as Eb by reflexivity.
  assert (tail = last st) as Et by reflexivity.
  clearbody block tail.
  unfold create_new_block. rewrite (wrap_small (size + META_SIZE)) by lia.
  rewrite (bind_ok _ _ _ _ _ (sbrk_grow (size + META_SIZE) st ltac:(lia) ltac:(lia))).
  rewrite <- Eb.
  destruct (Z.eqb_spec block MAP_FAILED) as [E|_].
  { unfold MAP_FAILED in E. lia. }
  rewrite bind_DIE_false. fields. unfold payload.
  rewrite !(wrap_small (block + _)) by lia.
  set (o1 := with_brk _ _).
  assert (∀ x, block ≤ x → x + 8 ≤ block + size + META_SIZE → valid o1 x = true) as Hv.
  { intros x ??. apply valid_in_heap; unfold o1; simpl; lia. }
  assert (∀ x, valid (os st) x = true → valid o1 x = true) as Hv0.
  { intros x Hx. apply valid_brk_up; [done|lia]. }
  do 2 run_with ltac:(apply Hv; lia). flat.
  run_with idtac. rewrite <- Et. rewrite (wrap_small (tail + 24)) in * by lia.
  run_with ltac:(apply Hv0; done).
  run_with idtac.
  do 2 run_with ltac:(apply Hv; lia).
  run_with idtac. rewrite ret_run. unfold o1. rewrite Z.add_assoc. reflexivity.
Qed.

(** X9.  Appending.  When [global_base] is set, no block of the directory
    is eligible for the rounded request ([last] being its final block and
    either allocated or large enough to have been skipped as too big), and
    the blocks lie in address order below the break, [os_malloc] raises the
    break by the size plus one header and puts the new block at the old
    break: the directory gains that one entry at its end, the block's [prev]
    is the old tail, and [last] names the new block. *)
Theorem allocation_appends st l0 n :
  let size := align n in
  let block := brk (os st) in
  let tail := last st in
  0 < n → size < MMAP_THRESHOLD →
  chain st (global_base st) (l0 ++ [tail]) →
  (∀ b, b ∈ l0 → 0 ≤ b ∧ b + META_SIZE ≤ tail) →
  0 ≤ tail → tail + META_SIZE ≤ block →
  (∀ b, b ∈ l0 ++ [tail] →
        ¬ (fits st size b ∧ peek st (f_size b) < MMAP_THRESHOLD)) →
  (peek st (f_status tail) = 0 → size ≤ peek st (f_size tail)) →
  NULL_PAGE ≤ block → brk_start (os st) ≤ block →
  block + size + META_SIZE ≤ brk_limit (os st) → brk_limit (os st) < 2 ^ 63 →
  ∃ st', os_malloc n st = Ok (block + META_SIZE) st'
         ∧ directory st' = directory st ++ [(block, size, 1)]
         ∧ peek st' (f_prev block) = tail
         ∧ last st' = block
         ∧ global_base st' = global_base st
         ∧ os st' = with_brk (block + size + META_SIZE) (os st).
Proof.
  intros size block tail Hn Hsize Hc Hl0 Ht0 Htb Hl Htail Hnull Hlo Hlim Hlim'.
  pose proof (eq_refl : META_SIZE = 32) as HM.
  pose proof (eq_refl : NULL_PAGE = 4096) as HN.
  pose proof (eq_refl : MMAP_THRESHOLD = 131072) as HT.
  pose proof (align_range n) as Hpos. fold size in Hpos.
  assert (tail ∈ l0 ++ [tail]) as Hin.
  { apply elem_of_app. right. apply list_elem_of_here. }
  destruct (chain_next_valid _ _ _ Hc tail Hin) as (Htn & (Hv1 & Hv2 & Hv3 & Hv4) & _).
  pose proof (chain_head_nonnull _ _ _ _ Hc Hin) as Hgb.
  assert (size = align n) as Es by reflexivity.
  assert (block = brk (os st)) as Eb by reflexivity.
  assert (tail = last st) as Et by reflexivity.
  pose proof (create_new_block_appends st size ltac:(lia) ltac:(lia) Hnull Hlo Hlim Hlim'
                Ht0 Htb Hv4) as Hnew.
  fold block tail in Hnew.
  clearbody size block tail.
  unfold os_malloc. destruct (Z.leb_spec n 0) as [|_]; [lia|].
  cbv zeta. rewrite <- Es.
  destruct (Z.ltb_spec size MMAP_THRESHOLD) as [_|]; [|lia].
  rewrite bind_get_global_base.
  destruct (Z.eqb_spec (global_base st) NULL) as [|_]; [done|].
  rewrite (bind_ok _ _ _ _ _ (find_best_block_scan st size _ Hc)).
  rewrite scan_none by (intros b Hb; apply Hl; done).
  change (negb (NULL =? NULL)) with false. cbv iota.
  rewrite bind_get_last, <- Et. unfold get_status, get_size.
  rewrite bind_load_ok by done.
  assert (create_new_block size st =
          (if peek st (f_status tail) =? 0
           then get_last ≫= λ l, load (f_size l) ≫= λ lsz,
                  if lsz <? size then expand_last size
                  else create_new_block size
           else create_new_block size) st) as <-.
  { destruct (Z.eqb_spec (peek st (f_status tail)) 0) as [E|]; [|done].
    rewrite bind_get_last, <- Et, bind_load_ok by done.
    destruct (Z.ltb_spec (peek st (f_size tail)) size); [|done].
    specialize (Htail E). lia. }
  rewrite Hnew. eexists. split; [reflexivity|]. flat.
  split; [|by fields; rewrite !(wrap_small (block + _)) by lia; peeks].
  set (st' := mk_state _ _ _ _).
  assert (∀ x, valid (os st) x = true → valid (os st') x = true) as Hv0.
  { intros x Hx. apply valid_brk_up; [done|lia]. }
  assert (∀ x, block ≤ x → x + 8 ≤ block + size + META_SIZE →
               valid (os st') x = true) as Hv.
  { intros x ??. apply valid_in_heap; simpl; lia. }
  assert (∀ y, y ∈ l0 ++ [tail] → 0 ≤ y ∧ y + META_SIZE ≤ block) as Hall.
  { intros y [Hy|Hy%list_elem_of_singleton]%elem_of_app; [|lia].
    specialize (Hl0 y Hy). lia. }
  assert (∀ y, y ∈ l0 ++ [tail] → hdr_valid (os st') y) as Hhv.
  { intros y Hy. destruct (chain_next_valid _ _ _ Hc y Hy) as (_ & (?&?&?&?) & _).
    repeat split; by apply Hv0. }
  assert (chain st' (global_base st) (l0 ++ [tail; block])) as Hc'.
  { eapply chain_splice; [exact Hc| |].
    - intros y Hy. split; [apply Hhv, elem_of_app; by left|].
      specialize (Hl0 y Hy). unfold st'. fields.
      rewrite !(wrap_small (y + _)), !(wrap_small (block + _)),
        !(wrap_small (tail + _)) by lia.
      peeks. reflexivity.
    - apply chain_step with block; [done|by apply Hhv| |].
      + unfold st'. fields.
        rewrite !(wrap_small (block + _)), !(wrap_small (tail + _)) by lia.
        peeks. reflexivity.
      + apply chain_step with NULL; [unfold NULL; lia| | |constructor].
        * unfold hdr_valid. fields. rewrite !(wrap_small (block + _)) by lia.
          repeat split; apply Hv; lia.
        * unfold st'. fields.
          rewrite !(wrap_small (block + _)) by lia. peeks. reflexivity. }
  rewrite (directory_chain st _ Hc).
  rewrite (directory_chain st' (l0 ++ [tail; block])) by done.
  change [tail; block] with ([tail] ++ [block]).
  rewrite app_assoc, fmap_app. f_equal.
  - apply entries_frame. intros y Hy. specialize (Hall y Hy).
    assert (y = tail ∨ y + META_SIZE ≤ tail) as Hyt.
    { apply elem_of_app in Hy as [Hy|Hy%list_elem_of_singleton]; [|by left].
      right. apply Hl0. done. }
    unfold st'. fields.
    rewrite !(wrap_small (y + _)), !(wrap_small (block + _)),
      !(wrap_small (tail + _)) by lia.
    split; peeks; reflexivity.
  - unfold st', entry. fields. simpl.
    rewrite !(wrap_small (block + _)), !(wrap_small (tail + _)) by lia.
    peeks. reflexivity.
Qed.

Lemma chain_frame s s' b l :
  chain s b l →
  (∀ y, y ∈ l → hdr_valid (os s') y ∧ peek s' (f_next y) = peek s (f_next y)) →
  chain s' b l.
Proof.
  induction 1 as [|b l Hb Hv Hc IH]; intros Hfr; [constructor|].
  destruct (Hfr b) as [Hv' Hn]; [apply list_elem_of_here|].
  constructor; [done|done|]. rewrite Hn. apply IH.
  intros y Hy. apply Hfr. by apply list_elem_of_further.
Qed.

(** The walk of a chain visits the same blocks in any state that keeps
    their [next] fields, mapped or not. *)
Lemma walk_frame s s' b l :
  chain s b l →
  (∀ y, y ∈ l → peek s' (f_next y) = peek s (f_next y)) →
  ∀ fuel, (length l < fuel)%nat → walk fuel s' b = l.
Proof.
  induction 1 as [|b l Hb Hv Hc IH]; intros Hfr [|fuel] Hf; simpl in Hf; try lia.
  - reflexivity.
  - rewrite walk_cons by done. f_equal.
    rewrite Hfr by apply list_elem_of_here. apply IH; [|lia].
    intros y Hy. apply Hfr. by apply list_elem_of_further.
Qed.

Lemma size_insert_le (m : gmap Z Z) k v : (size m ≤ size (<[k := v]> m))%nat.
Proof.
  destruct (m !! k) as [w|] eqn:E.
  - rewrite map_size_insert_Some by done. lia.
  - rewrite map_size_insert_None by done. lia.
Qed.

(** X10.  Growing the tail.  The headers of the directory's blocks do
    not overlap the header of [last]; no block is eligible for the rounded
    request [size]; [last] is Free and smaller than [size]; its header lies
    in the heap region, below the break; [last] and the break are multiples
    of 8 and below [2 ^ 61]; and [last + 32 + size] is within the break
    limit.  Then [os_malloc] extends that block in place: the break is set
    to [last + 32 + size], the end of the resized block, whether that raises
    or lowers it; the entry of the block becomes [(last, size, 1)] and is
    the only entry that changes; only its size and status are written; and
    the pointer is its payload. *)
Theorem allocation_expands_tail st l n :
  let size := align n in
  let tail := last st in
  let top := tail + META_SIZE + size in
  0 < n → size < MMAP_THRESHOLD →
  chain st (global_base st) l → tail ∈ l →
  (∀ b, b ∈ l →
        0 ≤ b < 2 ^ 63
        ∧ (b = tail ∨ b + META_SIZE ≤ tail ∨ tail + META_SIZE ≤ b)
        ∧ ¬ (fits st size b ∧ peek st (f_size b) < MMAP_THRESHOLD)) →
  peek st (f_status tail) = 0 → peek st (f_size tail) < size →
  NULL_PAGE ≤ tail → brk_start (os st) ≤ tail →
  tail + META_SIZE ≤ brk (os st) →
  tail mod 8 = 0 → brk (os st) mod 8 = 0 →
  top ≤ brk_limit (os st) → top < 2 ^ 61 → brk (os st) < 2 ^ 61 →
  ∃ st', os_malloc n st = Ok (tail + META_SIZE) st'
         ∧ mem st' = <[f_status tail := 1]> (<[f_size tail := size]> (mem st))
         ∧ directory st'
           = (λ e, if e.1.1 =? tail then (tail, size, 1) else e) <$> directory st
         ∧ last st' = tail
         ∧ global_base st' = global_base st
         ∧ os st' = with_brk top (os st).
Proof.
  intros size tail top Hn Hsize Hc Hin Hl Hst Hlsz Hnull Hlo Htb Ht8 Hb8
    Hlim Htop Hbrk.
  pose proof (eq_refl : META_SIZE = 32) as HM.
  pose proof (eq_refl : NULL_PAGE = 4096) as HN.
  pose proof (eq_refl : MMAP_THRESHOLD = 131072) as HT.
  pose proof (align_range n) as Hpos. fold size in Hpos.
  pose proof (align_mod8 n) as Hs8. fold size in Hs8.
  destruct (chain_next_valid _ _ _ Hc tail Hin) as (Htn & (Hv1 & Hv2 & Hv3 & Hv4) & _).
  pose proof (chain_head_nonnull _ _ _ _ Hc Hin) as Hgb.
  assert (size = align n) as Es by reflexivity.
  assert (tail = last st) as Et by reflexivity.
  assert (top = tail + META_SIZE + size) as Etop by reflexivity.
  clearbody size tail top.
  pose proof (tail_break_position tail (brk (os st)) size
                ltac:(lia) ltac:(lia) ltac:(lia) Ht8 Hb8 Hs8) as Hpos'.
  rewrite <- Etop in Hpos'.
  unfold os_malloc. destruct (Z.leb_spec n 0) as [|_]; [lia|].
  cbv zeta. rewrite <- Es.
  destruct (Z.ltb_spec size MMAP_THRESHOLD) as [_|]; [|lia].
  rewrite bind_get_global_base.
  destruct (Z.eqb_spec (global_base st) NULL) as [|_]; [done|].
  rewrite (bind_ok _ _ _ _ _ (find_best_block_scan st size _ Hc)).
  rewrite scan_none by (intros b Hb; apply Hl; done).
  change (negb (NULL =? NULL)) with false. cbv iota.
  rewrite bind_get_last, <- Et. unfold get_status, get_size.
  rewrite bind_load_ok, Hst by done. change (0 =? 0) with true. cbv iota.
  rewrite bind_get_last, <- Et. rewrite bind_load_ok by done.
  destruct (Z.ltb_spec (peek st (f_size tail)) size) as [_|]; [|lia].
  unfold expand_last.
  rewrite (bind_ok _ _ _ _ _ (sbrk_zero _)), bind_get_last, <- Et.
  cbv zeta.
  destruct (sbrk_ok (align (wrap (wrap (size - wrap (brk (os st) - tail)) + META_SIZE)))
              st ltac:(rewrite Hpos'; lia)) as (s1 & Hs1 & Hm & Hg & Hla & Ho).
  rewrite Hpos' in Ho.
  rewrite (bind_ok _ _ _ _ _ Hs1).
  destruct s1 as [m1 g1 l1 o1]. cbn [mem global_base last os] in Hm, Hg, Hla, Ho.
  subst m1 g1 l1 o1. clear Hs1.
  destruct (Z.eqb_spec (brk (os st)) MAP_FAILED) as [E|_].
  { unfold MAP_FAILED in E. lia. }
  rewrite bind_DIE_false.
  assert (∀ x, tail ≤ x → x + 8 ≤ tail + META_SIZE →
               valid (with_brk top (os st)) x = true) as Hv0.
  { intros x Hx1 Hx2. apply valid_in_heap; simpl; lia. }
  unfold set_size, set_status, f_size, f_status in *.
  rewrite (wrap_small (tail + 8)) in * by lia.
  run_with idtac. rewrite <- ?Et. run_with ltac:(apply Hv0; lia).
  run_with idtac. rewrite <- ?Et. run_with ltac:(apply Hv0; lia).
  run_with idtac. rewrite ret_run, <- ?Et.
  unfold payload. rewrite wrap_small by lia.
  eexists. split; [reflexivity|]. cbn [mem global_base last os].
  repeat split; try done.
  set (st' := mk_state _ _ _ _).
  assert (∀ y, y ∈ l → y ≠ tail →
            peek st' (f_size y) = peek st (f_size y)
            ∧ peek st' (f_status y) = peek st (f_status y)
            ∧ peek st' (f_next y) = peek st (f_next y)) as Hfr.
  { intros y Hy Hne. destruct (Hl y Hy) as (Hy0 & Hy1 & _).
    unfold st'. fields.
    rewrite ?(wrap_small (y + _)), ?(wrap_small (tail + _)) by lia.
    repeat split; peeks; reflexivity. }
  assert (peek st' (f_next tail) = peek st (f_next tail)) as Hnt.
  { unfold st'. fields.
    rewrite ?(wrap_small (tail + _)) by lia. peeks. reflexivity. }
  rewrite (directory_chain st _ Hc). unfold directory.
  rewrite (walk_frame st st' _ l Hc).
  2: { intros y Hy. destruct (Z.eq_dec y tail) as [->|Hne]; [done|]. by apply Hfr. }
  2: { pose proof (chain_fuel _ _ Hc) as Hf. unfold loop_fuel in *.
       unfold st'. cbn [mem].
       pose proof (size_insert_le (mem st) tail size).
       pose proof (size_insert_le (<[tail := size]> (mem st)) (tail + 8) 1). lia. }
  rewrite <- list_fmap_compose. apply list_fmap_ext.
  intros i y Hy%list_elem_of_lookup_2. unfold compose, entry. cbn [fst].
  destruct (Z.eqb_spec y tail) as [->|Hne].
  - unfold st'. fields.
    rewrite ?(wrap_small (tail + _)) by lia. peeks. reflexivity.
  - destruct (Hfr y Hy Hne) as (-> & -> & _). reflexivity.
Qed.

(** ** Resizing *)

Lemma wrap_wrap_sub x y : wrap (wrap x - y) = wrap (x - y).
Proof. unfold wrap. apply Zminus_mod_idemp_l. Qed.

Lemma to_int_wrap x : - 2 ^ 31 ≤ x < 2 ^ 31 → to_int (wrap x) = x.
Proof.
  intros Hx. unfold to_int, wrap.
  rewrite (Z.mod_mod_divide x (2 ^ 64) (2 ^ 32)) by (exists (2 ^ 32); lia).
  destruct (Z.lt_ge_cases x 0) as [Hneg|Hpos].
  - assert (x mod 2 ^ 32 = x + 2 ^ 32) as ->.
    { symmetry. apply Z.mod_unique with (-1); lia. }
    destruct (Z.ltb_spec (x + 2 ^ 32) (2 ^ 31)); lia.
  - rewrite Z.mod_small by lia.
    destruct (Z.ltb_spec x (2 ^ 31)); lia.
Qed.

Lemma split_realloc_no_room s b ptr size :
  valid (os s) (f_size b) = true →
  to_int (wrap (wrap (peek s (f_size b) - align size) - META_SIZE)) ≤ 0 →
  split_realloc b ptr size s
  = Ok (payload b) (with_mem (<[f_size b := align size]> (mem s)) s).
Proof.
  intros Hv Hrem. unfold split_realloc, get_size, set_size. cbv zeta.
  rewrite bind_load_ok by done.
  destruct (Z.leb_spec
              (to_int (wrap (wrap (peek s (f_size b) - align size) - META_SIZE))) 0)
    as [_|]; [|lia].
  rewrite bind_store_ok by done. reflexivity.
Qed.

Lemma split_realloc_heap s b ptr size :
  let asz := align size in
  let bsz := peek s (f_size b) in
  let rem := bsz - asz - META_SIZE in
  let r := b + asz + META_SIZE in
  let next := peek s (f_next b) in
  0 ≤ b → b + META_SIZE + bsz < 2 ^ 64 →
  (∀ a, b ≤ a → a + 8 ≤ b + META_SIZE + bsz → valid (os s) a = true) →
  0 ≤ bsz → peek s (f_status b) = 1 → - 2 ^ 31 ≤ rem →
  (next ≠ NULL → b + META_SIZE + bsz ≤ next ∧ next + META_SIZE ≤ 2 ^ 64
                 ∧ valid (os s) (f_prev next) = true) →
  (to_int (wrap rem) ≤ 0 →
     split_realloc b ptr size s
     = Ok (b + META_SIZE) (with_mem (<[f_size b := asz]> (mem s)) s))
  ∧ (0 < to_int (wrap rem) →
     ∃ s', split_realloc b ptr size s = Ok (b + META_SIZE) s'
       ∧ 0 < rem
       ∧ entry s' b = (b, asz, 1)
       ∧ entry s' r = (r, rem, 0)
       ∧ peek s' (f_next b) = r ∧ peek s' (f_prev b) = peek s (f_prev b)
       ∧ peek s' (f_prev r) = b ∧ peek s' (f_next r) = next
       ∧ (next ≠ NULL → peek s' (f_prev next) = r)
       ∧ last s' = last s
       ∧ global_base s' = global_base s ∧ os s' = os s
       ∧ (∀ x, ¬ (b ≤ x < b + META_SIZE) → ¬ (r ≤ x < r + META_SIZE) →
               x ≠ f_prev next → peek s' x = peek s x)).
Proof.
  intros asz bsz rem r next Hb Hend Hv Hbsz Hst Hrem Hnext.
  pose proof (eq_refl : META_SIZE = 32) as HM.
  pose proof (eq_refl : NULL = 0) as HN.
  pose proof (align_range size) as Ha. fold asz in Ha.
  assert (asz = align size) as Easz by reflexivity.
  assert (bsz = peek s b) as Ebsz by reflexivity.
  assert (next = peek s (b + 24)) as Enext.
  { unfold next, f_next. rewrite wrap_small by lia. reflexivity. }
  assert (rem = bsz - asz - META_SIZE) as Erem by reflexivity.
  assert (r = b + asz + META_SIZE) as Er by reflexivity.
  clearbody asz bsz next r rem.
  unfold split_realloc, payload, entry. cbv zeta. rewrite <- Easz. fields.
  rewrite !(wrap_small (b + _)) in * by lia.
  rewrite bind_load_ok by (apply Hv; lia). rewrite <- Ebsz.
  rewrite wrap_wrap_sub, <- Erem.
  split; intros Hr.
  - destruct (Z.leb_spec (to_int (wrap rem)) 0) as [_|]; [|lia].
    rewrite bind_store_ok by (apply Hv; lia). reflexivity.
  - destruct (Z.leb_spec (to_int (wrap rem)) 0) as [|_]; [lia|].
    assert (0 < rem) as Hpos.
    { destruct (Z.le_gt_cases rem 0) as [Hle|]; [|done].
      rewrite to_int_wrap in Hr by lia. lia. }
    rewrite (wrap_small rem) by lia.
    rewrite !(wrap_small (b + asz + META_SIZE)) by lia. rewrite <- Er.
    rewrite bind_load_ok, Hst by (apply Hv; lia).
    change (1 =? 2) with false. cbv iota.
    rewrite bind_load_ok, Hst by (apply Hv; lia).
    change (1 =? 1) with true. cbv iota.
    rewrite !(wrap_small (r + _)) by lia.
    do 5 run_with ltac:(apply Hv; lia). rewrite <- ?Enext.
    destruct (Z.eqb_spec next NULL) as [Hn|Hn]; cbn [negb]; cbv iota.
    + do 5 run_with ltac:(apply Hv; lia). rewrite ret_run.
      eexists. split; [reflexivity|]. flat. peeks. rewrite <- ?Enext.
      repeat split; try done.
      intros x H1 H2 H3. peeks. reflexivity.
    + destruct (Hnext Hn) as (Hn1 & Hn2 & Hn3).
      rewrite (wrap_small (next + 16)) in * by lia.
      run_with ltac:(apply Hv; lia). rewrite <- ?Enext.
      rewrite (wrap_small (next + 16)) by lia.
      run_with ltac:(done).
      do 4 run_with ltac:(apply Hv; lia). rewrite ret_run.
      eexists. split; [reflexivity|]. flat. peeks. rewrite <- ?Enext.
      repeat split; try done.
      intros x H1 H2 H3. peeks. reflexivity.
Qed.

(** X11.  Shrinking a heap block with [os_realloc].  The block has status
    1; its header and its [bsz] bytes lie in mapped memory; its successor,
    if there is one, starts at or after the end of the block and has a
    mapped [prev] field.  Let [rem = bsz - align n - 32], and let [irem] be
    [rem] read as an [int], which is how [split_realloc] tests it; the two
    agree whenever [bsz < 2 ^ 31].  When [irem ≤ 0] only the size field is
    written, so the block records [align n] although it extends over [bsz]
    bytes.  When [0 < irem], [rem] is positive too, and a Free block of
    [rem] bytes is carved behind the first [align n] bytes and linked in
    before the old successor.  In both cases the pointer stays and [last] is
    not written, also when the block was the directory's tail. *)
Theorem shrink_heap_block st b n :
  let asz := align n in
  let bsz := peek st (f_size b) in
  let rem := bsz - asz - META_SIZE in
  let r := b + asz + META_SIZE in
  let next := peek st (f_next b) in
  0 ≤ b → b + META_SIZE + bsz < 2 ^ 64 →
  (∀ a, b ≤ a → a + 8 ≤ b + META_SIZE + bsz → valid (os st) a = true) →
  0 < n < bsz → peek st (f_status b) = 1 →
  (next ≠ NULL → b + META_SIZE + bsz ≤ next ∧ next + META_SIZE ≤ 2 ^ 64
                 ∧ valid (os st) (f_prev next) = true) →
  (to_int (wrap rem) ≤ 0 →
     os_realloc (b + META_SIZE) n st
     = Ok (b + META_SIZE) (with_mem (<[f_size b := asz]> (mem st)) st))
  ∧ (0 < to_int (wrap rem) →
     ∃ st', os_realloc (b + META_SIZE) n st = Ok (b + META_SIZE) st'
       ∧ 0 < rem
       ∧ entry st' b = (b, asz, 1)
       ∧ entry st' r = (r, rem, 0)
       ∧ peek st' (f_next b) = r ∧ peek st' (f_prev b) = peek st (f_prev b)
       ∧ peek st' (f_prev r) = b ∧ peek st' (f_next r) = next
       ∧ (next ≠ NULL → peek st' (f_prev next) = r)
       ∧ last st' = last st
       ∧ global_base st' = global_base st ∧ os st' = os st
       ∧ (∀ x, ¬ (b ≤ x < b + META_SIZE) → ¬ (r ≤ x < r + META_SIZE) →
               x ≠ f_prev next → peek st' x = peek st x))
  ∧ (bsz < 2 ^ 31 → to_int (wrap rem) = rem).
Proof.
  intros asz bsz rem r next Hb Hend Hv Hn Hst Hnext.
  pose proof (eq_refl : META_SIZE = 32) as HM.
  pose proof (align_bounds n ltac:(lia) ltac:(lia)) as Ha. fold asz in Ha.
  assert (- 2 ^ 31 ≤ rem) as Hrem by (unfold rem; lia).
  assert (os_realloc (b + META_SIZE) n st
          = split_realloc b (b + META_SIZE) n st) as ->.
  { rewrite resize_smaller; rewrite ?header_payload by lia; try lia.
    - reflexivity.
    - unfold f_status. rewrite wrap_small by lia. apply Hv; lia.
    - apply Hv; unfold f_size; lia. }
  destruct (split_realloc_heap st b (b + META_SIZE) n) as [H1 H2];
    try done; try lia.
  split; [exact H1|]. split; [exact H2|].
  intros Hsmall. apply to_int_wrap. unfold rem. lia.
Qed.

Lemma coalesce_allocated_successor st b :
  valid (os st) (f_next b) = true →
  valid (os st) (f_status (peek st (f_next b))) = true →
  peek st (f_status (peek st (f_next b))) ≠ 0 →
  coalesce b st = Ok tt st.
Proof.
  intros Hv1 Hv2 Hst. unfold coalesce, get_next, get_status.
  rewrite !bind_load_ok by done.
  destruct (Z.eqb_spec (peek st (f_status (peek st (f_next b)))) 0); done.
Qed.

Lemma coalesce_free_successor st b :
  let next := peek st (f_next b) in
  let nn := peek st (f_next next) in
  let total :=
    if nn =? NULL
    then wrap (peek st (f_size b) + wrap (peek st (f_size next) + META_SIZE))
    else wrap (peek st (f_size b) + wrap (nn - next)) in
  0 ≤ b → valid (os st) (f_size b) = true → valid (os st) (f_next b) = true →
  b + META_SIZE ≤ next → next + META_SIZE ≤ 2 ^ 64 →
  hdr_valid (os st) next → peek st (f_status next) = 0 →
  (nn ≠ NULL → next + META_SIZE ≤ nn ∧ nn + META_SIZE ≤ 2 ^ 64
               ∧ valid (os st) (f_prev nn) = true) →
  coalesce b st =
  Ok tt (mk_state
           (<[f_next b := nn]>
              ((if nn =? NULL then id else <[f_prev nn := b]>)
                 (<[f_size b := total]> (mem st))))
           (global_base st) (last st) (os st)).
Proof.
  intros next nn total Hb Hv1 Hv4 Hlo Hhi (Hn1 & Hn2 & Hn3 & Hn4) Hst Hnn.
  pose proof (eq_refl : META_SIZE = 32) as HM.
  pose proof (eq_refl : NULL = 0) as HN.
  assert (next = peek st (b + 24)) as Enext
    by (unfold next, f_next; rewrite wrap_small by lia; reflexivity).
  assert (nn = peek st (next + 24)) as Enn
    by (unfold nn, f_next; rewrite !wrap_small by lia; reflexivity).
  assert (total = if nn =? NULL
                  then wrap (peek st b + wrap (peek st next + META_SIZE))
                  else wrap (peek st b + wrap (nn - next))) as Etot
    by reflexivity.
  clearbody next nn total.
  unfold coalesce. fields.
  rewrite !(wrap_small (b + _)), !(wrap_small (next + _)) in * by lia.
  run_with ltac:(done). rewrite <- Enext. run_with ltac:(done).
  rewrite Hst. change (0 =? 0) with true. cbv iota.
  run_with ltac:(done). rewrite <- Enext.
  destruct (Z.eqb_spec next NULL) as [|_]; [lia|]. cbn [negb]. cbv iota.
  run_with ltac:(done). rewrite <- Enext.
  run_with ltac:(done). rewrite <- Enn.
  destruct (Z.eqb_spec nn NULL) as [Hz|Hz].
  - do 4 run_with ltac:(done). rewrite <- Enn, <- Etot, Hz.
    change (negb (NULL =? 0)) with false. cbv iota.
    do 2 run_with ltac:(done). rewrite <- Enn, Hz.
    rewrite store_ok by done. reflexivity.
  - destruct (Hnn Hz) as (Hz1 & Hz2 & Hz3).
    rewrite (wrap_small (nn + 16)) in * by lia.
    do 4 run_with ltac:(done). rewrite <- Enn, <- Etot.
    destruct (Z.eqb_spec nn 0) as [|_]; [done|]. cbn [negb]. cbv iota.
    run_with ltac:(done). rewrite <- ?Enn.
    rewrite (wrap_small (nn + 16)) by lia.
    do 2 run_with ltac:(done). rewrite <- ?Enn.
    rewrite store_ok by done. reflexivity.
Qed.

(** X12.  [coalesce] on a block with a successor.  An allocated successor
    leaves the state as it is.  A Free successor is absorbed: the size
    grows by the successor's size plus a header when nothing follows the
    successor and by the address distance to what follows it otherwise,
    [next] skips the successor and the block after it points back; [last]
    is not written, even when it names the absorbed block. *)
Theorem coalesce_absorbs st b :
  let next := peek st (f_next b) in
  let nn := peek st (f_next next) in
  let total :=
    if nn =? NULL
    then wrap (peek st (f_size b) + wrap (peek st (f_size next) + META_SIZE))
    else wrap (peek st (f_size b) + wrap (nn - next)) in
  0 ≤ b → valid (os st) (f_size b) = true → valid (os st) (f_next b) = true →
  b + META_SIZE ≤ next → next + META_SIZE ≤ 2 ^ 64 →
  hdr_valid (os st) next →
  (nn ≠ NULL → next + META_SIZE ≤ nn ∧ nn + META_SIZE ≤ 2 ^ 64
               ∧ valid (os st) (f_prev nn) = true) →
  (peek st (f_status next) ≠ 0 → coalesce b st = Ok tt st)
  ∧ (peek st (f_status next) = 0 →
     ∃ st', coalesce b st = Ok tt st'
       ∧ mem st' = <[f_next b := nn]>
                     ((if nn =? NULL then id else <[f_prev nn := b]>)
                        (<[f_size b := total]> (mem st)))
       ∧ last st' = last st ∧ global_base st' = global_base st
       ∧ os st' = os st).
Proof.
  intros next nn total Hb Hv1 Hv4 Hlo Hhi Hhn Hnn. split; intros Hst.
  - apply coalesce_allocated_successor; [done|apply Hhn|done].
  - eexists. split; [by apply coalesce_free_successor|]. done.
Qed.

(** [os_realloc] on a block that must grow and has a successor. *)
Lemma resize_with_successor st b n :
  let next := peek st (f_next b) in
  let asz := align n in
  0 ≤ b → b + META_SIZE < 2 ^ 64 → 0 < n →
  valid (os st) (f_status b) = true →
  valid (os st) (f_size b) = true →
  valid (os st) (f_next b) = true →
  peek st (f_status b) ≠ 0 →
  next ≠ NULL →
  peek st (f_size b) < n →
  os_realloc (b + META_SIZE) n st =
  (coalesce b;;
   bsz ← get_size b;
   if bsz =? asz then set_size b asz;; mret (payload b)
   else if asz <=? wrap (wrap (next - b) - META_SIZE)
        then split_realloc b (b + META_SIZE) asz
        else bsz ← get_size b;
             if asz <? bsz then split_realloc b (b + META_SIZE) asz
             else dest ← os_malloc asz;
                  bsz ← get_size b;
                  memcpy dest (b + META_SIZE) bsz;;
                  os_free (b + META_SIZE);;
                  mret dest) st.
Proof.
  intros next asz Hb Hb' Hn Hvst Hvsz Hvn Hst Hnext Hlt.
  pose proof (eq_refl : META_SIZE = 32) as HM.
  unfold os_realloc, os_realloc_with. rewrite header_payload by lia.
  destruct (Z.eqb_spec (b + META_SIZE) NULL) as [E|_]; [unfold NULL in E; lia|].
  destruct (Z.eqb_spec n 0) as [|_]; [lia|].
  unfold get_status, get_size, get_next.
  rewrite bind_load_ok by done.
  destruct (Z.eqb_spec (peek st (f_status b)) 0) as [|_]; [done|].
  rewrite bind_load_ok by done.
  destruct (Z.eqb_spec n (peek st (f_size b))) as [|_]; [lia|].
  rewrite bind_load_ok by done.
  destruct (Z.ltb_spec n (peek st (f_size b))) as [|_]; [lia|].
  rewrite bind_load_ok by done.
  destruct (Z.ltb_spec (peek st (f_size b)) n) as [_|]; [|lia].
  rewrite bind_load_ok by done. fold next.
  destruct (Z.eqb_spec next NULL) as [|_]; [done|].
  rewrite bind_load_ok by done. reflexivity.
Qed.

(** X13.  Growing into the block's own slack.  The block has status 1, a
    mapped header and [bsz < n] bytes; its successor is not Free, has a
    mapped status field, and starts at least [align n] bytes after the
    payload.  [split_realloc] reads [bsz - align n - 32] as an [int]; when
    that reading is not positive, [os_realloc] returns the same pointer and
    writes nothing but the size field, which becomes [align n].  The reading
    is not positive for every [n] up to [2 ^ 31 - 40]. *)
Theorem grow_within_gap st b n :
  let next := peek st (f_next b) in
  let asz := align n in
  let bsz := peek st (f_size b) in
  0 ≤ b → 0 ≤ bsz < n → n + 7 < 2 ^ 64 →
  hdr_valid (os st) b → peek st (f_status b) = 1 →
  b + META_SIZE + asz ≤ next → next + META_SIZE ≤ 2 ^ 64 →
  valid (os st) (f_status next) = true → peek st (f_status next) ≠ 0 →
  (to_int (wrap (bsz - asz - META_SIZE)) ≤ 0 →
   os_realloc (b + META_SIZE) n st
   = Ok (b + META_SIZE) (with_mem (<[f_size b := asz]> (mem st)) st))
  ∧ (n + 40 ≤ 2 ^ 31 → to_int (wrap (bsz - asz - META_SIZE)) ≤ 0).
Proof.
  intros next asz bsz Hb Hbsz Hn (Hv1 & Hv2 & Hv3 & Hv4) Hst Hgap Hhi Hhn Hnst.
  pose proof (eq_refl : META_SIZE = 32) as HM.
  pose proof (eq_refl : NULL = 0) as HN.
  pose proof (align_bounds n ltac:(lia) ltac:(lia)) as Ha. fold asz in Ha.
  pose proof (align_mod8 n) as Ha8. fold asz in Ha8.
  split; [intros Hrem|intros Hsmall; rewrite to_int_wrap; lia].
  rewrite resize_with_successor; fold next; try done; try lia.
  fold asz.
  rewrite (bind_ok _ _ _ _ _ (coalesce_allocated_successor st b Hv4 Hhn Hnst)).
  unfold get_size. rewrite bind_load_ok by done. fold bsz.
  destruct (Z.eqb_spec bsz asz) as [|_]; [lia|].
  assert (wrap (wrap (next - b) - META_SIZE) = next - b - META_SIZE) as ->.
  { rewrite wrap_wrap_sub. apply wrap_small. lia. }
  destruct (Z.leb_spec asz (next - b - META_SIZE)) as [_|]; [|lia].
  rewrite split_realloc_no_room; rewrite ?align_fixed by (done || lia).
  - unfold payload. rewrite wrap_small by lia. reflexivity.
  - done.
  - fold bsz. rewrite wrap_wrap_sub. exact Hrem.
Qed.

(** X14.  Growing into a Free successor.  The block has status 1 and
    [bsz < n] bytes; its successor is Free and starts where the payload
    ends; the header and the bytes of the two blocks lie in mapped memory;
    the successor's successor, if there is one, starts where the successor
    ends and has a mapped [prev] field; and the two blocks together,
    [total = bsz + 32 + nsz], hold [align n].  Let
    [rem = total - align n - 32], and let [irem] be [rem] read as an [int],
    which is how [split_realloc] tests it; the two agree whenever
    [total < 2 ^ 31].  Then [os_realloc] returns the same pointer without
    calling the OS: the block takes over the successor and keeps [align n]
    bytes.  When [0 < irem], [rem] is positive too, and a Free block of
    [rem] bytes is made behind them, in front of the old successor's
    successor.  When [irem ≤ 0] no block is made, and the block is linked
    to the old successor's successor.  The old payload is not touched and
    [last] is not written. *)
Theorem grow_into_free_successor st b n :
  let next := peek st (f_next b) in
  let nn := peek st (f_next next) in
  let bsz := peek st (f_size b) in
  let nsz := peek st (f_size next) in
  let total := bsz + META_SIZE + nsz in
  let asz := align n in
  let rem := total - asz - META_SIZE in
  let r := b + asz + META_SIZE in
  0 ≤ b → 0 ≤ bsz < n → n + 7 < 2 ^ 64 → 0 ≤ nsz → asz ≤ total →
  b + META_SIZE + total < 2 ^ 64 →
  (∀ a, b ≤ a → a + 8 ≤ b + META_SIZE + total → valid (os st) a = true) →
  peek st (f_status b) = 1 →
  next = b + META_SIZE + bsz → peek st (f_status next) = 0 →
  (nn ≠ NULL → nn = next + META_SIZE + nsz ∧ nn + META_SIZE ≤ 2 ^ 64
               ∧ valid (os st) (f_prev nn) = true) →
  (∃ st', os_realloc (b + META_SIZE) n st = Ok (b + META_SIZE) st'
     ∧ peek st' (f_size b) = asz ∧ peek st' (f_status b) = 1
     ∧ (to_int (wrap rem) ≤ 0 → peek st' (f_next b) = nn)
     ∧ (0 < to_int (wrap rem) →
        0 < rem ∧ peek st' (f_next b) = r ∧ entry st' r = (r, rem, 0)
        ∧ peek st' (f_prev r) = b ∧ peek st' (f_next r) = nn)
     ∧ (∀ x, b + META_SIZE ≤ x < b + META_SIZE + bsz → peek st' x = peek st x)
     ∧ last st' = last st ∧ global_base st' = global_base st ∧ os st' = os st)
  ∧ (total < 2 ^ 31 → to_int (wrap rem) = rem).
Proof.
  intros next nn bsz nsz total asz rem r Hb Hbsz Hn Hnsz Hfit Hend Hv Hst
    Hnext Hnst Hnn.
  pose proof (eq_refl : META_SIZE = 32) as HM.
  pose proof (eq_refl : NULL = 0) as HN.
  pose proof (align_bounds n ltac:(lia) ltac:(lia)) as Ha. fold asz in Ha.
  pose proof (align_mod8 n) as Ha8. fold asz in Ha8.
  split; [|intros Hsmall; apply to_int_wrap; unfold rem; lia].
  assert (next = peek st (f_next b)) as Enext by reflexivity.
  assert (nn = peek st (f_next next)) as Enn by reflexivity.
  assert (bsz = peek st (f_size b)) as Ebsz by reflexivity.
  assert (nsz = peek st (f_size next)) as Ensz by reflexivity.
  assert (total = bsz + META_SIZE + nsz) as Etotal by reflexivity.
  assert (asz = align n) as Easz by reflexivity.
  assert (rem = total - asz - META_SIZE) as Erem by reflexivity.
  assert (r = b + asz + META_SIZE) as Er by reflexivity.
  clearbody next nn bsz nsz total asz rem r.
  assert (peek st (b + 8) = 1) as Hst'.
  { unfold f_status in Hst. rewrite wrap_small in Hst by lia. done. }
  assert (hdr_valid (os st) next) as Hhn.
  { unfold hdr_valid, f_size, f_status, f_prev, f_next.
    rewrite !(wrap_small (next + _)) by lia.
    repeat split; apply Hv; lia. }
  assert (valid (os st) (f_size b) = true ∧ valid (os st) (f_status b) = true
          ∧ valid (os st) (f_next b) = true) as (Hv1 & Hv2 & Hv4).
  { unfold f_size, f_status, f_next. rewrite !(wrap_small (b + _)) by lia.
    repeat split; apply Hv; lia. }
  rewrite resize_with_successor; rewrite <- ?Enext, <- ?Ebsz; try done; try lia.
  rewrite <- Easz.
  pose proof (coalesce_free_successor st b Hb) as Hco.
  cbv zeta in Hco. rewrite <- ?Enext, <- ?Enn, <- ?Ebsz, <- ?Ensz in Hco.
  assert ((if nn =? NULL then wrap (bsz + wrap (nsz + META_SIZE))
           else wrap (bsz + wrap (nn - next))) = total) as Etot.
  { destruct (Z.eqb_spec nn NULL) as [|Hz].
    - rewrite (wrap_small (nsz + META_SIZE)), wrap_small by lia. lia.
    - destruct (Hnn Hz) as (Hz1 & _ & _).
      rewrite (wrap_small (nn - next)), wrap_small by lia. lia. }
  rewrite Etot in Hco.
  rewrite (bind_ok _ _ _ _ _ (Hco Hv1 Hv4 ltac:(lia) ltac:(lia) Hhn Hnst
     ltac:(intros Hz; destruct (Hnn Hz) as (? & ? & ?); repeat split; [lia|lia|done]))).
  clear Hco.
  set (s1 := mk_state _ _ _ _).
  assert (nn ≠ NULL → wrap (nn + 16) = nn + 16) as Enn16.
  { intros Hz. destruct (Hnn Hz) as (? & ? & ?). apply wrap_small. lia. }
  assert (∀ x, b + META_SIZE ≤ x < b + META_SIZE + total →
               peek s1 x = peek st x) as Hs1.
  { intros x Hx. unfold s1, f_size, f_next, f_prev.
    rewrite ?(wrap_small (b + _)) by lia.
    destruct (Z.eqb_spec nn NULL) as [|Hz]; unfold id.
    - peeks. reflexivity.
    - destruct (Hnn Hz) as (? & ? & ?). rewrite Enn16 by done. peeks. reflexivity. }
  assert (peek s1 (f_size b) = total ∧ peek s1 (f_status b) = 1
          ∧ peek s1 (f_next b) = nn) as (Hs1a & Hs1b & Hs1c).
  { unfold s1, f_size, f_status, f_next, f_prev in *.
    rewrite ?(wrap_small (b + _)) in * by lia.
    destruct (Z.eqb_spec nn NULL) as [|Hz]; unfold id.
    - repeat split; peeks; done.
    - destruct (Hnn Hz) as (? & ? & ?). rewrite Enn16 by done.
      repeat split; peeks; done. }
  unfold get_size, set_size.
  rewrite bind_load_ok by done. rewrite Hs1a.
  destruct (Z.eqb_spec total asz) as [E|E].
  - rewrite bind_store_ok by done. rewrite ret_run.
    unfold payload. rewrite wrap_small by lia.
    assert (to_int (wrap rem) = rem) as ->.
    { apply to_int_wrap. lia. }
    eexists. split; [reflexivity|].
    unfold s1. flat. unfold f_size, f_status, f_next, f_prev.
    rewrite ?(wrap_small (b + _)) by lia.
    destruct (Z.eqb_spec nn NULL) as [|Hz]; unfold id.
    + repeat split; try done; try lia; intros; peeks; try done.
    + destruct (Hnn Hz) as (? & ? & ?). rewrite Enn16 by done.
      repeat split; try done; try lia; intros; peeks; try done.
  - assert (wrap (wrap (next - b) - META_SIZE) = bsz) as ->.
    { rewrite wrap_wrap_sub, wrap_small; lia. }
    destruct (Z.leb_spec asz bsz) as [|_]; [lia|].
    rewrite bind_load_ok by done. rewrite Hs1a.
    destruct (Z.ltb_spec asz total) as [_|]; [|lia].
    destruct (split_realloc_heap s1 b (b + META_SIZE) asz) as [H1 H2];
      rewrite ?Hs1a, ?Hs1b, ?Hs1c, ?(align_fixed asz) by (done || lia);
      try done; try lia.
    { intros Hz. destruct (Hnn Hz) as (? & ? & ?). repeat split; [lia|lia|done]. }
    rewrite ?Hs1a, ?Hs1b, ?Hs1c, ?(align_fixed asz) in * by (done || lia).
    rewrite <- ?Erem, <- ?Er in H1, H2.
    destruct (Z.le_gt_cases (to_int (wrap rem)) 0) as [Hr|Hr].
    + rewrite (H1 Hr). eexists. split; [reflexivity|].
      unfold s1. flat. unfold f_size, f_status, f_next, f_prev.
      rewrite ?(wrap_small (b + _)) by lia.
      destruct (Z.eqb_spec nn NULL) as [|Hz]; unfold id.
      * repeat split; try done; try lia; intros; peeks; try done.
      * destruct (Hnn Hz) as (? & ? & ?). rewrite Enn16 by done.
        repeat split; try done; try lia; intros; peeks; try done.
    + destruct (H2 Hr) as (s2 & Hrun & Hpos & He1 & He2 & Hl1 & Hl2 & Hl3 & Hl4
                           & _ & Hla & Hgb & Hos & Hfr).
      rewrite Hrun. exists s2. split; [reflexivity|].
      unfold entry in He1. injection He1 as He1a He1b.
      subst r rem.
      repeat split; try done; try lia.
      intros x Hx. rewrite Hfr, Hs1; try done; try lia.
      destruct (Z.eq_dec nn NULL) as [->|Hz].
      * unfold f_prev, NULL. rewrite wrap_small by lia. lia.
      * destruct (Hnn Hz) as (? & ? & ?). unfold f_prev.
        rewrite Enn16 by done. lia.
Qed.

(** X15.  Growing next to an allocated successor.  When the successor is
    allocated and the room up to it is smaller than the rounded new size,
    [os_realloc] relocates: [os_malloc] of the rounded size, [memcpy] of as
    many bytes as the old block's size field says, [os_free] of the old
    pointer; the new pointer is returned. *)
Theorem grow_relocates st b n :
  let next := peek st (f_next b) in
  let asz := align n in
  let bsz := peek st (f_size b) in
  0 ≤ b → b + META_SIZE ≤ next → next + META_SIZE ≤ 2 ^ 64 →
  0 ≤ bsz < n → n + 7 < 2 ^ 64 →
  hdr_valid (os st) b → peek st (f_status b) ≠ 0 →
  valid (os st) (f_status next) = true → peek st (f_status next) ≠ 0 →
  next - b - META_SIZE < asz →
  os_realloc (b + META_SIZE) n st = relocate (b + META_SIZE) asz st.
Proof.
  intros next asz bsz Hb Hlo Hhi Hbsz Hn (Hv1 & Hv2 & Hv3 & Hv4) Hst Hhn Hnst Hgap.
  pose proof (eq_refl : META_SIZE = 32) as HM.
  pose proof (eq_refl : NULL = 0) as HN.
  pose proof (align_bounds n ltac:(lia) ltac:(lia)) as Ha. fold asz in Ha.
  rewrite resize_with_successor; fold next; try done; try lia.
  fold asz.
  rewrite (bind_ok _ _ _ _ _ (coalesce_allocated_successor st b Hv4 Hhn Hnst)).
  unfold get_size. rewrite bind_load_ok by done. fold bsz.
  destruct (Z.eqb_spec bsz asz) as [|_]; [lia|].
  assert (wrap (wrap (next - b) - META_SIZE) = next - b - META_SIZE) as ->.
  { rewrite wrap_wrap_sub. apply wrap_small. lia. }
  destruct (Z.leb_spec asz (next - b - META_SIZE)) as [|_]; [lia|].
  rewrite bind_load_ok by done. fold bsz.
  destruct (Z.ltb_spec asz bsz) as [|_]; [lia|].
  unfold relocate. rewrite header_payload by lia. reflexivity.
Qed.

(** ** What no entry point does *)

Create HintDb preserves.

Section preserves.
Variable R : state → state → Prop.
Hypothesis R_refl : ∀ s, R s s.
Hypothesis R_trans : ∀ s1 s2 s3, R s1 s2 → R s2 s3 → R s1 s3.

Lemma preserves_ret {A} (a : A) : preserves R (mret a : M A).
Proof. intros s a' s' [= _ <-]. apply R_refl. Qed.

Lemma preserves_bind {A B} (m : M A) (f : A → M B) :
  preserves R m → (∀ a, preserves R (f a)) → preserves R (m ≫= f).
Proof.
  intros Hm Hf s b s2 (a & s1 & H1 & H2)%bind_inv.
  eapply R_trans; [eapply Hm | eapply Hf]; eassumption.
Qed.

Lemma preserves_load a : preserves R (load a).
Proof.
  intros s v s'. unfold load. destruct (valid (os s) a); [|discriminate].
  intros [= _ <-]. apply R_refl.
Qed.

Lemma preserves_get_last : preserves R get_last.
Proof. intros s v s' [= _ <-]. apply R_refl. Qed.

Lemma preserves_get_global_base : preserves R get_global_base.
Proof. intros s v s' [= _ <-]. apply R_refl. Qed.

Lemma preserves_get_state : preserves R get_state.
Proof. intros s v s' [= _ <-]. apply R_refl. Qed.

Lemma preserves_getpagesize : preserves R getpagesize.
Proof. intros s v s' [= _ <-]. apply R_refl. Qed.

Lemma preserves_DIE c msg : preserves R (DIE c msg).
Proof.
  intros s v s'. unfold DIE. destruct c; [discriminate|].
  intros H. inversion H. apply R_refl.
Qed.

Hypothesis R_store : ∀ a v, preserves R (store a v).
Hypothesis R_set_last : ∀ b, preserves R (set_last b).

Ltac step :=
  first [ solve [auto with preserves]
        | apply preserves_ret | apply preserves_load | apply preserves_get_last
        | apply preserves_get_global_base | apply preserves_get_state
        | apply preserves_getpagesize | apply preserves_DIE
        | apply R_store | apply R_set_last
        | apply preserves_bind; [|intros ?]
        | match goal with
          | |- preserves _ (if ?c then _ else _) => destruct c
          | |- preserves _ (match ?p with (_, _) => _ end) => destruct p
          end ].
Ltac steps := cbv zeta; repeat step.

Lemma preserves_memset_cells n : ∀ p w, preserves R (memset_cells n p w).
Proof. induction n as [|n IH]; intros p w; simpl; steps; apply IH. Qed.
#[local] Hint Resolve preserves_memset_cells : preserves.

Lemma preserves_store_low r d w : preserves R (store_low r d w).
Proof. unfold store_low. steps. Qed.
#[local] Hint Resolve preserves_store_low : preserves.

Lemma preserves_memset p c n : preserves R (memset p c n).
Proof.
  unfold memset. steps.
Qed.
#[local] Hint Resolve preserves_memset : preserves.

Lemma preserves_memcpy_cells n : ∀ d s, preserves R (memcpy_cells n d s).
Proof. induction n as [|n IH]; intros d s; simpl; steps; apply IH. Qed.
#[local] Hint Resolve preserves_memcpy_cells : preserves.

Lemma preserves_memcpy d s n : preserves R (memcpy d s n).
Proof.
  unfold memcpy. steps.
Qed.
#[local] Hint Resolve preserves_memcpy : preserves.

Lemma preserves_find_best_loop fuel : ∀ size bfs bfb b,
  preserves R (find_best_loop fuel size bfs bfb b).
Proof.
  induction fuel as [|fuel IH]; intros size bfs bfb b; simpl.
  - intros s a s'. discriminate.
  - unfold get_status, get_size, get_next. steps; apply IH.
Qed.
#[local] Hint Resolve preserves_find_best_loop : preserves.

Lemma preserves_find_best_block size : preserves R (find_best_block size).
Proof. unfold find_best_block. steps. Qed.
#[local] Hint Resolve preserves_find_best_block : preserves.

Lemma preserves_try_split b size : preserves R (try_split b size).
Proof.
  unfold try_split, get_size, get_next, set_size, set_status, set_next, set_prev.
  steps.
Qed.
#[local] Hint Resolve preserves_try_split : preserves.

Lemma preserves_coalesce b : preserves R (coalesce b).
Proof.
  unfold coalesce, get_size, get_next, get_status, set_size, set_next, set_prev.
  steps.
Qed.
#[local] Hint Resolve preserves_coalesce : preserves.

Hypothesis R_munmap : ∀ a n, preserves R (munmap a n).

Lemma preserves_os_free ptr : preserves R (os_free ptr).
Proof.
  unfold os_free, get_size, get_next, get_prev, get_status,
    set_size, set_status, set_next, set_prev.
  steps.
Qed.
#[local] Hint Resolve preserves_os_free : preserves.

Hypothesis R_sbrk : ∀ n, preserves R (sbrk n).
Hypothesis R_mmap : ∀ n, preserves R (mmap n).
Hypothesis R_preallocate : ∀ size s a s',
  global_base s = NULL → preallocate size s = Ok a s' → R s s'.

Lemma preserves_request_mmap size : preserves R (request_mmap size).
Proof. unfold request_mmap, set_size, set_status. steps. Qed.
#[local] Hint Resolve preserves_request_mmap : preserves.

Lemma preserves_expand_last size : preserves R (expand_last size).
Proof. unfold expand_last, set_size, set_status. steps. Qed.
#[local] Hint Resolve preserves_expand_last : preserves.

Lemma preserves_create_new_block size : preserves R (create_new_block size).
Proof.
  unfold create_new_block, set_size, set_status, set_next, set_prev. steps.
Qed.
#[local] Hint Resolve preserves_create_new_block : preserves.

Lemma preserves_os_malloc size : preserves R (os_malloc size).
Proof.
  unfold os_malloc. destruct (size <=? 0); [apply preserves_ret|]. cbv zeta.
  destruct (align size <? MMAP_THRESHOLD); [|apply preserves_request_mmap].
  intros s a s'. rewrite bind_get_global_base.
  destruct (Z.eqb_spec (global_base s) NULL) as [Hb|Hb].
  - by apply R_preallocate.
  - revert s Hb a s'.
    assert (preserves R
              (best_fit_block ← find_best_block (align size);
               if negb (best_fit_block =? NULL)
               then try_split best_fit_block (align size)
               else l ← get_last; lst ← get_status l;
                    if lst =? 0
                    then l ← get_last; lsz ← get_size l;
                         if lsz <? align size then expand_last (align size)
                         else create_new_block (align size)
                    else create_new_block (align size))) as H.
    { unfold get_status, get_size. steps. }
    intros s _ a s'. apply H.
Qed.
#[local] Hint Resolve preserves_os_malloc : preserves.

Lemma preserves_os_calloc nmemb size : preserves R (os_calloc nmemb size).
Proof.
  unfold os_calloc, set_size, set_status. steps.
Qed.
#[local] Hint Resolve preserves_os_calloc : preserves.

Lemma preserves_split_realloc b ptr size : preserves R (split_realloc b ptr size).
Proof.
  unfold split_realloc, get_size, get_status, get_next,
    set_size, set_status, set_next, set_prev.
  steps.
Qed.
#[local] Hint Resolve preserves_split_realloc : preserves.

Lemma preserves_os_realloc ptr size : preserves R (os_realloc ptr size).
Proof.
  unfold os_realloc, os_realloc_with, get_size, get_status, get_next,
    set_size, set_status.
  steps.
Qed.

End preserves.

Lemma base_stable_refl s : base_stable s s.
Proof. by intros _. Qed.

Lemma base_stable_trans s1 s2 s3 :
  base_stable s1 s2 → base_stable s2 s3 → base_stable s1 s3.
Proof. unfold base_stable. intros H1 H2 Hb. rewrite H2; rewrite H1; done. Qed.

Lemma os_quiet_refl s : os_quiet s s.
Proof. done. Qed.

Lemma os_quiet_trans s1 s2 s3 : os_quiet s1 s2 → os_quiet s2 s3 → os_quiet s1 s3.
Proof. unfold os_quiet. intros (?&?&?) (?&?&?). repeat split; congruence. Qed.

Lemma store_same_but_mem a v s u s' :
  store a v s = Ok u s' →
  global_base s' = global_base s ∧ last s' = last s ∧ os s' = os s.
Proof. intros [_ ->]%store_inv. done. Qed.

Lemma sbrk_same_but_break n s a s' :
  sbrk n s = Ok a s' →
  mem s' = mem s ∧ global_base s' = global_base s ∧ last s' = last s.
Proof.
  unfold sbrk. destruct (to_signed n =? 0); [by intros [= _ <-]|].
  destruct (_ && _); by intros [= _ <-].
Qed.

Lemma mmap_same_globals n s a s' :
  mmap n s = Ok a s' →
  global_base s' = global_base s ∧ last s' = last s ∧ brk (os s') = brk (os s).
Proof. unfold mmap. destruct (_ && _); by intros [= _ <-]. Qed.

Lemma munmap_same_but_maps a n s r s' :
  munmap a n s = Ok r s' →
  mem s' = mem s ∧ global_base s' = global_base s ∧ last s' = last s
  ∧ brk (os s') = brk (os s) ∧ mmap_next (os s') = mmap_next (os s).
Proof. unfold munmap. destruct (_ && _); by intros [= _ <-]. Qed.

(** X16.  Once [global_base] is set, no entry point changes it: whenever
    [os_malloc], [os_free], [os_calloc] or [os_realloc] returns, the
    directory still starts at the same block. *)
Theorem global_base_never_moves s s' :
  global_base s ≠ NULL →
  (∀ n p, os_malloc n s = Ok p s' → global_base s' = global_base s)
  ∧ (∀ p u, os_free p s = Ok u s' → global_base s' = global_base s)
  ∧ (∀ nmemb n p, os_calloc nmemb n s = Ok p s' → global_base s' = global_base s)
  ∧ (∀ p n q, os_realloc p n s = Ok q s' → global_base s' = global_base s).
Proof.
  intros Hb.
  assert (∀ a v, preserves base_stable (store a v)) as Hstore.
  { intros a v s0 u s1 (H & _ & _)%store_same_but_mem _. done. }
  assert (∀ b, preserves base_stable (set_last b)) as Hlast.
  { intros b s0 u s1 H _. inversion H. done. }
  assert (∀ a n, preserves base_stable (munmap a n)) as Hmunmap.
  { intros a n s0 u s1 (_ & H & _)%munmap_same_but_maps _. done. }
  assert (∀ n, preserves base_stable (sbrk n)) as Hsbrk.
  { intros n s0 u s1 (_ & H & _)%sbrk_same_but_break _. done. }
  assert (∀ n, preserves base_stable (mmap n)) as Hmmap.
  { intros n s0 u s1 (H & _)%mmap_same_globals _. done. }
  assert (∀ size s0 a s1, global_base s0 = NULL →
            preallocate size s0 = Ok a s1 → base_stable s0 s1) as Hpre.
  { intros size s0 a s1 H0 _ H1. done. }
  repeat split.
  - intros n p H.
    by apply (preserves_os_malloc base_stable base_stable_refl base_stable_trans
                Hstore Hlast Hsbrk Hmmap Hpre n s p s').
  - intros p u H.
    by apply (preserves_os_free base_stable base_stable_refl base_stable_trans
                Hstore Hlast Hmunmap p s u s').
  - intros nmemb n p H.
    by apply (preserves_os_calloc base_stable base_stable_refl base_stable_trans
                Hstore Hlast Hsbrk Hmmap Hpre nmemb n s p s').
  - intros p n q H.
    by apply (preserves_os_realloc base_stable base_stable_refl base_stable_trans
                Hstore Hlast Hmunmap Hsbrk Hmmap Hpre p n s q s').
Qed.

(** X17.  [os_free] gives heap memory back to nobody and takes none:
    whenever it returns, the break, the address of the next mapping and
    [global_base] are what they were. *)
Theorem release_keeps_break p s u s' :
  os_free p s = Ok u s' → os_quiet s s'.
Proof.
  apply (preserves_os_free os_quiet os_quiet_refl os_quiet_trans).
  - intros a v s0 u0 s1 (H1 & H2 & H3)%store_same_but_mem.
    unfold os_quiet. rewrite H3. done.
  - intros b s0 u0 s1 H. inversion H. done.
  - intros a n s0 u0 s1 (_ & H1 & _ & H2 & H3)%munmap_same_but_maps. done.
Qed.

(** X18.  The rounding [(size + 7) & ~7] that every entry point applies to
    a [size_t]: the result is a multiple of 8, rounding is idempotent and
    fixes multiples of 8; it is the least multiple of 8 at or above [n]
    unless [n + 7] overflows, and then it is 0. *)
Theorem align_rounds_up n :
  0 ≤ n < 2 ^ 64 →
  align n mod 8 = 0
  ∧ align (align n) = align n
  ∧ (n mod 8 = 0 → align n = n)
  ∧ (n + 7 < 2 ^ 64 → n ≤ align n < n + 8)
  ∧ (2 ^ 64 ≤ n + 7 → align n = 0).
Proof.
  intros Hn. repeat split.
  - apply align_mod8.
  - apply align_fixed; [apply align_range|apply align_mod8].
  - intros H8. by apply align_fixed.
  - apply align_bounds; lia.
  - apply align_bounds; lia.
  - intros Hw. rewrite align_div.
    assert (wrap (n + 7) = n + 7 - 2 ^ 64) as ->.
    { unfold wrap. symmetry. apply Z.mod_unique with 1; lia. }
    rewrite Z.div_small by lia. reflexivity.
Qed.


(** * The further properties at concrete inputs *)

(** A closed fact about the state [st] that a scenario ends in. *)
Ltac run st := subst st; evaluate.
Ltac run_hdr st := subst st; repeat split; evaluate.

(** X1 on a fresh process: a request of 100 bytes, and one of 131064 bytes,
    whose payload ends 24 bytes beyond the break. *)
Lemma first_allocation_witness :
  (∃ st', os_malloc 100 init = Ok 16777248 st'
          ∧ directory st' = [(16777216, 104, 1)]
          ∧ global_base st' = 16777216 ∧ last st' = 16777216
          ∧ brk (os st') = 16908288)
  ∧ (∃ st', os_malloc 131064 init = Ok 16777248 st'
            ∧ brk (os st') < 16777248 + 131064).
Proof.
  split.
  - destruct (first_allocation init 100) as
      (st' & Hrun & Hgb & Hl & Hos & Hdir & _); [evaluate..|].
    exists st'. rewrite Hos.
    split; [exact Hrun|]. split; [exact Hdir|]. split; [exact Hgb|].
    split; [exact Hl|reflexivity].
  - destruct (first_allocation init 131064) as
      (st' & Hrun & _ & _ & _ & _ & _ & _ & _ & Hedge); [evaluate..|].
    exists st'. split; [exact Hrun|]. apply Hedge. reflexivity.
Defined.

(** X2 on a fresh process and 200000 bytes. *)
Lemma large_allocation_witness :
  ∃ st', os_malloc 200000 init = Ok 1099511627808 st'
         ∧ peek st' 1099511627776 = 200000
         ∧ peek st' 1099511627784 = 2
         ∧ maps (os st') = [(1099511627776, 1099511828480)]
         ∧ global_base st' = NULL.
Proof.
  destruct (large_allocation init 200000) as
    (st' & Hrun & Hsz & Hst & _ & Hgb & _ & Hos); [evaluate..|].
  exists st'. rewrite Hos.
  split; [exact Hrun|]. split; [exact Hsz|]. split; [exact Hst|].
  split; [reflexivity|exact Hgb].
Defined.

(** X3 on the mapped block of 200000 bytes. *)
Lemma release_mapped_block_witness :
  ∃ st', os_free 1099511627808 (after (os_malloc 200000) init) = Ok tt st'
         ∧ maps (os st') = [] ∧ mem st' = mem (after (os_malloc 200000) init).
Proof.
  destruct (release_mapped_block (after (os_malloc 200000) init) 1099511627808)
    as (st' & Hrun & Hmem & _ & _ & Hos); [evaluate..|].
  exists st'. rewrite Hos. split; [exact Hrun|]. split; [evaluate|exact Hmem].
Defined.

(** X4 on a fresh process and 200000 bytes. *)
Lemma large_allocation_released_witness :
  ∃ st', (p ← os_malloc 200000; os_free p;; mret p) init = Ok 1099511627808 st'
         ∧ maps (os st') = [] ∧ brk (os st') = 16777216
         ∧ mmap_next (os st') = 1099511828480.
Proof.
  destruct (large_allocation_released init 200000) as
    (st' & Hrun & Hos & _); [evaluate..|constructor|].
  exists st'. rewrite Hos. split; [exact Hrun|]. evaluate.
Defined.

(** X5 on a Free block of 1000 bytes and a request of 100. *)
Lemma try_split_carves_witness :
  ∃ st', try_split 16777216 100 (after released_only_block init)
         = Ok 16777248 st'
         ∧ entry st' 16777216 = (16777216, 100, 1)
         ∧ entry st' 16777348 = (16777348, 868, 0)
         ∧ last st' = 16777348.
Proof.
  remember (after released_only_block init) as st eqn:Est.
  assert (peek st (f_size 16777216) = 1000) as Hsz by run st.
  assert (peek st (f_next 16777216) = NULL) as Hn by run st.
  assert (brk_start (os st) = 16777216) as Hlo by run st.
  assert (brk (os st) = 16908288) as Hhi by run st.
  pose proof (try_split_carves st 16777216 100) as H. cbv zeta in H.
  rewrite Hsz, Hn in H.
  destruct H as [_ H].
  - lia.
  - unfold META_SIZE. lia.
  - intros a H1 H2. apply valid_in_heap; unfold NULL_PAGE, META_SIZE in *; lia.
  - lia.
  - intros Hne. exfalso. apply Hne. reflexivity.
  - destruct H as (st' & Hrun & He1 & He2 & _ & _ & _ & _ & _ & Hl & _);
      [unfold META_SIZE; lia|].
    exists st'. split; [exact Hrun|]. split; [exact He1|]. split; [exact He2|].
    exact Hl.
Defined.

(** X6 on a block of 4000 bytes followed by a Free block of 104. *)
Lemma release_merges_successor_witness :
  directory (after heap_with_free_successor init)
  = [(16777216, 8, 1); (16908288, 4000, 1); (16912320, 104, 0);
     (16912456, 104, 1)]
  ∧ ∃ st', os_free 16908320 (after heap_with_free_successor init) = Ok tt st'
           ∧ directory st'
             = [(16777216, 8, 1); (16908288, 4136, 0); (16912456, 104, 1)]
           ∧ peek st' (f_prev 16912456) = 16908288.
Proof.
  split; [evaluate|].
  remember (after heap_with_free_successor init) as st eqn:Est.
  assert (peek st (f_next 16908288) = 16912320) as Hn by run st.
  assert (peek st (f_prev 16908288) = 16777216) as Hp by run st.
  assert (peek st (f_next 16912320) = 16912456) as Hnn by run st.
  pose proof (release_merges_successor st 16908288) as H.
  cbv zeta in H. rewrite Hn, Hp, Hnn in H.
  eexists. split; [apply H|].
  - lia.
  - run_hdr st.
  - run st.
  - right. split; [run st|]. subst st. vm_compute. discriminate.
  - unfold META_SIZE. lia.
  - unfold META_SIZE. lia.
  - run_hdr st.
  - run st.
  - intros _. run st.
  - subst st. evaluate.
Defined.

(** X7 on a block of 104 bytes behind a Free block of 104. *)
Lemma release_merges_predecessor_witness :
  directory (after free_predecessor init)
  = [(16777216, 8, 1); (16908288, 104, 0); (16908424, 104, 1);
     (16908560, 8, 1)]
  ∧ ∃ st', os_free 16908456 (after free_predecessor init) = Ok tt st'
           ∧ directory st'
             = [(16777216, 8, 1); (16908288, 240, 0); (16908560, 8, 1)]
           ∧ peek st' (f_status 16908424) = 1.
Proof.
  split; [evaluate|].
  remember (after free_predecessor init) as st eqn:Est.
  assert (peek st (f_next 16908424) = 16908560) as Hn by run st.
  assert (peek st (f_prev 16908424) = 16908288) as Hp by run st.
  pose proof (release_merges_predecessor st 16908424) as H.
  cbv zeta in H. rewrite Hn, Hp in H.
  eexists. split; [apply H|].
  - lia.
  - unfold META_SIZE. lia.
  - run_hdr st.
  - run st.
  - unfold NULL. lia.
  - unfold META_SIZE. lia.
  - run_hdr st.
  - run st.
  - right. unfold META_SIZE. split; [lia|]. split; [lia|].
    split; [run st|]. split; [run st|]. subst st. vm_compute. discriminate.
  - subst st. evaluate.
Defined.

(** X8 on a block of 200 bytes between Free blocks of 104 and 304. *)
Lemma release_merges_both_witness :
  directory (after free_neighbours init)
  = [(16777216, 8, 1); (16908288, 104, 0); (16908424, 200, 1);
     (16908656, 304, 0); (16908992, 8, 1)]
  ∧ ∃ st', os_free 16908456 (after free_neighbours init) = Ok tt st'
           ∧ entry st' 16908288 = (16908288, 672, 0)
           ∧ peek st' (f_next 16908288) = 16908992
           ∧ peek st' (f_prev 16908992) = 16908288.
Proof.
  split; [evaluate|].
  remember (after free_neighbours init) as st eqn:Est.
  assert (peek st (f_next 16908424) = 16908656) as Hn by run st.
  assert (peek st (f_prev 16908424) = 16908288) as Hp by run st.
  assert (peek st (f_next 16908656) = 16908992) as Hnn by run st.
  assert (peek st (f_size 16908288) = 104) as H1 by run st.
  assert (peek st (f_size 16908424) = 200) as H2 by run st.
  assert (peek st (f_size 16908656) = 304) as H3 by run st.
  pose proof (release_merges_both st 16908424) as H.
  cbv zeta in H. rewrite Hn, Hp, Hnn, H1, H2, H3 in H.
  destruct H as (st' & Hrun & He & Hx & _ & Hy & _).
  - lia.
  - run_hdr st.
  - run st.
  - unfold NULL. lia.
  - unfold META_SIZE. lia.
  - run_hdr st.
  - run st.
  - unfold META_SIZE. lia.
  - unfold META_SIZE. lia.
  - run_hdr st.
  - run st.
  - intros _. unfold META_SIZE. split; [lia|]. split; [lia|]. run st.
  - exists st'. split; [exact Hrun|]. split; [exact He|]. split; [exact Hx|].
    apply Hy. discriminate.
Defined.

(** X9 on a directory of one allocated block and a request of 4000. *)
Lemma allocation_appends_witness :
  directory (after (os_malloc 8) init) = [(16777216, 8, 1)]
  ∧ ∃ st', os_malloc 4000 (after (os_malloc 8) init) = Ok 16908320 st'
           ∧ directory st' = [(16777216, 8, 1); (16908288, 4000, 1)]
           ∧ last st' = 16908288
           ∧ brk (os st') = 16912320.
Proof.
  split; [evaluate|].
  remember (after (os_malloc 8) init) as st eqn:Est.
  assert (global_base st = 16777216) as Hgb by run st.
  assert (last st = 16777216) as Hla by run st.
  assert (brk (os st) = 16908288) as Hbrk by run st.
  assert (directory st = [(16777216, 8, 1)]) as Hd by run st.
  assert (chain st (global_base st) ([] ++ [16777216])) as Hc.
  { rewrite Hgb. apply (chain_step st _ NULL); [discriminate| | |constructor].
    - run_hdr st.
    - run st. }
  pose proof (allocation_appends st [] 4000) as H. cbv zeta in H.
  rewrite Hbrk, Hd, Hla in H.
  destruct H as (st' & Hrun & Hdir & _ & Hl & _ & Hos).
  - lia.
  - evaluate.
  - exact Hc.
  - intros b Hb. apply list_elem_of_In in Hb. destruct Hb.
  - lia.
  - unfold META_SIZE. lia.
  - intros b Hb. apply list_elem_of_In in Hb. cbn [In app] in Hb.
    destruct Hb as [<-|[]]. intros [[Hst _] _].
    assert (peek st (f_status 16777216) = 1) as Hs by run st.
    rewrite Hs in Hst. discriminate.
  - intros Hst.
    assert (peek st (f_status 16777216) = 1) as Hs by run st.
    rewrite Hs in Hst. discriminate.
  - unfold NULL_PAGE. lia.
  - run st.
  - run st.
  - run st.
  - exists st'. rewrite Hos. split; [exact Hrun|]. split; [exact Hdir|].
    split; [exact Hl|reflexivity].
Defined.

(** X10 on a Free tail of 104 bytes and a request of 200, which raises the
    break, and on a released first block of 8 bytes and a request of 16,
    which lowers the break from the end of the slab to the end of the
    block. *)
Lemma allocation_expands_tail_witness :
  (directory (after released_tail init) = [(16777216, 8, 1); (16908288, 104, 0)]
   ∧ brk (os (after released_tail init)) = 16908424
   ∧ ∃ st', os_malloc 200 (after released_tail init) = Ok 16908320 st'
            ∧ directory st' = [(16777216, 8, 1); (16908288, 200, 1)]
            ∧ brk (os st') = 16908520)
  ∧ (directory (after (a ← os_malloc 8; os_free a) init) = [(16777216, 8, 0)]
     ∧ brk (os (after (a ← os_malloc 8; os_free a) init)) = 16908288
     ∧ ∃ st', os_malloc 16 (after (a ← os_malloc 8; os_free a) init)
              = Ok 16777248 st'
              ∧ directory st' = [(16777216, 16, 1)]
              ∧ brk (os st') = 16777264).
Proof.
  split.
  - split; [evaluate|]. split; [evaluate|].
    remember (after released_tail init) as st eqn:Est.
    assert (global_base st = 16777216) as Hgb by run st.
    assert (last st = 16908288) as Hla by run st.
    assert (brk (os st) = 16908424) as Hbrk by run st.
    assert (directory st = [(16777216, 8, 1); (16908288, 104, 0)]) as Hd by run st.
    assert (peek st (f_status 16777216) = 1) as Hs1 by run st.
    assert (peek st (f_size 16908288) = 104) as Hz2 by run st.
    assert (chain st (global_base st) [16777216; 16908288]) as Hc.
    { rewrite Hgb. apply (chain_step st _ 16908288); [discriminate| | |].
      - run_hdr st.
      - run st.
      - apply (chain_step st _ NULL); [discriminate| | |constructor].
        + run_hdr st.
        + run st. }
    pose proof (allocation_expands_tail st [16777216; 16908288] 200) as H.
    cbv zeta in H. rewrite Hbrk, Hd, Hla in H.
    destruct H as (st' & Hrun & _ & Hdir & _ & _ & Hos).
    + lia.
    + evaluate.
    + exact Hc.
    + apply list_elem_of_further, list_elem_of_here.
    + intros b Hb. apply list_elem_of_In in Hb. cbn [In] in Hb.
      destruct Hb as [<-|[<-|[]]].
      * split; [lia|]. split; [right; left; unfold META_SIZE; lia|].
        intros [[Hst _] _]. rewrite Hs1 in Hst. discriminate.
      * split; [lia|]. split; [left; reflexivity|].
        intros [[_ Hsz] _]. rewrite Hz2 in Hsz.
        change (align 200) with 200 in Hsz. lia.
    + run st.
    + rewrite Hz2. change (align 200) with 200. lia.
    + unfold NULL_PAGE. lia.
    + run st.
    + unfold META_SIZE. lia.
    + reflexivity.
    + reflexivity.
    + run st.
    + change (align 200) with 200. unfold META_SIZE. lia.
    + lia.
    + exists st'. rewrite Hos. split; [exact Hrun|]. split; [exact Hdir|].
      reflexivity.
  - split; [evaluate|]. split; [evaluate|].
    remember (after (a ← os_malloc 8; os_free a) init) as st eqn:Est.
    assert (global_base st = 16777216) as Hgb by run st.
    assert (last st = 16777216) as Hla by run st.
    assert (brk (os st) = 16908288) as Hbrk by run st.
    assert (directory st = [(16777216, 8, 0)]) as Hd by run st.
    assert (peek st (f_size 16777216) = 8) as Hz by run st.
    assert (chain st (global_base st) [16777216]) as Hc.
    { rewrite Hgb. apply (chain_step st _ NULL); [discriminate| | |constructor].
      - run_hdr st.
      - run st. }
    pose proof (allocation_expands_tail st [16777216] 16) as H.
    cbv zeta in H. rewrite Hbrk, Hd, Hla in H.
    destruct H as (st' & Hrun & _ & Hdir & _ & _ & Hos).
    + lia.
    + evaluate.
    + exact Hc.
    + apply list_elem_of_here.
    + intros b Hb. apply list_elem_of_In in Hb. cbn [In] in Hb.
      destruct Hb as [<-|[]].
      split; [lia|]. split; [left; reflexivity|].
      intros [[_ Hsz] _]. rewrite Hz in Hsz.
      change (align 16) with 16 in Hsz. lia.
    + run st.
    + rewrite Hz. change (align 16) with 16. lia.
    + unfold NULL_PAGE. lia.
    + run st.
    + unfold META_SIZE. lia.
    + reflexivity.
    + reflexivity.
    + run st.
    + change (align 16) with 16. unfold META_SIZE. lia.
    + lia.
    + exists st'. rewrite Hos. split; [exact Hrun|]. split; [exact Hdir|].
      reflexivity.
Defined.

(** X11 on a block of 1000 bytes resized to 100, where 864 bytes are
    carved off, and resized to 980, where the 20 bytes left cannot hold a
    header. *)
Lemma shrink_heap_block_witness :
  to_int (wrap (1000 - align 100 - META_SIZE)) = 864
  ∧ (∃ st', os_realloc 16777248 100 (after (os_malloc 1000) init)
            = Ok 16777248 st'
            ∧ entry st' 16777216 = (16777216, 104, 1)
            ∧ entry st' 16777352 = (16777352, 864, 0)
            ∧ last st' = 16777216)
  ∧ to_int (wrap (1000 - align 980 - META_SIZE)) = -16
  ∧ os_realloc 16777248 980 (after (os_malloc 1000) init)
    = Ok 16777248 (with_mem (<[f_size 16777216 := 984]>
                               (mem (after (os_malloc 1000) init)))
                            (after (os_malloc 1000) init)).
Proof.
  split; [evaluate|].
  remember (after (os_malloc 1000) init) as st eqn:Est.
  assert (peek st (f_size 16777216) = 1000) as Hsz by run st.
  assert (peek st (f_next 16777216) = NULL) as Hn by run st.
  assert (brk_start (os st) = 16777216) as Hlo by run st.
  assert (brk (os st) = 16908288) as Hhi by run st.
  assert (last st = 16777216) as Hla by run st.
  assert (peek st (f_status 16777216) = 1) as Hst by run st.
  assert (∀ a, 16777216 ≤ a → a + 8 ≤ 16777216 + META_SIZE + 1000 →
               valid (os st) a = true) as Hv.
  { intros a H1 H2. apply valid_in_heap; unfold NULL_PAGE, META_SIZE in *; lia. }
  split; [|split; [evaluate|]].
  - pose proof (shrink_heap_block st 16777216 100) as H. cbv zeta in H.
    rewrite Hsz, Hn, Hla in H. change (align 100) with 104 in H.
    destruct H as (_ & H & _).
    + lia.
    + unfold META_SIZE. lia.
    + exact Hv.
    + lia.
    + exact Hst.
    + intros Hne. exfalso. apply Hne. reflexivity.
    + destruct H as (st' & Hrun & _ & He1 & He2 & _ & _ & _ & _ & _ & Hl & _);
        [reflexivity|].
      exists st'. split; [exact Hrun|]. split; [exact He1|]. split; [exact He2|].
      exact Hl.
  - pose proof (shrink_heap_block st 16777216 980) as H. cbv zeta in H.
    rewrite Hsz, Hn in H. change (align 980) with 984 in H.
    destruct H as (H & _).
    + lia.
    + unfold META_SIZE. lia.
    + exact Hv.
    + lia.
    + exact Hst.
    + intros Hne. exfalso. apply Hne. reflexivity.
    + apply H. vm_compute. discriminate.
Defined.

(** X12 on a block of 4000 bytes followed by a Free block of 104. *)
Lemma coalesce_absorbs_witness :
  ∃ st', coalesce 16908288 (after heap_with_free_successor init) = Ok tt st'
         ∧ directory st'
           = [(16777216, 8, 1); (16908288, 4136, 1); (16912456, 104, 1)]
         ∧ last st' = 16912456.
Proof.
  remember (after heap_with_free_successor init) as st eqn:Est.
  assert (peek st (f_next 16908288) = 16912320) as Hn by run st.
  assert (peek st (f_next 16912320) = 16912456) as Hnn by run st.
  assert (peek st (f_size 16908288) = 4000) as Hz by run st.
  assert (last st = 16912456) as Hla by run st.
  pose proof (coalesce_absorbs st 16908288) as H. cbv zeta in H.
  rewrite Hn, Hnn, Hz, Hla in H.
  destruct H as [_ H].
  - lia.
  - run st.
  - run st.
  - unfold META_SIZE. lia.
  - unfold META_SIZE. lia.
  - run_hdr st.
  - intros _. unfold META_SIZE. split; [lia|]. split; [lia|]. run st.
  - destruct H as (st' & Hrun & Hmem & Hl & Hgb & Hos); [run st|].
    exists st'. split; [exact Hrun|]. split; [|exact Hl].
    destruct st' as [m' g' l' o']. cbn [mem global_base last os] in *.
    subst m' g' l' o' st. evaluate.
Defined.

(** X13 on the first block of the slab, 16 bytes, resized to 1000. *)
Lemma grow_within_gap_witness :
  directory (after two_blocks init) = [(16777216, 16, 1); (16908288, 16, 1)]
  ∧ to_int (wrap (16 - align 1000 - META_SIZE)) = -1016
  ∧ ∃ st', os_realloc 16777248 1000 (after two_blocks init) = Ok 16777248 st'
           ∧ directory st' = [(16777216, 1000, 1); (16908288, 16, 1)]
           ∧ os st' = os (after two_blocks init).
Proof.
  split; [evaluate|]. split; [evaluate|].
  remember (after two_blocks init) as st eqn:Est.
  assert (peek st (f_next 16777216) = 16908288) as Hn by run st.
  assert (peek st (f_size 16777216) = 16) as Hz by run st.
  pose proof (grow_within_gap st 16777216 1000) as H. cbv zeta in H.
  rewrite Hn, Hz in H. change (align 1000) with 1000 in H.
  destruct H as (H & _).
  - lia.
  - lia.
  - lia.
  - run_hdr st.
  - run st.
  - unfold META_SIZE. lia.
  - unfold META_SIZE. lia.
  - run st.
  - subst st. vm_compute. discriminate.
  - eexists. split; [apply H; vm_compute; discriminate|].
    split; [|reflexivity]. subst st. evaluate.
Defined.

(** X14 on a block of 4000 bytes, followed by a Free block of 104, resized
    to 4050. *)
Lemma grow_into_free_successor_witness :
  directory (after heap_with_free_successor init)
  = [(16777216, 8, 1); (16908288, 4000, 1); (16912320, 104, 0);
     (16912456, 104, 1)]
  ∧ to_int (wrap (4000 + META_SIZE + 104 - align 4050 - META_SIZE)) = 48
  ∧ ∃ st', os_realloc 16908320 4050 (after heap_with_free_successor init)
           = Ok 16908320 st'
           ∧ entry st' 16908288 = (16908288, 4056, 1)
           ∧ entry st' 16912376 = (16912376, 48, 0)
           ∧ peek st' (f_next 16908288) = 16912376
           ∧ peek st' (f_next 16912376) = 16912456
           ∧ os st' = os (after heap_with_free_successor init).
Proof.
  split; [evaluate|]. split; [evaluate|].
  remember (after heap_with_free_successor init) as st eqn:Est.
  assert (peek st (f_next 16908288) = 16912320) as Hn by run st.
  assert (peek st (f_next 16912320) = 16912456) as Hnn by run st.
  assert (peek st (f_size 16908288) = 4000) as Hz by run st.
  assert (peek st (f_size 16912320) = 104) as Hnz by run st.
  assert (brk_start (os st) = 16777216) as Hlo by run st.
  assert (brk (os st) = 16912592) as Hhi by run st.
  pose proof (grow_into_free_successor st 16908288 4050) as H. cbv zeta in H.
  rewrite Hn, Hnn, Hz, Hnz in H. change (align 4050) with 4056 in H.
  destruct H as ((st' & Hrun & Hsz & Hst & _ & Hsplit & _ & _ & _ & Hos) & _).
  - lia.
  - lia.
  - lia.
  - lia.
  - unfold META_SIZE. lia.
  - unfold META_SIZE. lia.
  - intros a H1 H2. apply valid_in_heap; unfold NULL_PAGE, META_SIZE in *; lia.
  - run st.
  - reflexivity.
  - run st.
  - intros _. unfold META_SIZE. split; [reflexivity|]. split; [lia|]. run st.
  - destruct Hsplit as (_ & Hx & He & _ & Hy); [reflexivity|].
    exists st'. split; [exact Hrun|]. unfold entry. rewrite Hsz, Hst.
    split; [reflexivity|]. split; [exact He|]. split; [exact Hx|].
    split; [exact Hy|exact Hos].
Defined.

(** X15 on a block of 104 bytes with an allocated successor, resized to
    500. *)
Lemma grow_relocates_witness :
  directory (after three_in_a_row init)
  = [(16777216, 8, 1); (16908288, 104, 1); (16908424, 200, 1);
     (16908656, 304, 1); (16908992, 8, 1)]
  ∧ os_realloc 16908320 500 (after three_in_a_row init)
    = relocate 16908320 504 (after three_in_a_row init)
  ∧ result (observe (os_realloc 16908320 500) (after three_in_a_row init))
    = Some (16909064,
            [(16777216, 8, 1); (16908288, 104, 0); (16908424, 200, 1);
             (16908656, 304, 1); (16908992, 8, 1); (16909032, 504, 1)],
            16909032, 16909568, []).
Proof.
  split; [evaluate|]. split; [|evaluate].
  remember (after three_in_a_row init) as st eqn:Est.
  assert (peek st (f_next 16908288) = 16908424) as Hn by run st.
  assert (peek st (f_size 16908288) = 104) as Hz by run st.
  pose proof (grow_relocates st 16908288 500) as H. cbv zeta in H.
  rewrite Hn, Hz in H. change (align 500) with 504 in H.
  apply H.
  - lia.
  - unfold META_SIZE. lia.
  - unfold META_SIZE. lia.
  - lia.
  - lia.
  - run_hdr st.
  - subst st. vm_compute. discriminate.
  - run st.
  - subst st. vm_compute. discriminate.
  - unfold META_SIZE. lia.
Defined.

(** X16 after a first allocation: a second allocation and a resize. *)
Lemma global_base_never_moves_witness :
  global_base (after (os_malloc 8) init) = 16777216
  ∧ global_base (after (os_malloc 4000) (after (os_malloc 8) init)) = 16777216
  ∧ global_base (after (os_realloc 16777248 200000) (after (os_malloc 8) init))
    = 16777216.
Proof.
  split; [evaluate|].
  remember (after (os_malloc 8) init) as st eqn:Est.
  assert (global_base st = 16777216) as Hgb by run st.
  assert (global_base st ≠ NULL) as Hne by (rewrite Hgb; discriminate).
  split.
  - remember (after (os_malloc 4000) st) as st' eqn:Est'.
    assert (os_malloc 4000 st = Ok 16908320 st') as Hrun by (subst st' st; evaluate).
    rewrite <- Hgb.
    exact (proj1 (global_base_never_moves st st' Hne) 4000 16908320 Hrun).
  - remember (after (os_realloc 16777248 200000) st) as st' eqn:Est'.
    assert (os_realloc 16777248 200000 st = Ok 16777248 st') as Hrun
      by (subst st' st; evaluate).
    rewrite <- Hgb.
    exact (proj2 (proj2 (proj2 (global_base_never_moves st st' Hne)))
             16777248 200000 16777248 Hrun).
Defined.

(** X17 on the release of a mapped block. *)
Lemma release_keeps_break_witness :
  os_quiet (after (os_malloc 200000) init)
           (after (os_free 1099511627808) (after (os_malloc 200000) init))
  ∧ maps (os (after (os_malloc 200000) init)) = [(1099511627776, 1099511828480)]
  ∧ maps (os (after (os_free 1099511627808) (after (os_malloc 200000) init)))
    = [].
Proof.
  split; [|split; evaluate].
  apply (release_keeps_break 1099511627808 _ tt). evaluate.
Defined.

(** X18 at 13, at 16 and three bytes below 2^64. *)
Lemma align_rounds_up_witness :
  align 13 = 16 ∧ align 16 = 16 ∧ align (2 ^ 64 - 3) = 0.
Proof.
  destruct (align_rounds_up 13 ltac:(lia)) as (_ & _ & _ & _ & _).
  destruct (align_rounds_up 16 ltac:(lia)) as (_ & _ & H16 & _ & _).
  destruct (align_rounds_up (2 ^ 64 - 3) ltac:(lia)) as (_ & _ & _ & _ & Hw).
  split; [evaluate|]. split; [apply H16; reflexivity|apply Hw; lia].
Defined.
